(** * trafficSimulator: signals, phantom vehicles and the simulation stepper

    A shallow embedding of [core/traffic_signal.py] and [core/simulation.py].

    Conventions.
    - The numbers of the program are binary floating-point numbers.  A
      finite one is the rational it denotes ([Q]), and comparisons are
      those of [Q].  [TrafficSignal] and [Simulation] compute with the
      exact operations of [Q]; [Rounded] repeats the update of a signal
      with the operations of the machine as a parameter, for the
      properties that depend on how sums, differences and quotients are
      rounded or on [**] overflowing.
    - A Python exception is the [Raise] alternative of [result]; the state
      left behind by a method that raised is not kept, except where a
      method is written in state-passing style ([create_traffic_signal]).
    - A [dict] is a [gmap]; a [list] or [deque] indexed by position is a
      Rocq list read with stdpp's lookup. *)

From Stdlib Require Import QArith Qround ZArith Lia Lqa.
From stdpp Require Import gmap list option.

(** ** Exceptions *)

Inductive exn : Set :=
| ValueError | IndexError | KeyError | TypeError | ZeroDivisionError
| OverflowError.

Inductive result (A : Type) : Type :=
| Ok (val : A)
| Raise (e : exn).
Arguments Ok {A} val.
Arguments Raise {A} e.

Definition bind {A B} (m : result A) (k : A -> result B) : result B :=
  match m with
  | Ok val => k val
  | Raise e => Raise e
  end.

Notation "x <- m ;; k" := (bind m (fun x => k))
  (at level 100, m at next level, right associativity).

(** ** Python primitives *)

(** Position denoted by the subscript [i] in a sequence of [n] items:
    negative subscripts count from the end. *)
Definition py_index (n : nat) (i : Z) : option nat :=
  if ((0 <=? i) && (i <? Z.of_nat n))%Z then Some (Z.to_nat i)
  else if ((- Z.of_nat n <=? i) && (i <? 0))%Z then Some (Z.to_nat (Z.of_nat n + i))
  else None.

(** [seq[i]] *)
Definition py_getitem {A} (items : list A) (i : Z) : result A :=
  match py_index (length items) i with
  | Some k => match items !! k with
              | Some val => Ok val
              | None => Raise IndexError
              end
  | None => Raise IndexError
  end.

(** [d[key]] *)
Definition dict_getitem {A} (d : gmap nat A) (key : nat) : result A :=
  match d !! key with
  | Some val => Ok val
  | None => Raise KeyError
  end.

(** [a / b] *)
Definition py_truediv (a b : Q) : result Q :=
  if Qeq_bool b 0 then Raise ZeroDivisionError else Ok (a / b)%Q.

(** An attribute that must hold a number when it is compared or
    subtracted; [None] there is a [TypeError]. *)
Definition py_number (o : option Q) : result Q :=
  match o with
  | Some q => Ok q
  | None => Raise TypeError
  end.

(** ** Vehicle

    [core/vehicle.py] is not part of the sources at hand: the record lists
    the attributes that the signal and the stepper read or write, and the
    kinematic method [Vehicle.update] is a parameter of the stepper.  The
    identity of a vehicle is its key in the simulation's vehicle table. *)
Module Vehicle.
Record obj : Type := mk {
  path : list Z;
  current_road_index : nat;
  x : Q;
  v : Q;
  a : Q;
  l : Q;
  s0 : Q;
  v_max : Q;
  a_max : Q;
  b_max : Q
}.

Definition set_x (val : Q) (self : obj) : obj :=
  mk (path self) (current_road_index self) val (v self) (a self) (l self)
     (s0 self) (v_max self) (a_max self) (b_max self).

Definition set_current_road_index (val : nat) (self : obj) : obj :=
  mk (path self) val (x self) (v self) (a self) (l self)
     (s0 self) (v_max self) (a_max self) (b_max self).
End Vehicle.

(** ** Segment

    The geometry classes are not part of the sources at hand: a segment is
    its queue of vehicle identifiers (front first) and the value that
    [get_length()] returns. *)
Module Segment.
Record obj : Type := mk {
  vehicles : list nat;
  get_length : Q
}.

Definition set_vehicles (val : list nat) (self : obj) : obj :=
  mk val (get_length self).

(** [vehicles.append(vehicle_id)] *)
Definition append (vehicle_id : nat) (self : obj) : obj :=
  set_vehicles (vehicles self ++ [vehicle_id]) self.

(** [vehicles.popleft()] *)
Definition popleft (self : obj) : obj :=
  set_vehicles (tail (vehicles self)) self.
End Segment.

(** ** TrafficSignal *)

Inductive SignalState : Set := GREEN | YELLOW | RED.

Module TrafficSignal.
Record obj : Type := mk {
  segment_index : Z;
  green_duration : Q;
  yellow_duration : Q;
  red_duration : Q;
  stop_position : option Q;
  _cycle_time : Q;
  _state : SignalState;
  phantom : option Vehicle.obj;
  _position_resolved : bool;
  _yellow_hold : bool
}.

(** The keys of the [config] dictionary that name attributes of the
    signal; an absent key is [None]. *)
Record config : Type := mk_config {
  cfg_segment_index : option Z;
  cfg_green_duration : option Q;
  cfg_yellow_duration : option Q;
  cfg_red_duration : option Q;
  cfg_stop_position : option Q
}.

Definition empty_config : config := mk_config None None None None None.

(** [config["segment_index"] = segment_index] *)
Definition config_set_segment_index (i : Z) (c : config) : config :=
  mk_config (Some i) (cfg_green_duration c) (cfg_yellow_duration c)
            (cfg_red_duration c) (cfg_stop_position c).

Definition _set_default_config : obj :=
  mk 0 10 3 10 None 0 GREEN None false false.

Definition apply_config (c : config) (self : obj) : obj :=
  mk (default (segment_index self) (cfg_segment_index c))
     (default (green_duration self) (cfg_green_duration c))
     (default (yellow_duration self) (cfg_yellow_duration c))
     (default (red_duration self) (cfg_red_duration c))
     (match cfg_stop_position c with
      | Some p => Some p
      | None => stop_position self
      end)
     (_cycle_time self) (_state self) (phantom self)
     (_position_resolved self) (_yellow_hold self).

Definition _init_properties (self : obj) : obj :=
  mk (segment_index self) (green_duration self) (yellow_duration self)
     (red_duration self) (stop_position self)
     0 GREEN None false false.

Definition __init__ (c : option config) : obj :=
  let self := _set_default_config in
  let self := match c with
              | Some c => apply_config c self
              | None => self
              end in
  _init_properties self.

Definition cycle_duration (self : obj) : Q :=
  (green_duration self + yellow_duration self + red_duration self)%Q.

Definition set_stop_position (val : option Q) (self : obj) : obj :=
  mk (segment_index self) (green_duration self) (yellow_duration self)
     (red_duration self) val (_cycle_time self) (_state self)
     (phantom self) true (_yellow_hold self).

Definition set_clock (ct : Q) (st : SignalState) (self : obj) : obj :=
  mk (segment_index self) (green_duration self) (yellow_duration self)
     (red_duration self) (stop_position self) ct st
     (phantom self) (_position_resolved self) (_yellow_hold self).

Definition set_phantom (ph : option Vehicle.obj) (hold : bool) (self : obj) : obj :=
  mk (segment_index self) (green_duration self) (yellow_duration self)
     (red_duration self) (stop_position self) (_cycle_time self)
     (_state self) ph (_position_resolved self) hold.

(** The phantom carries the stop position as its [x].  A signal whose
    stop position is still [None] cannot be given a phantom in this
    model; [update] resolves the position before it builds one. *)
Definition _make_phantom (self : obj) : result Vehicle.obj :=
  sp <- py_number (stop_position self) ;;
  Ok (Vehicle.mk [] 0 sp 0 0 0 0 0 0 0).

(** Braking distance estimate of one vehicle, [v**2 / (2.0 * b_max)]
    under the guard [b_max > 0], else [0.0]. *)
Definition braking_distance (veh : Vehicle.obj) : result Q :=
  if Qlt_le_dec 0 (Vehicle.b_max veh)
  then py_truediv (Vehicle.v veh ^ 2) (2 * Vehicle.b_max veh)
  else Ok 0%Q.

(** The loop of [_any_vehicle_must_stop] over the queue of the guarded
    segment. *)
Fixpoint any_must_stop_loop (vehicles : gmap nat Vehicle.obj)
    (stop : option Q) (queue : list nat) : result bool :=
  match queue with
  | [] => Ok false
  | veh_id :: rest =>
      veh <- dict_getitem vehicles veh_id ;;
      sp <- py_number stop ;;
      if Qlt_le_dec (Vehicle.x veh) sp then
        let distance_to_line := (sp - Vehicle.x veh)%Q in
        bd <- braking_distance veh ;;
        if Qlt_le_dec distance_to_line bd then Ok true
        else any_must_stop_loop vehicles stop rest
      else any_must_stop_loop vehicles stop rest
  end.

Definition _any_vehicle_must_stop (segments : list Segment.obj)
    (vehicles : gmap nat Vehicle.obj) (self : obj) : result bool :=
  segment <- py_getitem segments (segment_index self) ;;
  any_must_stop_loop vehicles (stop_position self) (Segment.vehicles segment).

(** [_STOPPED_THRESHOLD = 0.05]: the binary floating-point number that
    the literal denotes, a little above one twentieth. *)
Definition _STOPPED_THRESHOLD : Q := 3602879701896397 # 72057594037927936.

(** The loop of [_all_blocked_vehicles_stopped]. *)
Fixpoint all_stopped_loop (vehicles : gmap nat Vehicle.obj)
    (stop : option Q) (queue : list nat) : result bool :=
  match queue with
  | [] => Ok true
  | veh_id :: rest =>
      veh <- dict_getitem vehicles veh_id ;;
      sp <- py_number stop ;;
      if Qlt_le_dec (Vehicle.x veh) sp then
        if Qlt_le_dec _STOPPED_THRESHOLD (Vehicle.v veh) then Ok false
        else all_stopped_loop vehicles stop rest
      else all_stopped_loop vehicles stop rest
  end.

Definition _all_blocked_vehicles_stopped (segments : list Segment.obj)
    (vehicles : gmap nat Vehicle.obj) (self : obj) : result bool :=
  segment <- py_getitem segments (segment_index self) ;;
  all_stopped_loop vehicles (stop_position self) (Segment.vehicles segment).

(** The [simulation] argument of the methods below is given by the two
    attributes the signal reads, [simulation.segments] and
    [simulation.vehicles]. *)
Definition _update_phantom (segments : list Segment.obj)
    (vehicles : gmap nat Vehicle.obj) (self : obj) : result obj :=
  match _state self with
  | GREEN => Ok (set_phantom None false self)
  | RED =>
      ph <- _make_phantom self ;;
      Ok (set_phantom (Some ph) false self)
  | YELLOW =>
      if _yellow_hold self then
        stopped <- _all_blocked_vehicles_stopped segments vehicles self ;;
        if (stopped : bool) then Ok (set_phantom None false self)
        else
          ph <- _make_phantom self ;;
          Ok (set_phantom (Some ph) true self)
      else
        must <- _any_vehicle_must_stop segments vehicles self ;;
        if (must : bool) then
          ph <- _make_phantom self ;;
          Ok (set_phantom (Some ph) true self)
        else Ok (set_phantom None false self)
  end.

(** Resolution of the stop position, the first block of [update]. *)
Definition resolve_position (segments : list Segment.obj) (self : obj)
    : result obj :=
  if _position_resolved self then Ok self
  else
    segment <- py_getitem segments (segment_index self) ;;
    let seg_length := Segment.get_length segment in
    Ok (set_stop_position
          (match stop_position self with
           | None => Some seg_length
           | Some p => Some p
           end) self).

(** The clock after [dt] has been added and the cycle subtracted once
    when its end is reached. *)
Definition advance_clock (dt : Q) (self : obj) : Q :=
  let ct := (_cycle_time self + dt)%Q in
  if Qlt_le_dec ct (cycle_duration self) then ct
  else (ct - cycle_duration self)%Q.

Definition phase_of (ct : Q) (self : obj) : SignalState :=
  if Qlt_le_dec ct (green_duration self) then GREEN
  else if Qlt_le_dec ct (green_duration self + yellow_duration self) then YELLOW
  else RED.

Definition update (segments : list Segment.obj)
    (vehicles : gmap nat Vehicle.obj) (dt : Q) (self : obj) : result obj :=
  self <- resolve_position segments self ;;
  let ct := advance_clock dt self in
  let self := set_clock ct (phase_of ct self) self in
  _update_phantom segments vehicles self.
End TrafficSignal.

(** ** The arithmetic of the machine

    [f_add ar a b] is what [a + b] evaluates to, and so on: the rounded
    sum, difference, product and quotient.  [f_square ar a] is [a ** 2],
    which raises [OverflowError] when the square is too large for the
    format.  The quotient is asked for a divisor other than zero only;
    [a / 0.0] is the [ZeroDivisionError] of [Rounded.truediv]. *)
Record arithmetic : Type := mk_arithmetic {
  f_add : Q -> Q -> Q;
  f_sub : Q -> Q -> Q;
  f_mul : Q -> Q -> Q;
  f_div : Q -> Q -> Q;
  f_square : Q -> result Q
}.

(** Arithmetic without rounding. *)
Definition exact_arithmetic : arithmetic :=
  mk_arithmetic Qplus Qminus Qmult Qdiv (fun a => Ok (a ^ 2)%Q).

(** ** TrafficSignal, with the arithmetic of the machine

    The methods of [TrafficSignal] that compute, operation for
    operation as in the source.  The methods that only compare or copy
    ([_make_phantom], [_all_blocked_vehicles_stopped], the resolution of
    the stop position) are those of [TrafficSignal]. *)
Module Rounded.
Section Arithmetic.
Variable ar : arithmetic.

(** [green_duration + yellow_duration + red_duration], summed from the
    left. *)
Definition cycle_duration (self : TrafficSignal.obj) : Q :=
  f_add ar (f_add ar (TrafficSignal.green_duration self)
                     (TrafficSignal.yellow_duration self))
           (TrafficSignal.red_duration self).

(** [a / b] *)
Definition truediv (a b : Q) : result Q :=
  if Qeq_bool b 0 then Raise ZeroDivisionError else Ok (f_div ar a b).

(** [(veh.v**2) / (2.0 * veh.b_max)] under the guard [veh.b_max > 0],
    else [0.0]. *)
Definition braking_distance (veh : Vehicle.obj) : result Q :=
  if Qlt_le_dec 0 (Vehicle.b_max veh)
  then
    square <- f_square ar (Vehicle.v veh) ;;
    truediv square (f_mul ar 2 (Vehicle.b_max veh))
  else Ok 0%Q.

Fixpoint any_must_stop_loop (vehicles : gmap nat Vehicle.obj)
    (stop : option Q) (queue : list nat) : result bool :=
  match queue with
  | [] => Ok false
  | veh_id :: rest =>
      veh <- dict_getitem vehicles veh_id ;;
      sp <- py_number stop ;;
      if Qlt_le_dec (Vehicle.x veh) sp then
        let distance_to_line := f_sub ar sp (Vehicle.x veh) in
        bd <- braking_distance veh ;;
        if Qlt_le_dec distance_to_line bd then Ok true
        else any_must_stop_loop vehicles stop rest
      else any_must_stop_loop vehicles stop rest
  end.

Definition _any_vehicle_must_stop (segments : list Segment.obj)
    (vehicles : gmap nat Vehicle.obj) (self : TrafficSignal.obj) : result bool :=
  segment <- py_getitem segments (TrafficSignal.segment_index self) ;;
  any_must_stop_loop vehicles (TrafficSignal.stop_position self)
                     (Segment.vehicles segment).

Definition _update_phantom (segments : list Segment.obj)
    (vehicles : gmap nat Vehicle.obj) (self : TrafficSignal.obj)
    : result TrafficSignal.obj :=
  match TrafficSignal._state self with
  | GREEN => Ok (TrafficSignal.set_phantom None false self)
  | RED =>
      ph <- TrafficSignal._make_phantom self ;;
      Ok (TrafficSignal.set_phantom (Some ph) false self)
  | YELLOW =>
      if TrafficSignal._yellow_hold self then
        stopped <- TrafficSignal._all_blocked_vehicles_stopped segments vehicles self ;;
        if (stopped : bool) then Ok (TrafficSignal.set_phantom None false self)
        else
          ph <- TrafficSignal._make_phantom self ;;
          Ok (TrafficSignal.set_phantom (Some ph) true self)
      else
        must <- _any_vehicle_must_stop segments vehicles self ;;
        if (must : bool) then
          ph <- TrafficSignal._make_phantom self ;;
          Ok (TrafficSignal.set_phantom (Some ph) true self)
        else Ok (TrafficSignal.set_phantom None false self)
  end.

(** [self._cycle_time += dt], then one [-= self.cycle_duration] when the
    sum has reached the cycle duration. *)
Definition advance_clock (dt : Q) (self : TrafficSignal.obj) : Q :=
  let ct := f_add ar (TrafficSignal._cycle_time self) dt in
  if Qlt_le_dec ct (cycle_duration self) then ct
  else f_sub ar ct (cycle_duration self).

Definition phase_of (ct : Q) (self : TrafficSignal.obj) : SignalState :=
  if Qlt_le_dec ct (TrafficSignal.green_duration self) then GREEN
  else if Qlt_le_dec ct (f_add ar (TrafficSignal.green_duration self)
                                  (TrafficSignal.yellow_duration self))
       then YELLOW
       else RED.

Definition update (segments : list Segment.obj)
    (vehicles : gmap nat Vehicle.obj) (dt : Q) (self : TrafficSignal.obj)
    : result TrafficSignal.obj :=
  self <- TrafficSignal.resolve_position segments self ;;
  let ct := advance_clock dt self in
  let self := TrafficSignal.set_clock ct (phase_of ct self) self in
  _update_phantom segments vehicles self.
End Arithmetic.
End Rounded.

(** ** Simulation

    [VehicleGenerator] and [Vehicle.update] are not part of the sources at
    hand; the stepper takes both as parameters.  [Vehicle_update lead dt veh]
    is the vehicle after [veh.update(lead, dt)], and
    [VehicleGenerator_update gen sim] the simulation after
    [gen.update(sim)]. *)
Module Simulation.
Section Collaborators.
Variable VehicleGenerator : Type.

Record obj : Type := mk {
  segments : list Segment.obj;
  vehicles : gmap nat Vehicle.obj;
  vehicle_generator : list VehicleGenerator;
  traffic_signals : gmap Z TrafficSignal.obj;
  t : Q;
  frame_count : nat;
  dt : Q
}.

Variable Vehicle_update : option Vehicle.obj -> Q -> Vehicle.obj -> Vehicle.obj.
Variable VehicleGenerator_update : VehicleGenerator -> obj -> obj.

(** [self.dt = 1/60] is the binary floating-point number nearest to one
    sixtieth. *)
Definition __init__ : obj :=
  mk [] ∅ [] ∅ 0 0 (4803839602528529 # 288230376151711744).

Definition set_segments (val : list Segment.obj) (self : obj) : obj :=
  mk val (vehicles self) (vehicle_generator self) (traffic_signals self)
     (t self) (frame_count self) (dt self).

Definition set_vehicles (val : gmap nat Vehicle.obj) (self : obj) : obj :=
  mk (segments self) val (vehicle_generator self) (traffic_signals self)
     (t self) (frame_count self) (dt self).

Definition set_traffic_signals (val : gmap Z TrafficSignal.obj) (self : obj) : obj :=
  mk (segments self) (vehicles self) (vehicle_generator self) val
     (t self) (frame_count self) (dt self).

Definition add_segment (seg : Segment.obj) (self : obj) : obj :=
  set_segments (segments self ++ [seg]) self.

(** [Segment.add_vehicle] belongs to the geometry classes, which are not
    part of the sources at hand: [Segment_add_vehicle veh_id veh seg] is
    the segment after [seg.add_vehicle(veh)]. *)
Variable Segment_add_vehicle : nat -> Vehicle.obj -> Segment.obj -> Segment.obj.

(** State passing: the table is written before the first segment of the
    path is looked up, so the simulation returned with an exception
    already holds the vehicle.  [veh_id] is [veh.id]. *)
Definition add_vehicle (veh_id : nat) (veh : Vehicle.obj) (self : obj)
    : obj * result unit :=
  let self := set_vehicles (<[veh_id := veh]> (vehicles self)) self in
  match Vehicle.path veh with
  | [] => (self, Ok tt)
  | first :: _ =>
      match py_index (length (segments self)) first with
      | None => (self, Raise IndexError)
      | Some k =>
          (set_segments (alter (Segment_add_vehicle veh_id veh) k (segments self)) self,
           Ok tt)
      end
  end.

(** State passing: the simulation after the call, and the value returned
    or the exception raised. *)
Definition create_traffic_signal (segment_index : Z)
    (config : option TrafficSignal.config) (self : obj)
    : obj * result TrafficSignal.obj :=
  if ((segment_index <? 0) || (segment_index >=? Z.of_nat (length (segments self))))%Z
  then (self, Raise ValueError)
  else
    let config := default TrafficSignal.empty_config config in
    let config := TrafficSignal.config_set_segment_index segment_index config in
    let signal := TrafficSignal.__init__ (Some config) in
    (set_traffic_signals (<[segment_index := signal]> (traffic_signals self)) self,
     Ok signal).

(** *** First loop of [update]: the signals

    Signals read the segments and the vehicles and write only
    themselves, so the order of the loop decides nothing but which
    exception is reported when several updates raise. *)
Fixpoint update_signal_items (self : obj)
    (items : list (Z * TrafficSignal.obj)) : result (list (Z * TrafficSignal.obj)) :=
  match items with
  | [] => Ok []
  | (key, signal) :: rest =>
      signal' <- TrafficSignal.update (segments self) (vehicles self) (dt self) signal ;;
      rest' <- update_signal_items self rest ;;
      Ok ((key, signal') :: rest')
  end.

Definition update_signals (self : obj) : result obj :=
  items <- update_signal_items self (map_to_list (traffic_signals self)) ;;
  Ok (set_traffic_signals (list_to_map items) self).

(** *** Second loop: the vehicles of each segment, front to back *)
Fixpoint update_queue (step : Q) (leader : option Vehicle.obj)
    (queue : list nat) (table : gmap nat Vehicle.obj)
    : result (gmap nat Vehicle.obj) :=
  match queue with
  | [] => Ok table
  | vehicle_id :: rest =>
      veh <- dict_getitem table vehicle_id ;;
      let veh' := Vehicle_update leader step veh in
      update_queue step (Some veh') rest (<[vehicle_id := veh']> table)
  end.

Definition update_segment_vehicles (self : obj) (seg_idx : nat)
    (segment : Segment.obj) (table : gmap nat Vehicle.obj)
    : result (gmap nat Vehicle.obj) :=
  match Segment.vehicles segment with
  | [] => Ok table
  | _ :: _ =>
      let signal := traffic_signals self !! Z.of_nat seg_idx in
      let front_leader := match signal with
                          | Some signal => TrafficSignal.phantom signal
                          | None => None
                          end in
      update_queue (dt self) front_leader (Segment.vehicles segment) table
  end.

Fixpoint update_segments_from (self : obj) (seg_idx : nat)
    (segs : list Segment.obj) (table : gmap nat Vehicle.obj)
    : result (gmap nat Vehicle.obj) :=
  match segs with
  | [] => Ok table
  | segment :: rest =>
      table' <- update_segment_vehicles self seg_idx segment table ;;
      update_segments_from self (S seg_idx) rest table'
  end.

Definition update_vehicles (self : obj) : result obj :=
  table <- update_segments_from self 0 (segments self) (vehicles self) ;;
  Ok (set_vehicles table self).

(** *** Third loop: the front vehicle of each segment against its end *)
Definition check_segment (seg_idx : nat) (self : obj) : result obj :=
  match segments self !! seg_idx with
  | None => Ok self
  | Some segment =>
      match Segment.vehicles segment with
      | [] => Ok self
      | vehicle_id :: _ =>
          vehicle <- dict_getitem (vehicles self) vehicle_id ;;
          if Qlt_le_dec (Vehicle.x vehicle) (Segment.get_length segment)
          then Ok self
          else
            moved <-
              (let next := S (Vehicle.current_road_index vehicle) in
               if (next <? length (Vehicle.path vehicle))%nat then
                 next_road_index <- py_getitem (Vehicle.path vehicle) (Z.of_nat next) ;;
                 match py_index (length (segments self)) next_road_index with
                 | None => Raise IndexError
                 | Some k =>
                     Ok (Vehicle.set_current_road_index next vehicle,
                         alter (Segment.append vehicle_id) k (segments self))
                 end
               else Ok (vehicle, segments self)) ;;
            let vehicle := Vehicle.set_x 0 (fst moved) in
            let segs := alter Segment.popleft seg_idx (snd moved) in
            Ok (set_segments segs
                  (set_vehicles (<[vehicle_id := vehicle]> (vehicles self)) self))
      end
  end.

Fixpoint check_segments (idxs : list nat) (self : obj) : result obj :=
  match idxs with
  | [] => Ok self
  | seg_idx :: rest =>
      self' <- check_segment seg_idx self ;;
      check_segments rest self'
  end.

Definition check_out_of_bounds (self : obj) : result obj :=
  check_segments (seq 0 (length (segments self))) self.

(** *** Generators, clock and frame counter *)
Definition update_generators (self : obj) : obj :=
  foldl (fun sim gen => VehicleGenerator_update gen sim) self
        (vehicle_generator self).

Definition tick_clock (self : obj) : obj :=
  mk (segments self) (vehicles self) (vehicle_generator self)
     (traffic_signals self) (t self + dt self)%Q (S (frame_count self))
     (dt self).

Definition update (self : obj) : result obj :=
  self <- update_signals self ;;
  self <- update_vehicles self ;;
  self <- check_out_of_bounds self ;;
  Ok (tick_clock (update_generators self)).

Fixpoint run (steps : nat) (self : obj) : result obj :=
  match steps with
  | O => Ok self
  | S steps => self' <- update self ;; run steps self'
  end.
End Collaborators.
End Simulation.

Arguments Simulation.mk {VehicleGenerator}.
Arguments Simulation.segments {VehicleGenerator}.
Arguments Simulation.vehicles {VehicleGenerator}.
Arguments Simulation.vehicle_generator {VehicleGenerator}.
Arguments Simulation.traffic_signals {VehicleGenerator}.
Arguments Simulation.t {VehicleGenerator}.
Arguments Simulation.frame_count {VehicleGenerator}.
Arguments Simulation.dt {VehicleGenerator}.
Arguments Simulation.set_segments {VehicleGenerator}.
Arguments Simulation.set_vehicles {VehicleGenerator}.
Arguments Simulation.set_traffic_signals {VehicleGenerator}.
Arguments Simulation.create_traffic_signal {VehicleGenerator}.
Arguments Simulation.add_segment {VehicleGenerator}.
Arguments Simulation.add_vehicle {VehicleGenerator}.
Arguments Simulation.__init__ {VehicleGenerator}.
Arguments Simulation.update_signal_items {VehicleGenerator}.
Arguments Simulation.update_signals {VehicleGenerator}.
Arguments Simulation.update_segment_vehicles {VehicleGenerator}.
Arguments Simulation.update_segments_from {VehicleGenerator}.
Arguments Simulation.update_vehicles {VehicleGenerator}.
Arguments Simulation.check_segment {VehicleGenerator}.
Arguments Simulation.check_segments {VehicleGenerator}.
Arguments Simulation.check_out_of_bounds {VehicleGenerator}.
Arguments Simulation.update_generators {VehicleGenerator}.
Arguments Simulation.tick_clock {VehicleGenerator}.
Arguments Simulation.update {VehicleGenerator}.
Arguments Simulation.run {VehicleGenerator}.

(** * Vocabulary of the statements *)

Definition in_range {G} (sim : Simulation.obj G) (i : Z) : Prop :=
  (0 <= i < Z.of_nat (length (Simulation.segments sim)))%Z.

(** The signal that [create_traffic_signal i cfg] builds. *)
Definition created_signal (i : Z) (cfg : option TrafficSignal.config)
    : TrafficSignal.obj :=
  TrafficSignal.__init__
    (Some (TrafficSignal.config_set_segment_index i
             (default TrafficSignal.empty_config cfg))).

(** Every identifier of a queue is a key of the vehicle table. *)
Definition queue_known (vehicles : gmap nat Vehicle.obj) (queue : list nat) : Prop :=
  Forall (fun veh_id => is_Some (vehicles !! veh_id)) queue.

(** [veh] is the table entry of some identifier of [queue]. *)
Definition on_queue (vehicles : gmap nat Vehicle.obj) (queue : list nat)
    (veh : Vehicle.obj) : Prop :=
  exists veh_id, veh_id ∈ queue /\ vehicles !! veh_id = Some veh.

Definition behind_line (sp : Q) (veh : Vehicle.obj) : Prop :=
  (Vehicle.x veh < sp)%Q.

(** The value the YELLOW check uses as braking distance. *)
Definition braking_estimate (veh : Vehicle.obj) : Q :=
  if Qlt_le_dec 0 (Vehicle.b_max veh)
  then (Vehicle.v veh ^ 2 / (2 * Vehicle.b_max veh))%Q
  else 0%Q.

(** Behind the line and unable to brake to a stop before it. *)
Definition cannot_brake (sp : Q) (veh : Vehicle.obj) : Prop :=
  behind_line sp veh /\ (sp - Vehicle.x veh < braking_estimate veh)%Q.

(** Behind the line and faster than the stopped threshold. *)
Definition still_moving (sp : Q) (veh : Vehicle.obj) : Prop :=
  behind_line sp veh /\ (TrafficSignal._STOPPED_THRESHOLD < Vehicle.v veh)%Q.

(** What a signal update needs from the simulation in order not to raise:
    the guarded segment exists, its queue holds known vehicles, and a
    position marked as resolved is a number. *)
Definition signal_ready (segments : list Segment.obj)
    (vehicles : gmap nat Vehicle.obj) (signal : TrafficSignal.obj) : Prop :=
  (exists segment,
      py_getitem segments (TrafficSignal.segment_index signal) = Ok segment
      /\ queue_known vehicles (Segment.vehicles segment))
  /\ (TrafficSignal._position_resolved signal = true ->
      is_Some (TrafficSignal.stop_position signal)).

(** The vehicle that [_make_phantom] builds for the stop position [sp]. *)
Definition phantom_at (sp : Q) : Vehicle.obj :=
  Vehicle.mk [] 0 sp 0 0 0 0 0 0 0.

(** The clock and phase that [update] writes into a signal. *)
Definition ticked (step : Q) (signal : TrafficSignal.obj) : TrafficSignal.obj :=
  let ct := TrafficSignal.advance_clock step signal in
  TrafficSignal.set_clock ct (TrafficSignal.phase_of ct signal) signal.

(** One tick as a signal sees it: the segments and the vehicle table of
    the simulation at that moment, and the step. *)
Definition tick : Type := (list Segment.obj * gmap nat Vehicle.obj * Q)%type.

(** Successive updates of one signal, each against the simulation as it
    stands at that tick; the result lists the signal after every update. *)
Fixpoint signal_trace (ticks : list tick) (signal : TrafficSignal.obj)
    : result (list TrafficSignal.obj) :=
  match ticks with
  | [] => Ok []
  | (segs, vehs, step) :: rest =>
      sg' <- TrafficSignal.update segs vehs step signal ;;
      trace <- signal_trace rest sg' ;;
      Ok (sg' :: trace)
  end.

(** The signal after all the updates of [ticks]. *)
Fixpoint signal_updates (ticks : list tick) (signal : TrafficSignal.obj)
    : result TrafficSignal.obj :=
  match ticks with
  | [] => Ok signal
  | (segs, vehs, step) :: rest =>
      sg' <- TrafficSignal.update segs vehs step signal ;;
      signal_updates rest sg'
  end.

(** A tick at which the segment under subscript [i] exists and queues
    known vehicles only. *)
Definition tick_ready (i : Z) (tk : tick) : Prop :=
  exists segment,
    py_getitem (fst (fst tk)) i = Ok segment
    /\ queue_known (snd (fst tk)) (Segment.vehicles segment).

(** Simulated time after [n] ticks of length [step]. *)
Definition elapsed (n : nat) (step : Q) : Q :=
  (inject_Z (Z.of_nat n) * step)%Q.

(** All identifiers queued on the segments, segment after segment. *)
Definition queued_ids (segs : list Segment.obj) : list nat :=
  segs ≫= Segment.vehicles.

(** Every queue of the simulation holds known vehicles only. *)
Definition queues_known {G} (sim : Simulation.obj G) : Prop :=
  Forall (fun seg => queue_known (Simulation.vehicles sim) (Segment.vehicles seg))
         (Simulation.segments sim).


(** The phantom of the signal stored under segment index [i], if any. *)
Definition guarding_phantom {G} (sim : Simulation.obj G) (i : nat)
    : option Vehicle.obj :=
  Simulation.traffic_signals sim !! Z.of_nat i ≫= TrafficSignal.phantom.

(** The simulation of a tick at the moment its third loop starts. *)
Definition before_boundary_check {G}
    (Vehicle_update : option Vehicle.obj -> Q -> Vehicle.obj -> Vehicle.obj)
    (sim : Simulation.obj G) : result (Simulation.obj G) :=
  s1 <- Simulation.update_signals sim ;;
  Simulation.update_vehicles Vehicle_update s1.

(** What the third loop needs in order not to raise: known vehicles in
    the queues, and paths that name existing segments. *)
Definition boundary_ready {G} (sim : Simulation.obj G) : Prop :=
  queues_known sim
  /\ forall veh_id veh,
      Simulation.vehicles sim !! veh_id = Some veh ->
      Forall (fun p => is_Some (py_index (length (Simulation.segments sim)) p))
             (Vehicle.path veh).

(** Position, among [n] segments, of the segment that follows the current
    one on the path of [veh]; [None] when the path has no further entry. *)
Definition next_segment (n : nat) (veh : Vehicle.obj) : option nat :=
  Vehicle.path veh !! S (Vehicle.current_road_index veh) ≫= py_index n.

(** A vehicle after it has left its segment for [target]. *)
Definition after_crossing (target : option nat) (veh : Vehicle.obj) : Vehicle.obj :=
  Vehicle.set_x 0
    (match target with
     | Some _ => Vehicle.set_current_road_index (S (Vehicle.current_road_index veh)) veh
     | None => veh
     end).

(** The segments after vehicle [veh_id] has left the front of segment
    [i] for [target]. *)
Definition segments_after_crossing (veh_id : nat) (i : nat) (target : option nat)
    (segs : list Segment.obj) : list Segment.obj :=
  alter Segment.popleft i
    (match target with
     | Some k => alter (Segment.append veh_id) k segs
     | None => segs
     end).

(** The simulation after the front vehicle [veh_id] of segment [i], whose
    table entry is [veh], has crossed the end of that segment. *)
Definition crossed {G} (i veh_id : nat) (veh : Vehicle.obj) (sim : Simulation.obj G)
    : Simulation.obj G :=
  let target := next_segment (length (Simulation.segments sim)) veh in
  Simulation.set_segments
    (segments_after_crossing veh_id i target (Simulation.segments sim))
    (Simulation.set_vehicles
       (<[veh_id := after_crossing target veh]> (Simulation.vehicles sim)) sim).

(** [veh'] is [veh], or [veh] after one crossing. *)
Definition at_most_one_boundary (veh veh' : Vehicle.obj) : Prop :=
  veh' = veh
  \/ (Vehicle.x veh' = 0%Q
      /\ Vehicle.path veh' = Vehicle.path veh
      /\ (Vehicle.current_road_index veh' = Vehicle.current_road_index veh
          \/ Vehicle.current_road_index veh' = S (Vehicle.current_road_index veh))).

(** Every signal of the table names an existing segment, and a stop
    position marked as resolved is a number. *)
Definition signals_sound {G} (sim : Simulation.obj G) : Prop :=
  forall key signal,
    Simulation.traffic_signals sim !! key = Some signal ->
    is_Some (py_index (length (Simulation.segments sim))
                      (TrafficSignal.segment_index signal))
    /\ (TrafficSignal._position_resolved signal = true ->
        is_Some (TrafficSignal.stop_position signal)).

(** A simulation on which a tick cannot raise: queued vehicles are known
    and queued once, paths and signals name existing segments. *)
Definition well_formed {G} (sim : Simulation.obj G) : Prop :=
  boundary_ready sim
  /\ NoDup (queued_ids (Simulation.segments sim))
  /\ signals_sound sim.

(** A [Vehicle.update] that leaves the path of the vehicle alone. *)
Definition path_keeping
    (Vehicle_update : option Vehicle.obj -> Q -> Vehicle.obj -> Vehicle.obj) : Prop :=
  forall lead step veh,
    Vehicle.path (Vehicle_update lead step veh) = Vehicle.path veh.

(** What no loop of a tick changes: the number of segments and their
    lengths, the keys of the two tables, the step and the generators. *)
Definition same_network {G} (sim sim' : Simulation.obj G) : Prop :=
  Segment.get_length <$> Simulation.segments sim'
    = Segment.get_length <$> Simulation.segments sim
  /\ dom (Simulation.vehicles sim') = dom (Simulation.vehicles sim)
  /\ dom (Simulation.traffic_signals sim') = dom (Simulation.traffic_signals sim)
  /\ Simulation.dt sim' = Simulation.dt sim
  /\ Simulation.vehicle_generator sim' = Simulation.vehicle_generator sim.


(** A [Segment.add_vehicle] that puts the identifier at the back of the
    queue and leaves the length of the segment alone. *)
Definition queues_at_the_back
    (Segment_add_vehicle : nat -> Vehicle.obj -> Segment.obj -> Segment.obj) : Prop :=
  forall veh_id veh seg,
    Segment.vehicles (Segment_add_vehicle veh_id veh seg)
      = Segment.vehicles seg ++ [veh_id]
    /\ Segment.get_length (Segment_add_vehicle veh_id veh seg) = Segment.get_length seg.

(** Every entry of a path names a segment. *)
Definition path_in_range {G} (sim : Simulation.obj G) (veh : Vehicle.obj) : Prop :=
  Forall (fun p => is_Some (py_index (length (Simulation.segments sim)) p))
         (Vehicle.path veh).


(** ** Vocabulary for the rounded signal *)

(** The sums and differences that [ar] computes are within [eps] of the
    exact ones wherever these lie between [- bound] and [bound].  For
    binary64 numbers rounded to nearest this holds with [eps] the
    fraction 2^-53 of [bound]. *)
Definition rounds_within (ar : arithmetic) (eps bound : Q) : Prop :=
  forall a b : Q,
    ((- bound <= a + b)%Q -> (a + b <= bound)%Q ->
     (a + b - eps <= f_add ar a b)%Q /\ (f_add ar a b <= a + b + eps)%Q)
    /\ ((- bound <= a - b)%Q -> (a - b <= bound)%Q ->
        (a - b - eps <= f_sub ar a b)%Q /\ (f_sub ar a b <= a - b + eps)%Q).

(** The difference of a larger and a smaller number is not negative. *)
Definition sign_keeping (ar : arithmetic) : Prop :=
  forall a b : Q, (b < a)%Q -> (0 <= f_sub ar a b)%Q.

(** The clock and phase that [Rounded.update] writes into a signal. *)
Definition rounded_ticked (ar : arithmetic) (step : Q) (signal : TrafficSignal.obj)
    : TrafficSignal.obj :=
  let ct := Rounded.advance_clock ar step signal in
  TrafficSignal.set_clock ct (Rounded.phase_of ar ct signal) signal.

(** Successive rounded updates of one signal; the result lists the
    signal after every update. *)
Fixpoint rounded_trace (ar : arithmetic) (ticks : list tick)
    (signal : TrafficSignal.obj) : result (list TrafficSignal.obj) :=
  match ticks with
  | [] => Ok []
  | (segs, vehs, step) :: rest =>
      sg' <- Rounded.update ar segs vehs step signal ;;
      trace <- rounded_trace ar rest sg' ;;
      Ok (sg' :: trace)
  end.

(** The signal after all the rounded updates of [ticks]. *)
Fixpoint rounded_updates (ar : arithmetic) (ticks : list tick)
    (signal : TrafficSignal.obj) : result TrafficSignal.obj :=
  match ticks with
  | [] => Ok signal
  | (segs, vehs, step) :: rest =>
      sg' <- Rounded.update ar segs vehs step signal ;;
      rounded_updates ar rest sg'
  end.

(** Every identifier of [queue] is a key of the table, and the braking
    distance of its vehicle is computed without an exception. *)
Definition estimates_known (ar : arithmetic) (vehicles : gmap nat Vehicle.obj)
    (queue : list nat) : Prop :=
  Forall (fun veh_id =>
            exists veh, vehicles !! veh_id = Some veh
                        /\ exists bd, Rounded.braking_distance ar veh = Ok bd)
         queue.

(** What a rounded update needs from the simulation in order not to
    raise. *)
Definition rounded_ready (ar : arithmetic) (segments : list Segment.obj)
    (vehicles : gmap nat Vehicle.obj) (signal : TrafficSignal.obj) : Prop :=
  (exists segment,
      py_getitem segments (TrafficSignal.segment_index signal) = Ok segment
      /\ estimates_known ar vehicles (Segment.vehicles segment))
  /\ (TrafficSignal._position_resolved signal = true ->
      is_Some (TrafficSignal.stop_position signal)).

Definition rounded_tick_ready (ar : arithmetic) (i : Z) (tk : tick) : Prop :=
  exists segment,
    py_getitem (fst (fst tk)) i = Ok segment
    /\ estimates_known ar (snd (fst tk)) (Segment.vehicles segment).

(** Behind the line, with a computed braking distance above the computed
    distance to the line. *)
Definition rounded_cannot_brake (ar : arithmetic) (sp : Q) (veh : Vehicle.obj) : Prop :=
  behind_line sp veh
  /\ exists bd,
      Rounded.braking_distance ar veh = Ok bd
      /\ (f_sub ar sp (Vehicle.x veh) < bd)%Q.

(** * Example states *)

(** A vehicle past the end of the only segment of its path. *)
Definition leaving_vehicle : Vehicle.obj :=
  Vehicle.mk [0%Z] 0 12 5 0 4 4 (1666 # 100) (144 # 100) (465 # 100).

(** One segment of length 10 with [leaving_vehicle] queued under
    identifier 7, as the third loop of a tick may find it. *)
Definition one_segment_exit : Simulation.obj unit :=
  Simulation.mk [Segment.mk [7%nat] 10] {[7%nat := leaving_vehicle]} [] ∅ 0 0 (1 # 60).

(** Two empty segments of length 100, without and with a default signal
    on the first. *)
Definition two_segments : Simulation.obj unit :=
  Simulation.mk [Segment.mk [] 100; Segment.mk [] 100] ∅ [] ∅ 0 0 (1 # 60).

Definition guarded_segments : Simulation.obj unit :=
  Simulation.mk [Segment.mk [] 100; Segment.mk [] 100] ∅ []
                {[0%Z := TrafficSignal.__init__ None]} 0 0 (1 # 60).

Definition longer_green : TrafficSignal.config :=
  TrafficSignal.mk_config None (Some 25%Q) None None None.

(** An empty segment of length 50. *)
Definition short_road : list Segment.obj := [Segment.mk [] 50].

(** A vehicle 10 short of the end of a segment of length 100, at speed
    15, and the same vehicle unable to brake. *)
Definition fast_vehicle : Vehicle.obj :=
  Vehicle.mk [0%Z] 0 90 15 0 4 4 (1666 # 100) (144 # 100) (465 # 100).

Definition brakeless_vehicle : Vehicle.obj :=
  Vehicle.mk [0%Z] 0 90 15 0 4 4 (1666 # 100) (144 # 100) 0.

Definition approach_road : list Segment.obj := [Segment.mk [1%nat] 100].

Definition approach_table : gmap nat Vehicle.obj := {[1%nat := fast_vehicle]}.

Definition brakeless_table : gmap nat Vehicle.obj := {[1%nat := brakeless_vehicle]}.

(** A default signal on [approach_road] one update of 11 into its cycle:
    YELLOW, with the hold latched. *)
Definition latched_signal : TrafficSignal.obj :=
  TrafficSignal.mk 0 10 3 10 (Some 100%Q) 11 YELLOW (Some (phantom_at 100)) true true.

(** A default signal on [short_road] after one update with a step of
    50. *)
Definition overrun_signal : TrafficSignal.obj :=
  TrafficSignal.mk 0 10 3 10 (Some 50%Q) 27 RED (Some (phantom_at 50)) true false.

(** Stand-ins for the two collaborators in the examples: a vehicle that
    keeps its speed, and no generation. *)
Definition coasting_update (lead : option Vehicle.obj) (step : Q)
    (veh : Vehicle.obj) : Vehicle.obj :=
  Vehicle.set_x (Vehicle.x veh + Vehicle.v veh * step) veh.

Definition no_generation (gen : unit) (sim : Simulation.obj unit)
    : Simulation.obj unit := sim.

(** [one_segment_exit] after the first two loops of a tick with
    [coasting_update]. *)
Definition one_segment_exit_moved : Simulation.obj unit :=
  Simulation.mk [Segment.mk [7%nat] 10]
                {[7%nat := coasting_update None (1 # 60) leaving_vehicle]}
                [] ∅ 0 0 (1 # 60).

(** A vehicle about to reach the end of the first of two segments of its
    path, before and after the first two loops of a tick. *)
Definition crossing_vehicle : Vehicle.obj :=
  Vehicle.mk [0%Z; 1%Z] 0 (999 # 10) 15 0 4 4 (1666 # 100) (144 # 100) (465 # 100).

Definition two_segment_start : Simulation.obj unit :=
  Simulation.mk [Segment.mk [1%nat] 100; Segment.mk [] 100]
                {[1%nat := crossing_vehicle]} [] ∅ 0 0 (1 # 60).

Definition two_segment_moved : Simulation.obj unit :=
  Simulation.mk [Segment.mk [1%nat] 100; Segment.mk [] 100]
                {[1%nat := coasting_update None (1 # 60) crossing_vehicle]}
                [] ∅ 0 0 (1 # 60).

(** Two vehicles on one segment guarded by a default signal. *)
Definition slow_vehicle : Vehicle.obj :=
  Vehicle.mk [0%Z] 0 50 2 0 4 4 (1666 # 100) (144 # 100) (465 # 100).

Definition convoy : Simulation.obj unit :=
  Simulation.mk [Segment.mk [1%nat; 2%nat] 100]
                (<[2%nat := slow_vehicle]> {[1%nat := fast_vehicle]})
                [] {[0%Z := TrafficSignal.__init__ None]} 0 0 (1 # 60).

(** Three segments, the middle one of length 0, and a vehicle at the end
    of the first with all three on its path. *)
Definition through_vehicle : Vehicle.obj :=
  Vehicle.mk [0%Z; 1%Z; 2%Z] 0 100 15 0 4 4 (1666 # 100) (144 # 100) (465 # 100).

Definition degenerate_middle : Simulation.obj unit :=
  Simulation.mk [Segment.mk [1%nat] 100; Segment.mk [] 0; Segment.mk [] 100]
                {[1%nat := through_vehicle]} [] ∅ 0 0 (1 # 60).

(** The segment of [convoy] with its queue in the other order, followed
    by a second segment. *)
Definition convoy_reordered : list Segment.obj :=
  [Segment.mk [2%nat; 1%nat] 100; Segment.mk [] 70].

(** [one_segment_exit] once its vehicle has left: the queue is empty and
    the entry is still in the table, with [x] at 0. *)
Definition one_segment_left : Simulation.obj unit :=
  Simulation.mk [Segment.mk [] 10] {[7%nat := Vehicle.set_x 0 leaving_vehicle]}
                [] ∅ (1 # 60) 1 (1 # 60).

(** Stand-in for the arithmetic of the machine in the examples: every
    result is rounded to the nearest multiple of 2^-40, and a square of
    2^1024 or more overflows. *)
Definition grid : Q := 1 # 1099511627776.

Definition to_grid (a : Q) : Q :=
  (inject_Z (Qfloor (a * 1099511627776 + (1 # 2))) * grid)%Q.

Definition grid_arithmetic : arithmetic :=
  mk_arithmetic (fun a b => to_grid (a + b)) (fun a b => to_grid (a - b))
                (fun a b => to_grid (a * b)) (fun a b => to_grid (a / b))
                (fun a => if Qle_bool (inject_Z (2 ^ 1024)) (a * a)
                          then Raise OverflowError
                          else Ok (to_grid (a * a))).

(** Two vehicles 10 short of the end of a segment of length 100: one at
    the stopped threshold, [v = 0.05] as the machine reads it, one above
    it. *)
Definition creeping_vehicle : Vehicle.obj :=
  Vehicle.mk [0%Z] 0 90 (3602879701896397 # 72057594037927936) 0 4 4
             (1666 # 100) (144 # 100) (465 # 100).

Definition rolling_vehicle : Vehicle.obj :=
  Vehicle.mk [0%Z] 0 90 (6 # 100) 0 4 4 (1666 # 100) (144 # 100) (465 # 100).

Definition creeping_table : gmap nat Vehicle.obj := {[1%nat := creeping_vehicle]}.

Definition rolling_table : gmap nat Vehicle.obj := {[1%nat := rolling_vehicle]}.

(** A vehicle whose speed has a square beyond the range of the format. *)
Definition runaway_vehicle : Vehicle.obj :=
  Vehicle.mk [0%Z] 0 90 (inject_Z (2 ^ 600)) 0 4 4 (1666 # 100) (144 # 100) (465 # 100).

Definition runaway_table : gmap nat Vehicle.obj := {[1%nat := runaway_vehicle]}.

(** Stand-in for [Segment.add_vehicle] in the examples. *)
Definition append_to_queue (veh_id : nat) (veh : Vehicle.obj) (seg : Segment.obj)
    : Segment.obj := Segment.append veh_id seg.


(** * Properties *)

(** ** Signal creation *)

Section SignalCreation.
Context {G : Type}.
Implicit Types (sim : Simulation.obj G) (i : Z)
  (cfg : option TrafficSignal.config).

Lemma create_guard_false sim i :
  in_range sim i ->
  ((i <? 0) || (i >=? Z.of_nat (length (Simulation.segments sim))))%Z = false.
Proof.
  intros [Hlo Hhi]. apply orb_false_iff. split.
  - apply Z.ltb_ge. exact Hlo.
  - rewrite Z.geb_leb. apply Z.leb_gt. exact Hhi.
Qed.

Lemma create_guard_true sim i :
  ~ in_range sim i ->
  ((i <? 0) || (i >=? Z.of_nat (length (Simulation.segments sim))))%Z = true.
Proof.
  intros Hout. destruct (_ || _)%Z eqn:E; [reflexivity|].
  exfalso. apply Hout. apply orb_false_iff in E as [E1 E2].
  apply Z.ltb_ge in E1. rewrite Z.geb_leb in E2. apply Z.leb_gt in E2.
  split; assumption.
Qed.

Lemma create_in_range sim i cfg :
  in_range sim i ->
  Simulation.create_traffic_signal i cfg sim =
    (Simulation.set_traffic_signals
       (<[i := created_signal i cfg]> (Simulation.traffic_signals sim)) sim,
     Ok (created_signal i cfg)).
Proof.
  intros Hin. unfold Simulation.create_traffic_signal.
  rewrite (create_guard_false _ _ Hin). reflexivity.
Qed.
End SignalCreation.

(** C8. A segment index below 0 or at least the number of segments makes
    [create_traffic_signal] raise [ValueError] and leaves the simulation,
    signal table included, as it was; an index in range makes it return a
    signal. *)
Theorem create_traffic_signal_bounds :
  forall (G : Type) (sim : Simulation.obj G) (i : Z)
         (cfg : option TrafficSignal.config),
    ((i < 0 \/ i >= Z.of_nat (length (Simulation.segments sim)))%Z ->
       Simulation.create_traffic_signal i cfg sim = (sim, Raise ValueError))
    /\ ((0 <= i < Z.of_nat (length (Simulation.segments sim)))%Z ->
          exists signal,
            snd (Simulation.create_traffic_signal i cfg sim) = Ok signal).
Proof.
  intros G sim i cfg. split.
  - intros Hout. unfold Simulation.create_traffic_signal.
    rewrite create_guard_true; [reflexivity|].
    unfold in_range. lia.
  - intros Hin. exists (created_signal i cfg).
    rewrite (create_in_range sim i cfg Hin). reflexivity.
Qed.

(** C10. On an index in range that already carries a signal the call does
    not raise: the table after the call is the old table with the new
    signal stored under that index, the new signal is the value returned,
    every other index keeps its signal, no index is added, and nothing
    else in the simulation changes. *)
Theorem create_traffic_signal_replaces :
  forall (G : Type) (sim : Simulation.obj G) (i : Z)
         (cfg : option TrafficSignal.config) (old : TrafficSignal.obj),
    (0 <= i < Z.of_nat (length (Simulation.segments sim)))%Z ->
    Simulation.traffic_signals sim !! i = Some old ->
    exists sim' signal,
      Simulation.create_traffic_signal i cfg sim = (sim', Ok signal)
      /\ signal = created_signal i cfg
      /\ Simulation.traffic_signals sim' = <[i := signal]> (Simulation.traffic_signals sim)
      /\ Simulation.traffic_signals sim' !! i = Some signal
      /\ (forall j, j <> i ->
            Simulation.traffic_signals sim' !! j = Simulation.traffic_signals sim !! j)
      /\ dom (Simulation.traffic_signals sim') = dom (Simulation.traffic_signals sim)
      /\ size (Simulation.traffic_signals sim') = size (Simulation.traffic_signals sim)
      /\ sim' = Simulation.set_traffic_signals (Simulation.traffic_signals sim') sim.
Proof.
  intros G sim i cfg old Hin Hold.
  eexists _, _. split; [apply create_in_range; exact Hin|].
  cbn [Simulation.traffic_signals Simulation.set_traffic_signals].
  split; [reflexivity|]. split; [reflexivity|].
  split; [apply lookup_insert_eq|].
  split; [intros j Hj; apply lookup_insert_ne; congruence|].
  assert (Hdom : dom (<[i := created_signal i cfg]> (Simulation.traffic_signals sim))
                 = dom (Simulation.traffic_signals sim)).
  { apply dom_insert_lookup_L. rewrite Hold. eexists. reflexivity. }
  split; [exact Hdom|].
  split; [|reflexivity].
  rewrite <- !size_dom. rewrite Hdom. reflexivity.
Qed.

(** ** The signal: helper lemmas *)

Lemma bind_Ok {A B} (m : result A) (k : A -> result B) (b : B) :
  bind m k = Ok b <-> exists val, m = Ok val /\ k val = Ok b.
Proof.
  destruct m as [val|e]; simpl; split.
  - intros Hk. exists val. split; [reflexivity|exact Hk].
  - intros (val' & Hval & Hk). injection Hval as ->. exact Hk.
  - discriminate.
  - intros (val' & Hval & _). discriminate.
Qed.

Lemma braking_distance_total (veh : Vehicle.obj) :
  TrafficSignal.braking_distance veh = Ok (braking_estimate veh).
Proof.
  unfold TrafficSignal.braking_distance, braking_estimate.
  destruct (Qlt_le_dec 0 (Vehicle.b_max veh)) as [Hpos|Hnon]; [|reflexivity].
  unfold py_truediv.
  destruct (Qeq_bool (2 * Vehicle.b_max veh) 0) eqn:E; [|reflexivity].
  apply Qeq_bool_eq in E. lra.
Qed.

Lemma braking_estimate_nonpositive (veh : Vehicle.obj) :
  (Vehicle.b_max veh <= 0)%Q -> braking_estimate veh = 0%Q.
Proof.
  intros Hb. unfold braking_estimate.
  destruct (Qlt_le_dec 0 (Vehicle.b_max veh)) as [Hpos|_]; [lra|reflexivity].
Qed.

Section SignalLoops.
Variable vehicles : gmap nat Vehicle.obj.
Variable sp : Q.

Lemma on_queue_cons (P : Vehicle.obj -> Prop) veh_id veh rest :
  vehicles !! veh_id = Some veh ->
  (exists w, on_queue vehicles (veh_id :: rest) w /\ P w) <->
  P veh \/ exists w, on_queue vehicles rest w /\ P w.
Proof.
  intros Hveh. split.
  - intros (w & (k & Hk & Hw) & HP).
    apply elem_of_cons in Hk as [->|Hk].
    + left. congruence.
    + right. exists w. split; [exists k; auto|exact HP].
  - intros [HP|(w & (k & Hk & Hw) & HP)].
    + exists veh. split; [|exact HP]. exists veh_id. split; [left|exact Hveh].
    + exists w. split; [|exact HP]. exists k. split; [right; exact Hk|exact Hw].
Qed.

Lemma on_queue_nil (P : Vehicle.obj -> Prop) :
  ~ exists w, on_queue vehicles [] w /\ P w.
Proof. intros (w & (k & Hk & _) & _). inversion Hk. Qed.

(** The trigger check answers [True] exactly when some vehicle of the
    queue is behind the line with a braking estimate beyond the
    remaining distance. *)
Lemma any_must_stop_loop_spec (queue : list nat) :
  queue_known vehicles queue ->
  exists must,
    TrafficSignal.any_must_stop_loop vehicles (Some sp) queue = Ok must
    /\ (must = true <-> exists veh, on_queue vehicles queue veh /\ cannot_brake sp veh).
Proof.
  induction queue as [|veh_id rest IH]; intros Hknown.
  - exists false. split; [reflexivity|]. split; [discriminate|].
    intros H. exfalso. exact (on_queue_nil _ H).
  - apply Forall_cons_1 in Hknown as [[veh Hveh] Hrest].
    destruct (IH Hrest) as (must & Hloop & Hmust).
    cbn [TrafficSignal.any_must_stop_loop].
    unfold dict_getitem. rewrite Hveh. cbn [bind py_number].
    pose proof (on_queue_cons (cannot_brake sp) _ _ rest Hveh) as Hcons.
    destruct (Qlt_le_dec (Vehicle.x veh) sp) as [Hbehind|Hpast].
    + rewrite braking_distance_total. cbn [bind].
      destruct (Qlt_le_dec (sp - Vehicle.x veh) (braking_estimate veh)) as [Hfar|Hnear].
      * exists true. split; [reflexivity|]. rewrite Hcons. split; [|reflexivity].
        intros _. left. split; assumption.
      * exists must. split; [exact Hloop|]. rewrite Hcons, Hmust.
        split; [intros H; right; exact H|].
        intros [[_ Hc]|H]; [lra|exact H].
    + exists must. split; [exact Hloop|]. rewrite Hcons, Hmust.
      split; [intros H; right; exact H|].
      intros [[Hc _]|H]; [unfold behind_line in Hc; lra|exact H].
Qed.

(** The release check answers [False] exactly when some vehicle of the
    queue is behind the line and faster than the threshold. *)
Lemma all_stopped_loop_spec (queue : list nat) :
  queue_known vehicles queue ->
  exists stopped,
    TrafficSignal.all_stopped_loop vehicles (Some sp) queue = Ok stopped
    /\ (stopped = false <-> exists veh, on_queue vehicles queue veh /\ still_moving sp veh).
Proof.
  induction queue as [|veh_id rest IH]; intros Hknown.
  - exists true. split; [reflexivity|]. split; [discriminate|].
    intros H. exfalso. exact (on_queue_nil _ H).
  - apply Forall_cons_1 in Hknown as [[veh Hveh] Hrest].
    destruct (IH Hrest) as (stopped & Hloop & Hstopped).
    cbn [TrafficSignal.all_stopped_loop].
    unfold dict_getitem. rewrite Hveh. cbn [bind py_number].
    pose proof (on_queue_cons (still_moving sp) _ _ rest Hveh) as Hcons.
    destruct (Qlt_le_dec (Vehicle.x veh) sp) as [Hbehind|Hpast].
    + destruct (Qlt_le_dec TrafficSignal._STOPPED_THRESHOLD (Vehicle.v veh)) as [Hfast|Hslow].
      * exists false. split; [reflexivity|]. rewrite Hcons. split; [|reflexivity].
        intros _. left. split; assumption.
      * exists stopped. split; [exact Hloop|]. rewrite Hcons, Hstopped.
        split; [intros H; right; exact H|].
        intros [[_ Hc]|H]; [lra|exact H].
    + exists stopped. split; [exact Hloop|]. rewrite Hcons, Hstopped.
      split; [intros H; right; exact H|].
      intros [[Hc _]|H]; [unfold behind_line in Hc; lra|exact H].
Qed.

(** Neither loop can raise [ZeroDivisionError], whatever the table. *)
Lemma any_must_stop_loop_no_division (stop : option Q) (queue : list nat) :
  TrafficSignal.any_must_stop_loop vehicles stop queue <> Raise ZeroDivisionError.
Proof.
  induction queue as [|veh_id rest IH]; [discriminate|].
  cbn [TrafficSignal.any_must_stop_loop]. unfold dict_getitem.
  destruct (vehicles !! veh_id) as [veh|]; [|discriminate].
  destruct stop as [q|]; [|discriminate]. cbn [bind py_number].
  destruct (Qlt_le_dec (Vehicle.x veh) q); [|exact IH].
  rewrite braking_distance_total. cbn [bind].
  destruct (Qlt_le_dec _ _); [discriminate|exact IH].
Qed.

Lemma all_stopped_loop_no_division (stop : option Q) (queue : list nat) :
  TrafficSignal.all_stopped_loop vehicles stop queue <> Raise ZeroDivisionError.
Proof.
  induction queue as [|veh_id rest IH]; [discriminate|].
  cbn [TrafficSignal.all_stopped_loop]. unfold dict_getitem.
  destruct (vehicles !! veh_id) as [veh|]; [|discriminate].
  destruct stop as [q|]; [|discriminate]. cbn [bind py_number].
  destruct (Qlt_le_dec (Vehicle.x veh) q); [|exact IH].
  destruct (Qlt_le_dec _ _); [discriminate|exact IH].
Qed.
End SignalLoops.

Section SignalUpdate.
Variable segments : list Segment.obj.
Variable vehicles : gmap nat Vehicle.obj.
Implicit Types (signal : TrafficSignal.obj) (step : Q).

Lemma update_unfold step signal :
  TrafficSignal.update segments vehicles step signal =
  (sg1 <- TrafficSignal.resolve_position segments signal ;;
   TrafficSignal._update_phantom segments vehicles (ticked step sg1)).
Proof. reflexivity. Qed.

(** What resolution leaves behind when it does not raise. *)
Lemma resolve_position_Ok signal sg1 :
  TrafficSignal.resolve_position segments signal = Ok sg1 ->
  TrafficSignal._position_resolved sg1 = true
  /\ TrafficSignal.segment_index sg1 = TrafficSignal.segment_index signal
  /\ TrafficSignal.green_duration sg1 = TrafficSignal.green_duration signal
  /\ TrafficSignal.yellow_duration sg1 = TrafficSignal.yellow_duration signal
  /\ TrafficSignal.red_duration sg1 = TrafficSignal.red_duration signal
  /\ TrafficSignal._cycle_time sg1 = TrafficSignal._cycle_time signal
  /\ TrafficSignal._yellow_hold sg1 = TrafficSignal._yellow_hold signal
  /\ (TrafficSignal._position_resolved signal = true ->
      TrafficSignal.stop_position sg1 = TrafficSignal.stop_position signal)
  /\ (TrafficSignal._position_resolved signal = false ->
      exists segment,
        py_getitem segments (TrafficSignal.segment_index signal) = Ok segment
        /\ TrafficSignal.stop_position sg1 =
           Some (default (Segment.get_length segment)
                         (TrafficSignal.stop_position signal))).
Proof.
  unfold TrafficSignal.resolve_position.
  destruct (TrafficSignal._position_resolved signal) eqn:Hres.
  - intros [= <-]. repeat split; try assumption; try reflexivity. discriminate.
  - intros H. apply bind_Ok in H as (segment & Hseg & [= <-]).
    cbn. repeat split; try discriminate.
    intros _. exists segment. split; [exact Hseg|].
    destruct (TrafficSignal.stop_position signal); reflexivity.
Qed.

Lemma resolve_position_ready signal :
  signal_ready segments vehicles signal ->
  exists sg1 sp,
    TrafficSignal.resolve_position segments signal = Ok sg1
    /\ TrafficSignal.stop_position sg1 = Some sp.
Proof.
  intros [(segment & Hseg & _) Hnum].
  unfold TrafficSignal.resolve_position.
  destruct (TrafficSignal._position_resolved signal) eqn:Hres.
  - destruct (Hnum eq_refl) as [sp Hsp]. exists signal, sp. split; [reflexivity|exact Hsp].
  - rewrite Hseg. cbn [bind].
    exists (TrafficSignal.set_stop_position
              (match TrafficSignal.stop_position signal with
               | None => Some (Segment.get_length segment)
               | Some p => Some p
               end) signal).
    exists (default (Segment.get_length segment) (TrafficSignal.stop_position signal)).
    split; [reflexivity|]. cbn.
    destruct (TrafficSignal.stop_position signal); reflexivity.
Qed.

Lemma make_phantom_at signal sp :
  TrafficSignal.stop_position signal = Some sp ->
  TrafficSignal._make_phantom signal = Ok (phantom_at sp).
Proof. intros H. unfold TrafficSignal._make_phantom. rewrite H. reflexivity. Qed.

(** GREEN and RED: what [_update_phantom] returns whenever it returns. *)
Lemma update_phantom_green signal :
  TrafficSignal._state signal = GREEN ->
  TrafficSignal._update_phantom segments vehicles signal =
    Ok (TrafficSignal.set_phantom None false signal).
Proof. intros H. unfold TrafficSignal._update_phantom. rewrite H. reflexivity. Qed.

Lemma update_phantom_red signal sg' :
  TrafficSignal._state signal = RED ->
  TrafficSignal._update_phantom segments vehicles signal = Ok sg' ->
  exists sp,
    TrafficSignal.stop_position signal = Some sp
    /\ sg' = TrafficSignal.set_phantom (Some (phantom_at sp)) false signal.
Proof.
  intros H. unfold TrafficSignal._update_phantom, TrafficSignal._make_phantom.
  rewrite H.
  destruct (TrafficSignal.stop_position signal) as [sp|]; [|discriminate].
  cbn. intros [= <-]. exists sp. split; reflexivity.
Qed.

(** YELLOW, on a signal whose segment and position are in order. *)
Lemma update_phantom_yellow signal segment sp :
  TrafficSignal._state signal = YELLOW ->
  TrafficSignal.stop_position signal = Some sp ->
  py_getitem segments (TrafficSignal.segment_index signal) = Ok segment ->
  queue_known vehicles (Segment.vehicles segment) ->
  let queue := Segment.vehicles segment in
  let trigger := exists veh, on_queue vehicles queue veh /\ cannot_brake sp veh in
  let moving := exists veh, on_queue vehicles queue veh /\ still_moving sp veh in
  (TrafficSignal._yellow_hold signal = false ->
     (trigger /\
      TrafficSignal._update_phantom segments vehicles signal =
        Ok (TrafficSignal.set_phantom (Some (phantom_at sp)) true signal))
     \/ (~ trigger /\
      TrafficSignal._update_phantom segments vehicles signal =
        Ok (TrafficSignal.set_phantom None false signal)))
  /\ (TrafficSignal._yellow_hold signal = true ->
     (moving /\
      TrafficSignal._update_phantom segments vehicles signal =
        Ok (TrafficSignal.set_phantom (Some (phantom_at sp)) true signal))
     \/ (~ moving /\
      TrafficSignal._update_phantom segments vehicles signal =
        Ok (TrafficSignal.set_phantom None false signal))).
Proof.
  intros Hst Hsp Hseg Hknown queue trigger moving.
  unfold TrafficSignal._update_phantom. rewrite Hst.
  unfold TrafficSignal._any_vehicle_must_stop,
    TrafficSignal._all_blocked_vehicles_stopped.
  rewrite Hseg, Hsp, (make_phantom_at _ _ Hsp). cbn [bind].
  split; intros Hhold; rewrite Hhold.
  - destruct (any_must_stop_loop_spec vehicles sp _ Hknown) as (must & Hloop & Hmust).
    rewrite Hloop. cbn [bind]. destruct must.
    + left. split; [apply Hmust; reflexivity|reflexivity].
    + right. split; [|reflexivity]. intros Ht. apply Hmust in Ht. discriminate.
  - destruct (all_stopped_loop_spec vehicles sp _ Hknown) as (stopped & Hloop & Hstopped).
    rewrite Hloop. cbn [bind]. destruct stopped.
    + right. split; [|reflexivity]. intros Hm. apply Hstopped in Hm. discriminate.
    + left. split; [apply Hstopped; reflexivity|reflexivity].
Qed.

Lemma update_phantom_no_division signal :
  TrafficSignal._update_phantom segments vehicles signal <> Raise ZeroDivisionError.
Proof.
  unfold TrafficSignal._update_phantom, TrafficSignal._make_phantom,
    TrafficSignal._any_vehicle_must_stop,
    TrafficSignal._all_blocked_vehicles_stopped.
  destruct (TrafficSignal._state signal); [discriminate| |].
  - destruct (py_getitem segments (TrafficSignal.segment_index signal)) as [segment|e] eqn:Hseg.
    + cbn [bind]. destruct (TrafficSignal._yellow_hold signal).
      * pose proof (all_stopped_loop_no_division vehicles
                      (TrafficSignal.stop_position signal) (Segment.vehicles segment)) as Hl.
        destruct (TrafficSignal.all_stopped_loop _ _ _) as [[|]|e]; cbn [bind].
        -- discriminate.
        -- destruct (TrafficSignal.stop_position signal); discriminate.
        -- congruence.
      * pose proof (any_must_stop_loop_no_division vehicles
                      (TrafficSignal.stop_position signal) (Segment.vehicles segment)) as Hl.
        destruct (TrafficSignal.any_must_stop_loop _ _ _) as [[|]|e]; cbn [bind].
        -- destruct (TrafficSignal.stop_position signal); discriminate.
        -- discriminate.
        -- congruence.
    + unfold py_getitem in Hseg.
      assert (e = IndexError) as ->.
      { destruct (py_index _ _); [destruct (_ !! _)|]; congruence. }
      destruct (TrafficSignal._yellow_hold signal); discriminate.
  - destruct (TrafficSignal.stop_position signal); discriminate.
Qed.
End SignalUpdate.

Section SignalUpdateResults.
Variable segments : list Segment.obj.
Variable vehicles : gmap nat Vehicle.obj.
Implicit Types (signal : TrafficSignal.obj) (step : Q).

(** Every update that returns has resolved the position, written the
    clock and the phase of [ticked], and then only the phantom and the
    hold flag. *)
Lemma update_Ok_shape step signal sg' :
  TrafficSignal.update segments vehicles step signal = Ok sg' ->
  exists sg1 ph hold,
    TrafficSignal.resolve_position segments signal = Ok sg1
    /\ TrafficSignal._update_phantom segments vehicles (ticked step sg1) = Ok sg'
    /\ sg' = TrafficSignal.set_phantom ph hold (ticked step sg1).
Proof.
  rewrite update_unfold. intros H.
  apply bind_Ok in H as (sg1 & Hres & Hph).
  exists sg1. pose proof Hph as Hph'.
  unfold TrafficSignal._update_phantom in Hph.
  destruct (TrafficSignal._state (ticked step sg1)).
  - injection Hph as <-. eexists _, _. repeat split; [exact Hres|exact Hph'].
  - destruct (TrafficSignal._yellow_hold (ticked step sg1)).
    + apply bind_Ok in Hph as ([|] & _ & Hph).
      * injection Hph as <-. eexists _, _. repeat split; [exact Hres|exact Hph'].
      * apply bind_Ok in Hph as (ph & _ & [= <-]).
        eexists _, _. repeat split; [exact Hres|exact Hph'].
    + apply bind_Ok in Hph as ([|] & _ & Hph).
      * apply bind_Ok in Hph as (ph & _ & [= <-]).
        eexists _, _. repeat split; [exact Hres|exact Hph'].
      * injection Hph as <-. eexists _, _. repeat split; [exact Hres|exact Hph'].
  - apply bind_Ok in Hph as (ph & _ & [= <-]).
    eexists _, _. repeat split; [exact Hres|exact Hph'].
Qed.

(** An update on a ready signal returns. *)
Lemma update_ready_total step signal :
  signal_ready segments vehicles signal ->
  exists sg', TrafficSignal.update segments vehicles step signal = Ok sg'.
Proof.
  intros Hready.
  destruct (resolve_position_ready _ _ _ Hready) as (sg1 & sp & Hres & Hsp).
  rewrite update_unfold, Hres. cbn [bind].
  destruct Hready as [(segment & Hseg & Hknown) _].
  apply resolve_position_Ok in Hres as (_ & Hidx & _).
  assert (Hsp' : TrafficSignal.stop_position (ticked step sg1) = Some sp) by exact Hsp.
  destruct (TrafficSignal._state (ticked step sg1)) eqn:Hst.
  - rewrite (update_phantom_green _ _ _ Hst). eexists. reflexivity.
  - assert (Hseg' : py_getitem segments (TrafficSignal.segment_index (ticked step sg1))
                    = Ok segment).
    { cbn. rewrite Hidx. exact Hseg. }
    destruct (update_phantom_yellow _ _ _ _ _ Hst Hsp' Hseg' Hknown) as [Hoff Hon].
    destruct (TrafficSignal._yellow_hold (ticked step sg1)).
    + destruct (Hon eq_refl) as [[_ ->]|[_ ->]]; eexists; reflexivity.
    + destruct (Hoff eq_refl) as [[_ ->]|[_ ->]]; eexists; reflexivity.
  - unfold TrafficSignal._update_phantom. rewrite Hst.
    rewrite (make_phantom_at _ _ Hsp'). eexists. reflexivity.
Qed.

(** The fields an update never writes, and the resolved flag. *)
Lemma update_Ok_frame step signal sg' :
  TrafficSignal.update segments vehicles step signal = Ok sg' ->
  TrafficSignal.segment_index sg' = TrafficSignal.segment_index signal
  /\ TrafficSignal.green_duration sg' = TrafficSignal.green_duration signal
  /\ TrafficSignal.yellow_duration sg' = TrafficSignal.yellow_duration signal
  /\ TrafficSignal.red_duration sg' = TrafficSignal.red_duration signal
  /\ TrafficSignal._position_resolved sg' = true.
Proof.
  intros H. apply update_Ok_shape in H as (sg1 & ph & hold & Hres & _ & ->).
  apply resolve_position_Ok in Hres as (Hr & Hi & Hg & Hy & Hrd & _).
  cbn. repeat split; assumption.
Qed.
End SignalUpdateResults.

(** ** Phantom presence by phase *)

(** C3. An update of a ready signal returns, and after any update that
    returns: in RED the phantom exists, sits at the resolved stop position
    and has velocity, length and minimum gap 0; in GREEN there is no
    phantom and the YELLOW hold is cleared. *)
Theorem phantom_presence_after_update :
  forall (segments : list Segment.obj) (vehicles : gmap nat Vehicle.obj)
         (step : Q) (signal : TrafficSignal.obj),
    (signal_ready segments vehicles signal ->
       exists sg', TrafficSignal.update segments vehicles step signal = Ok sg')
    /\ forall sg',
        TrafficSignal.update segments vehicles step signal = Ok sg' ->
        (TrafficSignal._state sg' = RED ->
           exists sp ph,
             TrafficSignal.stop_position sg' = Some sp
             /\ TrafficSignal._position_resolved sg' = true
             /\ TrafficSignal.phantom sg' = Some ph
             /\ Vehicle.x ph = sp
             /\ Vehicle.v ph = 0%Q
             /\ Vehicle.l ph = 0%Q
             /\ Vehicle.s0 ph = 0%Q)
        /\ (TrafficSignal._state sg' = GREEN ->
              TrafficSignal.phantom sg' = None
              /\ TrafficSignal._yellow_hold sg' = false).
Proof.
  intros segments vehicles step signal. split.
  - apply update_ready_total.
  - intros sg' Hupd.
    destruct (update_Ok_frame _ _ _ _ _ Hupd) as (_ & _ & _ & _ & Hresolved).
    apply update_Ok_shape in Hupd as (sg1 & ph & hold & _ & Hph & Heq).
    assert (Hst : TrafficSignal._state sg' = TrafficSignal._state (ticked step sg1))
      by (rewrite Heq; reflexivity).
    split; intros Hphase; rewrite Hst in Hphase.
    + destruct (update_phantom_red _ _ _ _ Hphase Hph) as (sp & Hsp & ->).
      exists sp, (phantom_at sp). repeat split; try reflexivity.
      * exact Hsp.
      * rewrite Heq in Hresolved. exact Hresolved.
    + rewrite (update_phantom_green _ _ _ Hphase) in Hph.
      injection Hph as <-. split; reflexivity.
Qed.

(** ** Resolution of the stop position *)

Lemma update_stop_position_first segments vehicles step signal sg' :
  TrafficSignal._position_resolved signal = false ->
  TrafficSignal.update segments vehicles step signal = Ok sg' ->
  exists segment,
    py_getitem segments (TrafficSignal.segment_index signal) = Ok segment
    /\ TrafficSignal.stop_position sg' =
       Some (default (Segment.get_length segment) (TrafficSignal.stop_position signal)).
Proof.
  intros Hfresh Hupd.
  apply update_Ok_shape in Hupd as (sg1 & ph & hold & Hres & _ & ->).
  apply resolve_position_Ok in Hres as (_ & _ & _ & _ & _ & _ & _ & _ & Hfirst).
  exact (Hfirst Hfresh).
Qed.

Lemma update_stop_position_kept segments vehicles step signal sg' :
  TrafficSignal._position_resolved signal = true ->
  TrafficSignal.update segments vehicles step signal = Ok sg' ->
  TrafficSignal.stop_position sg' = TrafficSignal.stop_position signal.
Proof.
  intros Hdone Hupd.
  apply update_Ok_shape in Hupd as (sg1 & ph & hold & Hres & _ & ->).
  apply resolve_position_Ok in Hres as (_ & _ & _ & _ & _ & _ & _ & Hkept & _).
  exact (Hkept Hdone).
Qed.

Lemma signal_updates_stop_position_kept (ticks : list tick) :
  forall signal sg',
    TrafficSignal._position_resolved signal = true ->
    signal_updates ticks signal = Ok sg' ->
    TrafficSignal.stop_position sg' = TrafficSignal.stop_position signal.
Proof.
  induction ticks as [|[[segs vehs] step] rest IH]; intros signal sg' Hdone Hrun.
  - injection Hrun as <-. reflexivity.
  - cbn [signal_updates] in Hrun.
    apply bind_Ok in Hrun as (sg1 & Hupd & Hrest).
    rewrite (IH _ _ (proj2 (proj2 (proj2 (proj2
               (update_Ok_frame _ _ _ _ _ Hupd))))) Hrest).
    exact (update_stop_position_kept _ _ _ _ _ Hdone Hupd).
Qed.

Lemma signal_updates_total (ticks : list tick) :
  forall signal,
    Forall (tick_ready (TrafficSignal.segment_index signal)) ticks ->
    (TrafficSignal._position_resolved signal = true ->
     is_Some (TrafficSignal.stop_position signal)) ->
    exists sg', signal_updates ticks signal = Ok sg'.
Proof.
  induction ticks as [|[[segs vehs] step] rest IH]; intros signal Hready Hnum.
  - exists signal. reflexivity.
  - apply Forall_cons_1 in Hready as [Hhead Hrest].
    destruct (update_ready_total segs vehs step signal) as [sg1 Hupd].
    { split; [exact Hhead|exact Hnum]. }
    cbn [signal_updates]. rewrite Hupd. cbn [bind].
    destruct (update_Ok_frame _ _ _ _ _ Hupd) as (Hidx & _ & _ & _ & Hres).
    apply IH.
    + rewrite Hidx. exact Hrest.
    + intros _.
      destruct (TrafficSignal._position_resolved signal) eqn:Hwas.
      * rewrite (update_stop_position_kept _ _ _ _ _ Hwas Hupd). apply Hnum. reflexivity.
      * destruct (update_stop_position_first _ _ _ _ _ Hwas Hupd) as (segment & _ & ->).
        eexists. reflexivity.
Qed.

(** C7. A new signal has no resolved position.  Its first update resolves
    the stop position to the configured value or, without one, to the
    length of the guarded segment; an update of a resolved signal leaves
    the position as it is; so after any positive number of updates the
    position is the one the first update resolved.  For the default
    configuration on a segment of length 50 that position is 50, and the
    updates return at every ready tick. *)
Theorem stop_position_resolved_once :
  forall (cfg : option TrafficSignal.config),
    let fresh := TrafficSignal.__init__ cfg in
    TrafficSignal._position_resolved fresh = false
    /\ TrafficSignal.stop_position fresh = cfg ≫= TrafficSignal.cfg_stop_position
    /\ (forall segments vehicles step signal sg',
          TrafficSignal._position_resolved signal = false ->
          TrafficSignal.update segments vehicles step signal = Ok sg' ->
          TrafficSignal._position_resolved sg' = true
          /\ exists segment,
               py_getitem segments (TrafficSignal.segment_index signal) = Ok segment
               /\ TrafficSignal.stop_position sg' =
                  Some (default (Segment.get_length segment)
                                (TrafficSignal.stop_position signal)))
    /\ (forall segments vehicles step signal sg',
          TrafficSignal._position_resolved signal = true ->
          TrafficSignal.update segments vehicles step signal = Ok sg' ->
          TrafficSignal._position_resolved sg' = true
          /\ TrafficSignal.stop_position sg' = TrafficSignal.stop_position signal)
    /\ (forall segments vehicles step (later : list tick) sg',
          signal_updates ((segments, vehicles, step) :: later) fresh = Ok sg' ->
          exists segment,
            py_getitem segments (TrafficSignal.segment_index fresh) = Ok segment
            /\ TrafficSignal.stop_position sg' =
               Some (default (Segment.get_length segment)
                             (TrafficSignal.stop_position fresh)))
    /\ (forall segments vehicles step (later : list tick) segment,
          cfg ≫= TrafficSignal.cfg_stop_position = None ->
          py_getitem segments (TrafficSignal.segment_index fresh) = Ok segment ->
          Segment.get_length segment = 50%Q ->
          queue_known vehicles (Segment.vehicles segment) ->
          Forall (tick_ready (TrafficSignal.segment_index fresh)) later ->
          exists sg',
            signal_updates ((segments, vehicles, step) :: later) fresh = Ok sg'
            /\ TrafficSignal.stop_position sg' = Some 50%Q).
Proof.
  intros cfg fresh.
  assert (Hfresh : TrafficSignal._position_resolved fresh = false) by reflexivity.
  assert (Hcfg : TrafficSignal.stop_position fresh = cfg ≫= TrafficSignal.cfg_stop_position).
  { destruct cfg as [c|]; [|reflexivity]. cbn.
    destruct (TrafficSignal.cfg_stop_position c); reflexivity. }
  assert (Hrun : forall segments vehicles step (later : list tick) sg',
             signal_updates ((segments, vehicles, step) :: later) fresh = Ok sg' ->
             exists segment,
               py_getitem segments (TrafficSignal.segment_index fresh) = Ok segment
               /\ TrafficSignal.stop_position sg' =
                  Some (default (Segment.get_length segment)
                                (TrafficSignal.stop_position fresh))).
  { intros segments vehicles step later sg' H.
    cbn [signal_updates] in H. apply bind_Ok in H as (sg1 & Hupd & Hrest).
    destruct (update_stop_position_first _ _ _ _ _ Hfresh Hupd) as (segment & Hseg & Hsp).
    exists segment. split; [exact Hseg|]. rewrite <- Hsp.
    apply (signal_updates_stop_position_kept later); [|exact Hrest].
    apply (update_Ok_frame _ _ _ _ _ Hupd). }
  split; [exact Hfresh|]. split; [exact Hcfg|].
  split; [|split; [|split; [exact Hrun|]]].
  - intros segments vehicles step signal sg' Hnot Hupd. split.
    + apply (update_Ok_frame _ _ _ _ _ Hupd).
    + exact (update_stop_position_first _ _ _ _ _ Hnot Hupd).
  - intros segments vehicles step signal sg' Hdone Hupd. split.
    + apply (update_Ok_frame _ _ _ _ _ Hupd).
    + exact (update_stop_position_kept _ _ _ _ _ Hdone Hupd).
  - intros segments vehicles step later segment Hnone Hseg Hlen Hknown Hlater.
    destruct (signal_updates_total ((segments, vehicles, step) :: later) fresh)
      as [sg' Hsg'].
    { constructor; [|exact Hlater]. exists segment. split; assumption. }
    { rewrite Hfresh. discriminate. }
    exists sg'. split; [exact Hsg'|].
    destruct (Hrun _ _ _ _ _ Hsg') as (segment' & Hseg' & ->).
    rewrite Hseg in Hseg'. injection Hseg' as <-.
    rewrite Hcfg, Hnone, Hlen. reflexivity.
Qed.

(** ** The braking check never divides by zero *)

(** C9. The braking distance of any vehicle is computed without an
    exception: it is [v^2 / (2 b_max)] when [b_max > 0] and 0 otherwise.  A
    vehicle with [b_max <= 0] never makes the trigger check answer true,
    and no update of any signal raises [ZeroDivisionError]. *)
Theorem braking_distance_guarded :
  (forall veh,
      TrafficSignal.braking_distance veh = Ok (braking_estimate veh)
      /\ ((0 < Vehicle.b_max veh)%Q ->
          braking_estimate veh = (Vehicle.v veh ^ 2 / (2 * Vehicle.b_max veh))%Q)
      /\ ((Vehicle.b_max veh <= 0)%Q -> braking_estimate veh = 0%Q))
  /\ (forall vehicles sp queue,
        queue_known vehicles queue ->
        (forall veh, on_queue vehicles queue veh -> (Vehicle.b_max veh <= 0)%Q) ->
        TrafficSignal.any_must_stop_loop vehicles (Some sp) queue = Ok false)
  /\ (forall vehicles sp queue,
        TrafficSignal.any_must_stop_loop vehicles (Some sp) queue = Ok true ->
        exists veh,
          on_queue vehicles queue veh /\ (0 < Vehicle.b_max veh)%Q
          /\ cannot_brake sp veh)
  /\ (forall segments vehicles step signal,
        TrafficSignal.update segments vehicles step signal <> Raise ZeroDivisionError).
Proof.
  split; [|split; [|split]].
  - intros veh. split; [apply braking_distance_total|]. split.
    + intros Hpos. unfold braking_estimate.
      destruct (Qlt_le_dec 0 (Vehicle.b_max veh)); [reflexivity|lra].
    + apply braking_estimate_nonpositive.
  - intros vehicles sp queue Hknown Hnon.
    destruct (any_must_stop_loop_spec vehicles sp queue Hknown) as ([|] & Hloop & Hmust);
      [|exact Hloop].
    destruct (proj1 Hmust eq_refl) as (veh & Hon & Hbehind & Hfar).
    rewrite (braking_estimate_nonpositive veh (Hnon veh Hon)) in Hfar.
    unfold behind_line in Hbehind. lra.
  - intros vehicles sp queue.
    induction queue as [|veh_id rest IH]; [discriminate|].
    cbn [TrafficSignal.any_must_stop_loop]. unfold dict_getitem.
    destruct (vehicles !! veh_id) as [veh|] eqn:Hveh; [|discriminate].
    cbn [bind py_number].
    assert (Hrest : TrafficSignal.any_must_stop_loop vehicles (Some sp) rest = Ok true ->
                    exists w, on_queue vehicles (veh_id :: rest) w
                              /\ (0 < Vehicle.b_max w)%Q /\ cannot_brake sp w).
    { intros H. destruct (IH H) as (w & (k & Hk & Hw) & Hpos & Hc).
      exists w. split; [exists k; split; [right; exact Hk|exact Hw]|]. split; assumption. }
    destruct (Qlt_le_dec (Vehicle.x veh) sp) as [Hbehind|Hpast]; [|exact Hrest].
    rewrite braking_distance_total. cbn [bind].
    destruct (Qlt_le_dec _ _) as [Hfar|Hnear]; [|exact Hrest].
    intros _. exists veh. split; [exists veh_id; split; [left|exact Hveh]|].
    split; [|split; assumption].
    destruct (Qlt_le_dec 0 (Vehicle.b_max veh)) as [Hpos|Hnon]; [exact Hpos|].
    rewrite (braking_estimate_nonpositive veh Hnon) in Hfar. lra.
  - intros segments vehicles step signal. rewrite update_unfold.
    destruct (TrafficSignal.resolve_position segments signal) as [sg1|e] eqn:Hres.
    + cbn [bind]. apply update_phantom_no_division.
    + cbn [bind]. unfold TrafficSignal.resolve_position in Hres.
      destruct (TrafficSignal._position_resolved signal); [discriminate|].
      unfold py_getitem in Hres.
      destruct (py_index _ _); [destruct (_ !! _)|]; cbn in Hres; congruence.
Qed.

(** ** The rounded signal: helper lemmas *)

Section RoundedSignal.
Variable ar : arithmetic.

Lemma estimates_known_queue_known (vehicles : gmap nat Vehicle.obj) (queue : list nat) :
  estimates_known ar vehicles queue -> queue_known vehicles queue.
Proof.
  intros H. eapply Forall_impl; [|exact H].
  intros veh_id (veh & Hveh & _). exists veh. exact Hveh.
Qed.

(** The trigger check answers [True] exactly when some vehicle of the
    queue is behind the line with a computed braking distance above the
    computed distance to the line. *)
Lemma rounded_any_must_stop_loop_spec (vehicles : gmap nat Vehicle.obj) (sp : Q)
    (queue : list nat) :
  estimates_known ar vehicles queue ->
  exists must,
    Rounded.any_must_stop_loop ar vehicles (Some sp) queue = Ok must
    /\ (must = true <->
        exists veh, on_queue vehicles queue veh /\ rounded_cannot_brake ar sp veh).
Proof.
  induction queue as [|veh_id rest IH]; intros Hknown.
  - exists false. split; [reflexivity|]. split; [discriminate|].
    intros H. exfalso. exact (on_queue_nil vehicles _ H).
  - apply Forall_cons_1 in Hknown as [(veh & Hveh & bd & Hbd) Hrest].
    destruct (IH Hrest) as (must & Hloop & Hmust).
    cbn [Rounded.any_must_stop_loop].
    unfold dict_getitem. rewrite Hveh. cbn [bind py_number].
    pose proof (on_queue_cons vehicles (rounded_cannot_brake ar sp) _ _ rest Hveh)
      as Hcons.
    destruct (Qlt_le_dec (Vehicle.x veh) sp) as [Hbehind|Hpast].
    + rewrite Hbd. cbn [bind].
      destruct (Qlt_le_dec (f_sub ar sp (Vehicle.x veh)) bd) as [Hfar|Hnear].
      * exists true. split; [reflexivity|]. rewrite Hcons. split; [|reflexivity].
        intros _. left. split; [exact Hbehind|]. exists bd. split; assumption.
      * exists must. split; [exact Hloop|]. rewrite Hcons, Hmust.
        split; [intros H; right; exact H|].
        intros [[_ (bd' & Hbd' & Hc)]|H]; [|exact H].
        rewrite Hbd in Hbd'. injection Hbd' as <-. lra.
    + exists must. split; [exact Hloop|]. rewrite Hcons, Hmust.
      split; [intros H; right; exact H|].
      intros [[Hc _]|H]; [unfold behind_line in Hc; lra|exact H].
Qed.

Section RoundedUpdate.
Variable segments : list Segment.obj.
Variable vehicles : gmap nat Vehicle.obj.
Implicit Types (signal : TrafficSignal.obj) (step : Q).

Lemma rounded_update_unfold step signal :
  Rounded.update ar segments vehicles step signal =
  (sg1 <- TrafficSignal.resolve_position segments signal ;;
   Rounded._update_phantom ar segments vehicles (rounded_ticked ar step sg1)).
Proof. reflexivity. Qed.

(** YELLOW with the hold latched: only the release check is made. *)
Lemma rounded_update_phantom_held signal segment sp :
  TrafficSignal._state signal = YELLOW ->
  TrafficSignal._yellow_hold signal = true ->
  TrafficSignal.stop_position signal = Some sp ->
  py_getitem segments (TrafficSignal.segment_index signal) = Ok segment ->
  queue_known vehicles (Segment.vehicles segment) ->
  let moving := exists veh, on_queue vehicles (Segment.vehicles segment) veh
                            /\ still_moving sp veh in
  (moving /\
   Rounded._update_phantom ar segments vehicles signal =
     Ok (TrafficSignal.set_phantom (Some (phantom_at sp)) true signal))
  \/ (~ moving /\
      Rounded._update_phantom ar segments vehicles signal =
        Ok (TrafficSignal.set_phantom None false signal)).
Proof.
  intros Hst Hhold Hsp Hseg Hknown moving.
  unfold Rounded._update_phantom. rewrite Hst, Hhold.
  unfold TrafficSignal._all_blocked_vehicles_stopped.
  rewrite Hseg, Hsp, (make_phantom_at _ _ Hsp). cbn [bind].
  destruct (all_stopped_loop_spec vehicles sp _ Hknown) as (stopped & Hloop & Hstopped).
  rewrite Hloop. cbn [bind]. destruct stopped.
  - right. split; [|reflexivity]. intros Hm. apply Hstopped in Hm. discriminate.
  - left. split; [apply Hstopped; reflexivity|reflexivity].
Qed.

(** YELLOW without a hold: only the trigger check is made. *)
Lemma rounded_update_phantom_free signal segment sp :
  TrafficSignal._state signal = YELLOW ->
  TrafficSignal._yellow_hold signal = false ->
  TrafficSignal.stop_position signal = Some sp ->
  py_getitem segments (TrafficSignal.segment_index signal) = Ok segment ->
  estimates_known ar vehicles (Segment.vehicles segment) ->
  let trigger := exists veh, on_queue vehicles (Segment.vehicles segment) veh
                             /\ rounded_cannot_brake ar sp veh in
  (trigger /\
   Rounded._update_phantom ar segments vehicles signal =
     Ok (TrafficSignal.set_phantom (Some (phantom_at sp)) true signal))
  \/ (~ trigger /\
      Rounded._update_phantom ar segments vehicles signal =
        Ok (TrafficSignal.set_phantom None false signal)).
Proof.
  intros Hst Hhold Hsp Hseg Hknown trigger.
  unfold Rounded._update_phantom. rewrite Hst, Hhold.
  unfold Rounded._any_vehicle_must_stop.
  rewrite Hseg, Hsp, (make_phantom_at _ _ Hsp). cbn [bind].
  destruct (rounded_any_must_stop_loop_spec vehicles sp _ Hknown)
    as (must & Hloop & Hmust).
  rewrite Hloop. cbn [bind]. destruct must.
  - left. split; [apply Hmust; reflexivity|reflexivity].
  - right. split; [|reflexivity]. intros Ht. apply Hmust in Ht. discriminate.
Qed.

(** What a rounded update that returns has done: resolved the position,
    written clock and phase, and set phantom and hold. *)
Lemma rounded_update_Ok_shape step signal sg' :
  Rounded.update ar segments vehicles step signal = Ok sg' ->
  exists sg1 ph hold,
    TrafficSignal.resolve_position segments signal = Ok sg1
    /\ Rounded._update_phantom ar segments vehicles (rounded_ticked ar step sg1) = Ok sg'
    /\ sg' = TrafficSignal.set_phantom ph hold (rounded_ticked ar step sg1).
Proof.
  rewrite rounded_update_unfold. intros H.
  apply bind_Ok in H as (sg1 & Hres & Hph).
  exists sg1. pose proof Hph as Hph'.
  unfold Rounded._update_phantom in Hph.
  destruct (TrafficSignal._state (rounded_ticked ar step sg1)).
  - injection Hph as <-. eexists _, _. repeat split; [exact Hres|exact Hph'].
  - destruct (TrafficSignal._yellow_hold (rounded_ticked ar step sg1)).
    + apply bind_Ok in Hph as ([|] & _ & Hph).
      * injection Hph as <-. eexists _, _. repeat split; [exact Hres|exact Hph'].
      * apply bind_Ok in Hph as (ph & _ & [= <-]).
        eexists _, _. repeat split; [exact Hres|exact Hph'].
    + apply bind_Ok in Hph as ([|] & _ & Hph).
      * apply bind_Ok in Hph as (ph & _ & [= <-]).
        eexists _, _. repeat split; [exact Hres|exact Hph'].
      * injection Hph as <-. eexists _, _. repeat split; [exact Hres|exact Hph'].
  - apply bind_Ok in Hph as (ph & _ & [= <-]).
    eexists _, _. repeat split; [exact Hres|exact Hph'].
Qed.

(** The fields a rounded update never writes, the resolved flag, and the
    clock and phase it writes. *)
Lemma rounded_update_Ok_frame step signal sg' :
  Rounded.update ar segments vehicles step signal = Ok sg' ->
  TrafficSignal.segment_index sg' = TrafficSignal.segment_index signal
  /\ TrafficSignal.green_duration sg' = TrafficSignal.green_duration signal
  /\ TrafficSignal.yellow_duration sg' = TrafficSignal.yellow_duration signal
  /\ TrafficSignal.red_duration sg' = TrafficSignal.red_duration signal
  /\ TrafficSignal._position_resolved sg' = true
  /\ TrafficSignal._cycle_time sg' = Rounded.advance_clock ar step signal
  /\ TrafficSignal._state sg'
     = Rounded.phase_of ar (TrafficSignal._cycle_time sg') signal
  /\ (TrafficSignal._position_resolved signal = true ->
      TrafficSignal.stop_position sg' = TrafficSignal.stop_position signal).
Proof.
  intros H. apply rounded_update_Ok_shape in H as (sg1 & ph & hold & Hres & _ & ->).
  apply resolve_position_Ok in Hres as (Hr & Hi & Hg & Hy & Hrd & Hct & _ & Hkept & _).
  cbn [rounded_ticked TrafficSignal.segment_index TrafficSignal.green_duration
       TrafficSignal.yellow_duration TrafficSignal.red_duration
       TrafficSignal._position_resolved TrafficSignal._cycle_time
       TrafficSignal._state TrafficSignal.stop_position
       TrafficSignal.set_phantom TrafficSignal.set_clock].
  unfold Rounded.advance_clock, Rounded.phase_of, Rounded.cycle_duration.
  rewrite Hg, Hy, Hrd, Hct.
  repeat split; try assumption; try reflexivity.
Qed.

(** A rounded update on a ready signal returns. *)
Lemma rounded_update_ready_total step signal :
  rounded_ready ar segments vehicles signal ->
  exists sg' sg1 sp segment,
    Rounded.update ar segments vehicles step signal = Ok sg'
    /\ TrafficSignal.resolve_position segments signal = Ok sg1
    /\ TrafficSignal.stop_position sg1 = Some sp
    /\ TrafficSignal.stop_position sg' = Some sp
    /\ py_getitem segments (TrafficSignal.segment_index signal) = Ok segment
    /\ estimates_known ar vehicles (Segment.vehicles segment).
Proof.
  intros [(segment & Hseg & Hknown) Hnum].
  assert (Hready : signal_ready segments vehicles signal).
  { split; [|exact Hnum]. exists segment.
    split; [exact Hseg|exact (estimates_known_queue_known _ _ Hknown)]. }
  destruct (resolve_position_ready _ _ _ Hready) as (sg1 & sp & Hres & Hsp).
  pose proof (resolve_position_Ok _ _ _ Hres) as (_ & Hidx & _).
  set (sg2 := rounded_ticked ar step sg1).
  assert (Hsp2 : TrafficSignal.stop_position sg2 = Some sp) by exact Hsp.
  assert (Hseg2 : py_getitem segments (TrafficSignal.segment_index sg2) = Ok segment).
  { cbn. rewrite Hidx. exact Hseg. }
  assert (Hrun : exists ph hold,
             Rounded._update_phantom ar segments vehicles sg2
             = Ok (TrafficSignal.set_phantom ph hold sg2)).
  { destruct (TrafficSignal._state sg2) eqn:Hst.
    - unfold Rounded._update_phantom. rewrite Hst. eexists _, _. reflexivity.
    - destruct (TrafficSignal._yellow_hold sg2) eqn:Hhold.
      + destruct (rounded_update_phantom_held sg2 segment sp Hst Hhold Hsp2 Hseg2
                    (estimates_known_queue_known _ _ Hknown)) as [[_ ->]|[_ ->]];
          eexists _, _; reflexivity.
      + destruct (rounded_update_phantom_free sg2 segment sp Hst Hhold Hsp2 Hseg2 Hknown)
          as [[_ ->]|[_ ->]]; eexists _, _; reflexivity.
    - unfold Rounded._update_phantom. rewrite Hst, (make_phantom_at _ _ Hsp2).
      eexists _, _. reflexivity. }
  destruct Hrun as (ph & hold & Hrun).
  exists (TrafficSignal.set_phantom ph hold sg2), sg1, sp, segment.
  split; [rewrite rounded_update_unfold, Hres; exact Hrun|].
  split; [exact Hres|]. split; [exact Hsp|]. split; [exact Hsp|].
  split; [exact Hseg|exact Hknown].
Qed.
End RoundedUpdate.

(** With exact arithmetic the rounded update is the update of
    [TrafficSignal]. *)
Lemma rounded_update_exact segments vehicles step signal :
  Rounded.update exact_arithmetic segments vehicles step signal
  = TrafficSignal.update segments vehicles step signal.
Proof.
  unfold Rounded.update, TrafficSignal.update.
  destruct (TrafficSignal.resolve_position segments signal) as [sg1|e]; [|reflexivity].
  cbn [bind].
  change (Rounded.advance_clock exact_arithmetic step sg1)
    with (TrafficSignal.advance_clock step sg1).
  set (ct := TrafficSignal.advance_clock step sg1).
  change (Rounded.phase_of exact_arithmetic ct sg1) with (TrafficSignal.phase_of ct sg1).
  set (sg2 := TrafficSignal.set_clock ct (TrafficSignal.phase_of ct sg1) sg1).
  unfold Rounded._update_phantom, TrafficSignal._update_phantom,
    Rounded._any_vehicle_must_stop, TrafficSignal._any_vehicle_must_stop.
  destruct (TrafficSignal._state sg2); reflexivity.
Qed.
End RoundedSignal.

(** ** YELLOW hysteresis *)

(** One rounded update of a ready signal that lands in YELLOW. *)
Lemma rounded_yellow_update_step ar segments vehicles step signal :
  rounded_ready ar segments vehicles signal ->
  exists sg' sp segment,
    Rounded.update ar segments vehicles step signal = Ok sg'
    /\ TrafficSignal.stop_position sg' = Some sp
    /\ py_getitem segments (TrafficSignal.segment_index signal) = Ok segment
    /\ (TrafficSignal._state sg' = YELLOW ->
        let queue := Segment.vehicles segment in
        let trigger := exists veh, on_queue vehicles queue veh
                                   /\ rounded_cannot_brake ar sp veh in
        let moving := exists veh, on_queue vehicles queue veh /\ still_moving sp veh in
        (TrafficSignal._yellow_hold signal = false ->
           (trigger /\ TrafficSignal.phantom sg' = Some (phantom_at sp)
            /\ TrafficSignal._yellow_hold sg' = true)
           \/ (~ trigger /\ TrafficSignal.phantom sg' = None
               /\ TrafficSignal._yellow_hold sg' = false))
        /\ (TrafficSignal._yellow_hold signal = true ->
           (moving /\ TrafficSignal.phantom sg' = Some (phantom_at sp)
            /\ TrafficSignal._yellow_hold sg' = true)
           \/ (~ moving /\ TrafficSignal.phantom sg' = None
               /\ TrafficSignal._yellow_hold sg' = false))).
Proof.
  intros Hready.
  destruct (rounded_update_ready_total ar segments vehicles step signal Hready)
    as (sg' & sg1 & sp & segment & Hupd & Hres & Hsp1 & Hsp & Hseg & Hknown).
  exists sg', sp, segment. split; [exact Hupd|]. split; [exact Hsp|].
  split; [exact Hseg|].
  apply rounded_update_Ok_shape in Hupd as (sg1' & ph & hold & Hres' & Hph & Heq).
  rewrite Hres in Hres'. injection Hres' as <-.
  apply resolve_position_Ok in Hres as (_ & Hidx & _ & _ & _ & _ & Hhold & _).
  intros Hst queue trigger moving.
  set (sg2 := rounded_ticked ar step sg1) in *.
  assert (Hst2 : TrafficSignal._state sg2 = YELLOW) by (rewrite Heq in Hst; exact Hst).
  assert (Hsp2 : TrafficSignal.stop_position sg2 = Some sp) by exact Hsp1.
  assert (Hseg2 : py_getitem segments (TrafficSignal.segment_index sg2) = Ok segment)
    by (cbn; rewrite Hidx; exact Hseg).
  assert (Hhold2 : TrafficSignal._yellow_hold sg2 = TrafficSignal._yellow_hold signal)
    by exact Hhold.
  split; intros Hflag; rewrite <- Hhold2 in Hflag.
  - destruct (rounded_update_phantom_free ar segments vehicles sg2 segment sp
                Hst2 Hflag Hsp2 Hseg2 Hknown) as [[Ht Hr]|[Ht Hr]];
      rewrite Hr in Hph; injection Hph as <-; [left|right]; repeat split; exact Ht.
  - destruct (rounded_update_phantom_held ar segments vehicles sg2 segment sp
                Hst2 Hflag Hsp2 Hseg2 (estimates_known_queue_known ar _ _ Hknown))
      as [[Ht Hr]|[Ht Hr]];
      rewrite Hr in Hph; injection Hph as <-; [left|right]; repeat split; exact Ht.
Qed.

(** While the hold is latched, every YELLOW update at which some vehicle
    behind the line is still moving keeps the phantom and the hold. *)
Lemma rounded_yellow_hold_persists ar (idx : Z) (sp : Q) (ticks : list tick) :
  forall signal trace,
    TrafficSignal.segment_index signal = idx ->
    TrafficSignal._yellow_hold signal = true ->
    TrafficSignal._position_resolved signal = true ->
    TrafficSignal.stop_position signal = Some sp ->
    rounded_trace ar ticks signal = Ok trace ->
    Forall2 (fun (tk : tick) sg =>
               TrafficSignal._state sg = YELLOW
               /\ exists segment veh,
                    py_getitem (fst (fst tk)) idx = Ok segment
                    /\ queue_known (snd (fst tk)) (Segment.vehicles segment)
                    /\ on_queue (snd (fst tk)) (Segment.vehicles segment) veh
                    /\ still_moving sp veh) ticks trace ->
    Forall (fun sg => TrafficSignal.phantom sg = Some (phantom_at sp)
                      /\ TrafficSignal._yellow_hold sg = true) trace.
Proof.
  induction ticks as [|[[segs vehs] step] rest IH];
    intros signal trace Hidx Hhold Hres Hsp Hrun Hall.
  - injection Hrun as <-. constructor.
  - cbn [rounded_trace] in Hrun.
    apply bind_Ok in Hrun as (sg1 & Hupd & Hrun).
    apply bind_Ok in Hrun as (trace' & Hrest & [= <-]).
    apply Forall2_cons_1 in Hall
      as [(Hyellow & segment & veh & Hseg & Hknown & Hon & Hmov) Hall].
    cbn [fst snd] in Hseg, Hknown, Hon.
    destruct (rounded_update_Ok_frame ar _ _ _ _ _ Hupd)
      as (Hidx1 & _ & _ & _ & Hres1 & _ & _ & Hkept).
    pose proof (Hkept Hres) as Hsp1. rewrite Hsp in Hsp1.
    apply rounded_update_Ok_shape in Hupd as (sg0 & ph & hold & Hres0 & Hph & Heq).
    pose proof (resolve_position_Ok _ _ _ Hres0)
      as (_ & Hidx0 & _ & _ & _ & _ & Hhold0 & Hkept0 & _).
    set (sg2 := rounded_ticked ar step sg0) in *.
    assert (Hst2 : TrafficSignal._state sg2 = YELLOW)
      by (rewrite Heq in Hyellow; exact Hyellow).
    assert (Hhold2 : TrafficSignal._yellow_hold sg2 = true)
      by (change (TrafficSignal._yellow_hold sg0 = true); congruence).
    assert (Hsp2 : TrafficSignal.stop_position sg2 = Some sp).
    { change (TrafficSignal.stop_position sg0 = Some sp).
      rewrite (Hkept0 Hres). exact Hsp. }
    assert (Hseg2 : py_getitem segs (TrafficSignal.segment_index sg2) = Ok segment).
    { cbn. rewrite Hidx0, Hidx. exact Hseg. }
    destruct (rounded_update_phantom_held ar segs vehs sg2 segment sp
                Hst2 Hhold2 Hsp2 Hseg2 Hknown) as [[_ Hr]|[Hnone _]].
    + rewrite Hr in Hph. injection Hph as Hsg1.
      constructor; [rewrite <- Hsg1; split; reflexivity|].
      apply (IH sg1 trace'); try assumption.
      * rewrite Hidx1. exact Hidx.
      * rewrite <- Hsg1. reflexivity.
    + exfalso. apply Hnone. exists veh. split; assumption.
Qed.

(** C2. An update of a ready signal that lands in YELLOW, computed with
    the arithmetic [ar] of the machine, with [sp] the resolved stop
    position and the queue of the guarded segment: without a latched hold
    the phantom is created, and the hold latched, exactly when some queued
    vehicle with [x < sp] has a braking distance [v**2 / (2.0 * b_max)]
    above [sp - x], both as the machine computes them; with the hold
    latched the phantom and the hold stay exactly when some queued vehicle
    with [x < sp] has [v > 0.05], whatever the braking check says, and
    otherwise both are dropped within YELLOW; the 0.05 is the binary
    floating-point number of that name, less than 2^-58 above one
    twentieth, so that a vehicle at [v = 0.05] counts as stopped.  Hence a latched hold keeps
    the phantom over any run of YELLOW updates at each of which such a
    vehicle still moves.  Vehicles with [x >= sp] satisfy neither
    condition; a vehicle with [b_max <= 0] has braking distance 0 and does
    not trigger unless the machine computes a negative distance to a line
    that is ahead. *)
Theorem yellow_hysteresis :
  forall ar : arithmetic,
  (forall segments vehicles step signal,
      rounded_ready ar segments vehicles signal ->
      exists sg' sp segment,
        Rounded.update ar segments vehicles step signal = Ok sg'
        /\ TrafficSignal.stop_position sg' = Some sp
        /\ py_getitem segments (TrafficSignal.segment_index signal) = Ok segment
        /\ (TrafficSignal._state sg' = YELLOW ->
            let queue := Segment.vehicles segment in
            let trigger := exists veh, on_queue vehicles queue veh
                                       /\ rounded_cannot_brake ar sp veh in
            let moving := exists veh, on_queue vehicles queue veh /\ still_moving sp veh in
            (TrafficSignal._yellow_hold signal = false ->
               (trigger /\ TrafficSignal.phantom sg' = Some (phantom_at sp)
                /\ TrafficSignal._yellow_hold sg' = true)
               \/ (~ trigger /\ TrafficSignal.phantom sg' = None
                   /\ TrafficSignal._yellow_hold sg' = false))
            /\ (TrafficSignal._yellow_hold signal = true ->
               (moving /\ TrafficSignal.phantom sg' = Some (phantom_at sp)
                /\ TrafficSignal._yellow_hold sg' = true)
               \/ (~ moving /\ TrafficSignal.phantom sg' = None
                   /\ TrafficSignal._yellow_hold sg' = false))))
  /\ (forall idx sp (ticks : list tick) signal trace,
        TrafficSignal.segment_index signal = idx ->
        TrafficSignal._yellow_hold signal = true ->
        TrafficSignal._position_resolved signal = true ->
        TrafficSignal.stop_position signal = Some sp ->
        rounded_trace ar ticks signal = Ok trace ->
        Forall2 (fun (tk : tick) sg =>
                   TrafficSignal._state sg = YELLOW
                   /\ exists segment veh,
                        py_getitem (fst (fst tk)) idx = Ok segment
                        /\ queue_known (snd (fst tk)) (Segment.vehicles segment)
                        /\ on_queue (snd (fst tk)) (Segment.vehicles segment) veh
                        /\ still_moving sp veh) ticks trace ->
        Forall (fun sg => TrafficSignal.phantom sg = Some (phantom_at sp)
                          /\ TrafficSignal._yellow_hold sg = true) trace)
  /\ (forall sp veh,
        (sp <= Vehicle.x veh)%Q ->
        ~ rounded_cannot_brake ar sp veh /\ ~ still_moving sp veh)
  /\ (forall sp veh,
        still_moving sp veh <->
        (Vehicle.x veh < sp)%Q
        /\ (3602879701896397 # 72057594037927936 < Vehicle.v veh)%Q)
  /\ (((5 # 100) < (3602879701896397 # 72057594037927936))%Q
      /\ ((3602879701896397 # 72057594037927936)
          < (5 # 100) + (1 # 288230376151711744))%Q)
  /\ (forall sp veh,
        rounded_cannot_brake ar sp veh <->
        (Vehicle.x veh < sp)%Q
        /\ (((0 < Vehicle.b_max veh)%Q
             /\ exists square,
                 f_square ar (Vehicle.v veh) = Ok square
                 /\ ~ (f_mul ar 2 (Vehicle.b_max veh) == 0)%Q
                 /\ (f_sub ar sp (Vehicle.x veh)
                     < f_div ar square (f_mul ar 2 (Vehicle.b_max veh)))%Q)
            \/ ((Vehicle.b_max veh <= 0)%Q /\ (f_sub ar sp (Vehicle.x veh) < 0)%Q)))
  /\ (sign_keeping ar ->
      forall sp veh, (Vehicle.b_max veh <= 0)%Q -> ~ rounded_cannot_brake ar sp veh).
Proof.
  intros ar.
  split; [exact (rounded_yellow_update_step ar)|].
  split; [exact (rounded_yellow_hold_persists ar)|].
  assert (Hshape : forall sp veh,
             rounded_cannot_brake ar sp veh <->
             (Vehicle.x veh < sp)%Q
             /\ (((0 < Vehicle.b_max veh)%Q
                  /\ exists square,
                      f_square ar (Vehicle.v veh) = Ok square
                      /\ ~ (f_mul ar 2 (Vehicle.b_max veh) == 0)%Q
                      /\ (f_sub ar sp (Vehicle.x veh)
                          < f_div ar square (f_mul ar 2 (Vehicle.b_max veh)))%Q)
                 \/ ((Vehicle.b_max veh <= 0)%Q
                     /\ (f_sub ar sp (Vehicle.x veh) < 0)%Q))).
  { intros sp veh.
    unfold rounded_cannot_brake, behind_line, Rounded.braking_distance, Rounded.truediv.
    destruct (Qlt_le_dec 0 (Vehicle.b_max veh)) as [Hpos|Hnon].
    - destruct (f_square ar (Vehicle.v veh)) as [square|e]; cbn [bind].
      + destruct (Qeq_bool (f_mul ar 2 (Vehicle.b_max veh)) 0) eqn:Hzero.
        * apply Qeq_bool_iff in Hzero.
          split; [intros [_ (bd & Hbd & _)]; discriminate|].
          intros [_ [(_ & sq & _ & Hne & _)|[Hle _]]]; [contradiction|lra].
        * apply Qeq_bool_neq in Hzero.
          split.
          -- intros [Hb (bd & [= <-] & Hlt)]. split; [exact Hb|]. left.
             split; [exact Hpos|]. exists square. repeat split; assumption.
          -- intros [Hb [(_ & sq & [= <-] & _ & Hlt)|[Hle _]]]; [|lra].
             split; [exact Hb|]. eexists. split; [reflexivity|exact Hlt].
      + split; [intros [_ (bd & Hbd & _)]; discriminate|].
        intros [_ [(_ & sq & Hsq & _)|[Hle _]]]; [discriminate|lra].
    - split.
      + intros [Hb (bd & [= <-] & Hlt)]. split; [exact Hb|]. right. split; assumption.
      + intros [Hb [(Hpos & _)|[_ Hlt]]]; [lra|].
        split; [exact Hb|]. exists 0%Q. split; [reflexivity|exact Hlt]. }
  split; [|split; [|split; [|split; [exact Hshape|]]]].
  - intros sp veh Hpast. unfold rounded_cannot_brake, still_moving, behind_line.
    split; intros [Hb _]; lra.
  - intros sp veh. unfold still_moving, behind_line, TrafficSignal._STOPPED_THRESHOLD.
    reflexivity.
  - split; vm_compute; reflexivity.
  - intros Hsign sp veh Hnon Hc. apply Hshape in Hc as [Hb [(Hpos & _)|[_ Hlt]]]; [lra|].
    pose proof (Hsign sp (Vehicle.x veh) Hb). lra.
Qed.

(** ** The phase clock *)

Lemma elapsed_0 step : (elapsed 0 step == 0)%Q.
Proof. unfold elapsed. change (inject_Z (Z.of_nat 0)) with 0%Q. lra. Qed.

Lemma elapsed_S n step : (elapsed (S n) step == elapsed n step + step)%Q.
Proof.
  unfold elapsed. rewrite Nat2Z.inj_succ. unfold Z.succ.
  rewrite inject_Z_plus. change (inject_Z 1) with 1%Q. lra.
Qed.

Lemma elapsed_nonneg n step : (0 <= step)%Q -> (0 <= elapsed n step)%Q.
Proof.
  intros Hstep. unfold elapsed. apply Qmult_le_0_compat; [|exact Hstep].
  change 0%Q with (inject_Z 0). rewrite <- Zle_Qle. lia.
Qed.

Lemma elapsed_mono (n m : nat) step :
  (0 <= step)%Q -> (n <= m)%nat -> (elapsed n step <= elapsed m step)%Q.
Proof.
  intros Hstep Hnm. unfold elapsed. apply Qmult_le_compat_r; [|exact Hstep].
  rewrite <- Zle_Qle. lia.
Qed.

Lemma elapsed_scale n (factor step : Q) :
  (elapsed n (factor * step) == factor * elapsed n step)%Q.
Proof. unfold elapsed. ring. Qed.

(** Updates on ready ticks return. *)
Lemma rounded_updates_total ar (idx : Z) (ticks : list tick) :
  forall signal,
    TrafficSignal.segment_index signal = idx ->
    (TrafficSignal._position_resolved signal = true ->
     is_Some (TrafficSignal.stop_position signal)) ->
    Forall (rounded_tick_ready ar idx) ticks ->
    exists sg', rounded_updates ar ticks signal = Ok sg'.
Proof.
  induction ticks as [|[[segs vehs] step] rest IH]; intros signal Hidx Hnum Hready.
  - exists signal. reflexivity.
  - apply Forall_cons_1 in Hready as [(segment & Hseg & Hknown) Hrest].
    cbn [fst snd] in Hseg, Hknown.
    destruct (rounded_update_ready_total ar segs vehs step signal)
      as (sg1 & _ & sp & _ & Hupd & _ & _ & Hsp & _).
    { split; [|exact Hnum]. exists segment. rewrite Hidx. split; assumption. }
    destruct (rounded_update_Ok_frame ar _ _ _ _ _ Hupd) as (Hi & _).
    destruct (IH sg1) as [sg' Hrun]; [congruence| |exact Hrest|].
    { intros _. rewrite Hsp. eexists. reflexivity. }
    exists sg'. cbn [rounded_updates]. rewrite Hupd. exact Hrun.
Qed.

(** *** The clock under rounding

    A signal with durations [g], [y] and [r], updated with step [dt] by
    an arithmetic that is within [eps] of the exact one. *)
Section RoundedClock.
Variable ar : arithmetic.
Variables eps bound dt g y r : Q.
Hypothesis Hround : rounds_within ar eps bound.
Hypothesis Heps : (0 <= eps)%Q.
Hypothesis Hdt : (eps <= dt)%Q.
Hypothesis Hg : (0 <= g)%Q.
Hypothesis Hy : (0 <= y)%Q.
Hypothesis Hr : (0 <= r)%Q.
Hypothesis Hshort : (dt + 4 * eps <= g + y + r)%Q.
Hypothesis Hbound : (g + y + r + dt + 3 * eps <= bound)%Q.

Let yellow_end : Q := f_add ar g y.
Let cycle : Q := f_add ar (f_add ar g y) r.

Lemma yellow_end_close :
  (g + y - eps <= yellow_end)%Q /\ (yellow_end <= g + y + eps)%Q.
Proof. apply (proj1 (Hround g y)); lra. Qed.

Lemma cycle_close :
  (g + y + r - 2 * eps <= cycle)%Q /\ (cycle <= g + y + r + 2 * eps)%Q.
Proof.
  pose proof yellow_end_close as [Hlo Hhi]. fold yellow_end in cycle.
  destruct (proj1 (Hround yellow_end r)) as [Hlo' Hhi']; [lra|lra|].
  unfold cycle. lra.
Qed.

(** One addition of the step, and one subtraction of the cycle when the
    sum has reached it. *)
Lemma advance_clock_within (signal : TrafficSignal.obj) :
  TrafficSignal.green_duration signal = g ->
  TrafficSignal.yellow_duration signal = y ->
  TrafficSignal.red_duration signal = r ->
  let c := TrafficSignal._cycle_time signal in
  let c' := Rounded.advance_clock ar dt signal in
  (- eps <= c)%Q -> (c < cycle)%Q ->
  ((- eps <= c')%Q /\ (c' < cycle)%Q)
  /\ (((c + dt - eps <= c')%Q /\ (c' <= c + dt + eps)%Q)
      \/ ((c + dt - (g + y + r) - 4 * eps <= c')%Q
          /\ (c' <= c + dt - (g + y + r) + 4 * eps)%Q)).
Proof.
  intros Eg Ey Er c c' Hlo Hhi. subst c c'.
  unfold Rounded.advance_clock, Rounded.cycle_duration. rewrite Eg, Ey, Er.
  fold cycle. set (c := TrafficSignal._cycle_time signal) in *.
  pose proof cycle_close as [Hc1 Hc2].
  destruct (proj1 (Hround c dt)) as [Hs1 Hs2]; [lra|lra|].
  destruct (Qlt_le_dec (f_add ar c dt) cycle) as [Hno|Hwrap].
  - split; [split; lra|left; split; lra].
  - destruct (proj2 (Hround (f_add ar c dt) cycle)) as [Hd1 Hd2]; [lra|lra|].
    split; [split; lra|right; split; lra].
Qed.

(** After any number of updates the clock is the elapsed time less a
    whole number [w] of cycle durations, up to the accumulated rounding:
    [eps] for each update and three more [eps] for each wrap. *)
Lemma rounded_clock_within (ticks : list tick) :
  forall signal sg',
    TrafficSignal.green_duration signal = g ->
    TrafficSignal.yellow_duration signal = y ->
    TrafficSignal.red_duration signal = r ->
    Forall (fun tk : tick => snd tk = dt) ticks ->
    (- eps <= TrafficSignal._cycle_time signal)%Q ->
    (TrafficSignal._cycle_time signal < cycle)%Q ->
    rounded_updates ar ticks signal = Ok sg' ->
    ((- eps <= TrafficSignal._cycle_time sg')%Q
     /\ (TrafficSignal._cycle_time sg' < cycle)%Q)
    /\ (ticks <> [] ->
        TrafficSignal._state sg'
        = Rounded.phase_of ar (TrafficSignal._cycle_time sg') signal)
    /\ exists w : nat,
        (w <= length ticks)%nat
        /\ (TrafficSignal._cycle_time signal + elapsed (length ticks) dt
            - elapsed w (g + y + r)
            - (elapsed (length ticks) eps + elapsed w (3 * eps))
            <= TrafficSignal._cycle_time sg')%Q
        /\ (TrafficSignal._cycle_time sg'
            <= TrafficSignal._cycle_time signal + elapsed (length ticks) dt
               - elapsed w (g + y + r)
               + (elapsed (length ticks) eps + elapsed w (3 * eps)))%Q.
Proof.
  induction ticks as [|[[segs vehs] step] rest IH];
    intros signal sg' Eg Ey Er Hsteps Hlo Hhi Hrun.
  - injection Hrun as <-. split; [split; assumption|]. split; [congruence|].
    exists 0%nat. cbn [length].
    pose proof (elapsed_0 dt). pose proof (elapsed_0 eps).
    pose proof (elapsed_0 (g + y + r)). pose proof (elapsed_0 (3 * eps)).
    split; [lia|split; lra].
  - cbn [rounded_updates] in Hrun. apply bind_Ok in Hrun as (sg1 & Hupd & Hrun).
    apply Forall_cons_1 in Hsteps as [Hstep Hsteps]. cbn [snd] in Hstep. subst step.
    destruct (rounded_update_Ok_frame ar _ _ _ _ _ Hupd)
      as (_ & Eg1 & Ey1 & Er1 & _ & Hclock & Hstate & _).
    destruct (advance_clock_within signal Eg Ey Er Hlo Hhi) as [[Hlo1 Hhi1] Hone].
    rewrite <- Hclock in Hlo1, Hhi1, Hone.
    destruct (IH sg1 sg' ltac:(congruence) ltac:(congruence) ltac:(congruence)
                 Hsteps Hlo1 Hhi1 Hrun) as (Hin & Hphase & w & Hw & Hlow & Hupp).
    split; [exact Hin|]. split.
    + intros _. destruct rest as [|tk rest'].
      * injection Hrun as <-. exact Hstate.
      * rewrite (Hphase ltac:(discriminate)).
        unfold Rounded.phase_of. rewrite Eg1, Ey1. reflexivity.
    + cbn [length].
      pose proof (elapsed_S (length rest) dt) as Ht.
      pose proof (elapsed_S (length rest) eps) as He.
      destruct Hone as [[Ha Hb]|[Ha Hb]].
      * exists w. split; [lia|]. split; lra.
      * exists (S w). split; [lia|].
        pose proof (elapsed_S w (g + y + r)) as Hc.
        pose proof (elapsed_S w (3 * eps)) as He3.
        split; lra.
Qed.

(** The phases of a signal that starts at clock 0, at the ticks that lie
    a step or more away from the cumulative durations. *)
Lemma rounded_phase_windows (ticks : list tick) (signal sg' : TrafficSignal.obj) :
  TrafficSignal.green_duration signal = g ->
  TrafficSignal.yellow_duration signal = y ->
  TrafficSignal.red_duration signal = r ->
  TrafficSignal._cycle_time signal = 0%Q ->
  TrafficSignal._state signal = GREEN ->
  (0 < dt)%Q ->
  Forall (fun tk : tick => snd tk = dt) ticks ->
  (4 * elapsed (length ticks) eps + 3 * eps < dt)%Q ->
  rounded_updates ar ticks signal = Ok sg' ->
  let time := elapsed (length ticks) dt in
  ((time + dt <= g)%Q -> TrafficSignal._state sg' = GREEN)
  /\ ((g + dt <= time)%Q -> (time + dt <= g + y)%Q ->
      TrafficSignal._state sg' = YELLOW)
  /\ ((g + y + dt <= time)%Q -> (time + dt <= g + y + r)%Q ->
      TrafficSignal._state sg' = RED)
  /\ ((g + y + r + dt <= time)%Q -> (time + dt <= g + y + r + g)%Q ->
      TrafficSignal._state sg' = GREEN).
Proof.
  intros Eg Ey Er Hzero Hgreen Hpos Hsteps Hsmall Hrun time.
  pose proof cycle_close as [Hc1 Hc2].
  pose proof yellow_end_close as [Hy1 Hy2].
  destruct (rounded_clock_within ticks signal sg' Eg Ey Er Hsteps)
    as ([Hlo Hhi] & Hphase & w & Hw & Hlow & Hupp);
    [rewrite Hzero; lra|rewrite Hzero; lra|exact Hrun|].
  rewrite Hzero in Hlow, Hupp. fold time in Hlow, Hupp.
  set (k := length ticks) in *. set (c := TrafficSignal._cycle_time sg') in *.
  pose proof (elapsed_mono w k (3 * eps) ltac:(lra) Hw) as Hw3.
  pose proof (elapsed_scale k 3 eps) as Hk3.
  pose proof (elapsed_nonneg k eps Heps) as Hk0.
  pose proof (elapsed_nonneg w (3 * eps) ltac:(lra)) as Hw0.
  assert (Hstate : ticks <> [] ->
            TrafficSignal._state sg'
            = (if Qlt_le_dec c g then GREEN
               else if Qlt_le_dec c yellow_end then YELLOW else RED)).
  { intros Hne. rewrite (Hphase Hne). unfold Rounded.phase_of.
    rewrite Eg, Ey. reflexivity. }
  assert (Hnil : ticks = [] -> (time == 0)%Q /\ TrafficSignal._state sg' = GREEN).
  { intros ->. injection Hrun as <-. split; [apply elapsed_0|exact Hgreen]. }
  assert (Hcases : (w = 0 \/ w = 1 \/ 2 <= w)%nat) by lia.
  assert (Hw_cycle : (w = 0%nat -> (elapsed w (g + y + r) == 0)%Q)
                     /\ (w = 1%nat -> (elapsed w (g + y + r) == g + y + r)%Q)
                     /\ ((2 <= w)%nat -> (2 * (g + y + r) <= elapsed w (g + y + r))%Q)).
  { split; [intros ->; apply elapsed_0|]. split.
    - intros ->. pose proof (elapsed_S 0 (g + y + r)). pose proof (elapsed_0 (g + y + r)).
      lra.
    - intros H2. pose proof (elapsed_mono 2 w (g + y + r) ltac:(lra) H2).
      pose proof (elapsed_S 1 (g + y + r)). pose proof (elapsed_S 0 (g + y + r)).
      pose proof (elapsed_0 (g + y + r)). lra. }
  destruct Hw_cycle as (W0 & W1 & W2).
  split; [|split; [|split]].
  - intros Hwin. destruct ticks as [|tk rest]; [exact (proj2 (Hnil eq_refl))|].
    rewrite (Hstate ltac:(discriminate)).
    destruct Hcases as [E|[E|E]];
      [pose proof (W0 E)|pose proof (W1 E)|pose proof (W2 E)];
      destruct (Qlt_le_dec c g); try reflexivity; lra.
  - intros Hwin1 Hwin2.
    destruct ticks as [|tk rest]; [destruct (Hnil eq_refl); lra|].
    rewrite (Hstate ltac:(discriminate)).
    destruct Hcases as [E|[E|E]];
      [pose proof (W0 E)|pose proof (W1 E)|pose proof (W2 E)];
      destruct (Qlt_le_dec c g); destruct (Qlt_le_dec c yellow_end);
      try reflexivity; lra.
  - intros Hwin1 Hwin2.
    destruct ticks as [|tk rest]; [destruct (Hnil eq_refl); lra|].
    rewrite (Hstate ltac:(discriminate)).
    destruct Hcases as [E|[E|E]];
      [pose proof (W0 E)|pose proof (W1 E)|pose proof (W2 E)];
      destruct (Qlt_le_dec c g); destruct (Qlt_le_dec c yellow_end);
      try reflexivity; lra.
  - intros Hwin1 Hwin2.
    destruct ticks as [|tk rest]; [destruct (Hnil eq_refl); lra|].
    rewrite (Hstate ltac:(discriminate)).
    destruct Hcases as [E|[E|E]];
      [pose proof (W0 E)|pose proof (W1 E)|pose proof (W2 E)];
      destruct (Qlt_le_dec c g); try reflexivity; lra.
Qed.
End RoundedClock.

(** C4, as the code has it.  A new signal is GREEN with clock 0.  An
    update adds the step to the clock and, when the sum has reached the
    cycle duration, subtracts the cycle duration once: one subtraction,
    not a remainder.  The phase after the update is GREEN below
    [green_duration], YELLOW below [green_duration + yellow_duration], RED
    otherwise.  All sums and the difference are those of the machine.
    With an arithmetic within [eps] of the exact one, a positive step no
    longer than any of the three durations, and a number of updates whose
    accumulated rounding stays below one step, a new signal is GREEN at
    the ticks that end a step or more before [green_duration], YELLOW at
    those from a step after it to a step before
    [green_duration + yellow_duration], RED from a step after that to a
    step before the cycle duration, and GREEN again from a step after the
    cycle duration: each change of phase lies within one step of the
    cumulative duration it marks.  At the ticks nearer to a boundary the
    phase depends on the rounding. *)
Theorem phase_clock_cycle :
  forall (ar : arithmetic) (cfg : option TrafficSignal.config),
    let fresh := TrafficSignal.__init__ cfg in
    let g := TrafficSignal.green_duration fresh in
    let y := TrafficSignal.yellow_duration fresh in
    let r := TrafficSignal.red_duration fresh in
    (TrafficSignal._state fresh = GREEN /\ TrafficSignal._cycle_time fresh = 0%Q)
    /\ (forall segments vehicles step signal sg',
          Rounded.update ar segments vehicles step signal = Ok sg' ->
          let sum := f_add ar (TrafficSignal._cycle_time signal) step in
          let cycle := f_add ar (f_add ar (TrafficSignal.green_duration signal)
                                          (TrafficSignal.yellow_duration signal))
                                (TrafficSignal.red_duration signal) in
          let yellow_end := f_add ar (TrafficSignal.green_duration signal)
                                     (TrafficSignal.yellow_duration signal) in
          let clock' := TrafficSignal._cycle_time sg' in
          (((sum < cycle)%Q /\ clock' = sum)
           \/ ((cycle <= sum)%Q /\ clock' = f_sub ar sum cycle))
          /\ (((clock' < TrafficSignal.green_duration signal)%Q
               /\ TrafficSignal._state sg' = GREEN)
              \/ ((TrafficSignal.green_duration signal <= clock')%Q
                  /\ (clock' < yellow_end)%Q
                  /\ TrafficSignal._state sg' = YELLOW)
              \/ ((TrafficSignal.green_duration signal <= clock')%Q
                  /\ (yellow_end <= clock')%Q
                  /\ TrafficSignal._state sg' = RED)))
    /\ (forall eps bound step (ticks : list tick),
          rounds_within ar eps bound ->
          (0 <= eps)%Q -> (0 < step)%Q ->
          (step <= g)%Q -> (step <= y)%Q -> (step <= r)%Q ->
          (g + y + r + step + 3 * eps <= bound)%Q ->
          Forall (fun tk : tick => snd tk = step) ticks ->
          (4 * elapsed (length ticks) eps + 3 * eps < step)%Q ->
          let time := elapsed (length ticks) step in
          (Forall (rounded_tick_ready ar (TrafficSignal.segment_index fresh)) ticks ->
           exists sg', rounded_updates ar ticks fresh = Ok sg')
          /\ forall sg',
              rounded_updates ar ticks fresh = Ok sg' ->
              ((time + step <= g)%Q -> TrafficSignal._state sg' = GREEN)
              /\ ((g + step <= time)%Q -> (time + step <= g + y)%Q ->
                  TrafficSignal._state sg' = YELLOW)
              /\ ((g + y + step <= time)%Q -> (time + step <= g + y + r)%Q ->
                  TrafficSignal._state sg' = RED)
              /\ ((g + y + r + step <= time)%Q -> (time + step <= g + y + r + g)%Q ->
                  TrafficSignal._state sg' = GREEN)).
Proof.
  intros ar cfg fresh g y r.
  split; [split; reflexivity|]. split.
  - intros segments vehicles step signal sg' Hupd sum cycle yellow_end clock'.
    destruct (rounded_update_Ok_frame ar _ _ _ _ _ Hupd)
      as (_ & _ & _ & _ & _ & Hclock & Hstate & _).
    subst clock'. split.
    + rewrite Hclock. unfold Rounded.advance_clock, Rounded.cycle_duration.
      fold sum. fold cycle.
      destruct (Qlt_le_dec sum cycle) as [Hno|Hwrap];
        [left|right]; split; [exact Hno|reflexivity|exact Hwrap|reflexivity].
    + rewrite Hstate. unfold Rounded.phase_of. fold yellow_end.
      destruct (Qlt_le_dec (TrafficSignal._cycle_time sg')
                           (TrafficSignal.green_duration signal)) as [H1|H1].
      * left. split; [exact H1|reflexivity].
      * destruct (Qlt_le_dec (TrafficSignal._cycle_time sg') yellow_end) as [H2|H2].
        -- right. left. repeat split; assumption.
        -- right. right. repeat split; assumption.
  - intros eps bound step ticks Hround Heps Hstep Hg Hy Hr Hbound Hsteps Hsmall time.
    split.
    + intros Hready.
      apply (rounded_updates_total ar (TrafficSignal.segment_index fresh) ticks fresh
               eq_refl); [discriminate|exact Hready].
    + intros sg' Hrun.
      pose proof (elapsed_nonneg (length ticks) eps Heps) as Hk0.
      apply (rounded_phase_windows ar eps bound step g y r Hround Heps
               ltac:(lra) ltac:(lra) ltac:(lra) ltac:(lra) ltac:(lra) Hbound
               ticks fresh sg' eq_refl eq_refl eq_refl eq_refl eq_refl
               Hstep Hsteps Hsmall Hrun).
Qed.

(** ** The stepper: signals, then vehicles *)

Section Kinematics.
Context {G : Type}.
Variable Vehicle_update : option Vehicle.obj -> Q -> Vehicle.obj -> Vehicle.obj.
Implicit Types (sim : Simulation.obj G) (table : gmap nat Vehicle.obj)
  (queue : list nat).



Lemma update_segment_vehicles_queue sim seg_idx segment table :
  Simulation.update_segment_vehicles Vehicle_update sim seg_idx segment table =
  Simulation.update_queue Vehicle_update (Simulation.dt sim)
    (guarding_phantom sim seg_idx) (Segment.vehicles segment) table.
Proof.
  unfold Simulation.update_segment_vehicles, guarding_phantom.
  destruct (Segment.vehicles segment) as [|front rest]; [reflexivity|].
  destruct (Simulation.traffic_signals sim !! Z.of_nat seg_idx); reflexivity.
Qed.

End Kinematics.

Section SignalsFirst.
Context {G : Type}.
Implicit Types (sim : Simulation.obj G).

Lemma update_signal_items_spec sim items :
  Forall (fun item : Z * TrafficSignal.obj =>
            signal_ready (Simulation.segments sim) (Simulation.vehicles sim) item.2)
         items ->
  exists items',
    Simulation.update_signal_items sim items = Ok items'
    /\ Forall2 (fun item item' : Z * TrafficSignal.obj =>
                  item.1 = item'.1
                  /\ TrafficSignal.update (Simulation.segments sim)
                       (Simulation.vehicles sim) (Simulation.dt sim) item.2
                     = Ok item'.2) items items'.
Proof.
  induction items as [|[key signal] rest IH]; intros Hready.
  - exists []. split; [reflexivity|constructor].
  - apply Forall_cons_1 in Hready as [Hhead Hrest].
    destruct (update_ready_total _ _ (Simulation.dt sim) signal Hhead) as [sg' Hupd].
    destruct (IH Hrest) as (rest' & Hrun & Hall).
    exists ((key, sg') :: rest'). split.
    + cbn [Simulation.update_signal_items]. rewrite Hupd. cbn [bind].
      rewrite Hrun. reflexivity.
    + constructor; [split; [reflexivity|exact Hupd]|exact Hall].
Qed.

(** The first loop updates every signal of the table against the
    segments and vehicles as the tick found them, and nothing else. *)
Lemma update_signals_spec sim :
  (forall key signal,
      Simulation.traffic_signals sim !! key = Some signal ->
      signal_ready (Simulation.segments sim) (Simulation.vehicles sim) signal) ->
  exists s1,
    Simulation.update_signals sim = Ok s1
    /\ s1 = Simulation.set_traffic_signals (Simulation.traffic_signals s1) sim
    /\ (forall key signal,
          Simulation.traffic_signals sim !! key = Some signal ->
          exists sg',
            TrafficSignal.update (Simulation.segments sim) (Simulation.vehicles sim)
              (Simulation.dt sim) signal = Ok sg'
            /\ Simulation.traffic_signals s1 !! key = Some sg')
    /\ (forall key,
          Simulation.traffic_signals sim !! key = None ->
          Simulation.traffic_signals s1 !! key = None).
Proof.
  intros Hready.
  set (items := map_to_list (Simulation.traffic_signals sim)).
  destruct (update_signal_items_spec sim items) as (items' & Hrun & Hall).
  { apply list.Forall_forall. intros [key signal] Hin.
    apply elem_of_map_to_list in Hin. exact (Hready key signal Hin). }
  assert (Hkeys : items'.*1 = items.*1).
  { clear Hrun. induction Hall as [|a b l k [Hk _] _ IH]; [reflexivity|].
    cbn. rewrite IH, Hk. reflexivity. }
  assert (Hnodup : NoDup (items'.*1)).
  { rewrite Hkeys. apply NoDup_fst_map_to_list. }
  exists (Simulation.set_traffic_signals (list_to_map items') sim).
  split; [|split; [reflexivity|split]].
  - unfold Simulation.update_signals. fold items. rewrite Hrun. reflexivity.
  - intros key signal Hin. cbn [Simulation.traffic_signals Simulation.set_traffic_signals].
    apply elem_of_map_to_list in Hin. fold items in Hin.
    apply list_elem_of_lookup in Hin as [i Hi].
    destruct (Forall2_lookup_l _ _ _ _ _ Hall Hi) as ([key' sg'] & Hi' & Hk & Hupd).
    cbn in Hk, Hupd. subst key'. exists sg'. split; [exact Hupd|].
    apply elem_of_list_to_map_1; [exact Hnodup|].
    apply list_elem_of_lookup. exists i. exact Hi'.
  - intros key Hnone. cbn [Simulation.traffic_signals Simulation.set_traffic_signals].
    apply not_elem_of_list_to_map_1. rewrite Hkeys. intros Hin.
    apply list_elem_of_fmap in Hin as ([key' signal] & -> & Hin).
    apply elem_of_map_to_list in Hin. cbn in Hnone. congruence.
Qed.
End SignalsFirst.


(** ** The stepper: crossing the end of a segment *)

Lemma py_index_nat (n i : nat) : (i < n)%nat -> py_index n (Z.of_nat i) = Some i.
Proof.
  intros Hi. unfold py_index.
  replace ((0 <=? Z.of_nat i) && (Z.of_nat i <? Z.of_nat n))%Z with true.
  - rewrite Nat2Z.id. reflexivity.
  - symmetry. apply andb_true_iff. split; [apply Z.leb_le|apply Z.ltb_lt]; lia.
Qed.

Lemma py_index_lt (n : nat) (i : Z) (k : nat) :
  py_index n i = Some k -> (k < n)%nat.
Proof.
  unfold py_index.
  destruct ((0 <=? i) && (i <? Z.of_nat n))%Z eqn:E1.
  - intros [= <-]. apply andb_true_iff in E1 as [H1 H2].
    apply Z.leb_le in H1. apply Z.ltb_lt in H2. lia.
  - destruct ((- Z.of_nat n <=? i) && (i <? 0))%Z eqn:E2; [|discriminate].
    intros [= <-]. apply andb_true_iff in E2 as [H1 H2].
    apply Z.leb_le in H1. apply Z.ltb_lt in H2. lia.
Qed.

Lemma py_getitem_nat {A} (items : list A) (i : nat) (val : A) :
  items !! i = Some val -> py_getitem items (Z.of_nat i) = Ok val.
Proof.
  intros Hi. unfold py_getitem.
  rewrite py_index_nat by (apply lookup_lt_Some in Hi; exact Hi).
  rewrite Hi. reflexivity.
Qed.

Lemma fmap_alter_same {A B} (f : A -> B) (g : A -> A) (i : nat) (items : list A) :
  (forall val, f (g val) = f val) -> f <$> alter g i items = f <$> items.
Proof.
  intros Hfg. apply list_eq. intros m.
  rewrite !list_lookup_fmap, list_lookup_alter.
  destruct (decide (i = m)) as [->|_]; [|reflexivity].
  destruct (items !! m); cbn; [rewrite Hfg|]; reflexivity.
Qed.

Lemma segments_after_crossing_lengths veh_id i target segs :
  Segment.get_length <$> segments_after_crossing veh_id i target segs
  = Segment.get_length <$> segs.
Proof.
  unfold segments_after_crossing.
  rewrite fmap_alter_same by reflexivity.
  destruct target; [apply fmap_alter_same; reflexivity|reflexivity].
Qed.

Lemma segments_after_crossing_length veh_id i target segs :
  length (segments_after_crossing veh_id i target segs) = length segs.
Proof.
  unfold segments_after_crossing. rewrite length_alter.
  destruct target; [apply length_alter|reflexivity].
Qed.

(** The queue found under [m] after a crossing from segment [i]. *)
Lemma segments_after_crossing_lookup veh_id i target segs m :
  segments_after_crossing veh_id i target segs !! m =
  (fun seg =>
     let seg := if decide (target = Some m) then Segment.append veh_id seg else seg in
     if decide (i = m) then Segment.popleft seg else seg) <$> segs !! m.
Proof.
  unfold segments_after_crossing. rewrite list_lookup_alter.
  destruct (decide (i = m)) as [->|Hne]; destruct target as [k|];
    try rewrite list_lookup_alter;
    try destruct (decide (k = m)) as [->|Hk];
    destruct (segs !! m) as [seg|]; cbn;
    repeat first [rewrite decide_True by reflexivity
                 |rewrite decide_False by congruence];
    reflexivity.
Qed.

Section Boundary.
Context {G : Type}.
Implicit Types (sim : Simulation.obj G).

(** One turn of the third loop, when it returns: nothing happens, or the
    front vehicle is at or past the end of its segment and crosses. *)
Lemma check_segment_Ok i sim sim' :
  Simulation.check_segment i sim = Ok sim' ->
  sim' = sim
  \/ exists segment veh_id rest veh,
      Simulation.segments sim !! i = Some segment
      /\ Segment.vehicles segment = veh_id :: rest
      /\ Simulation.vehicles sim !! veh_id = Some veh
      /\ (Segment.get_length segment <= Vehicle.x veh)%Q
      /\ sim' = crossed i veh_id veh sim.
Proof.
  unfold Simulation.check_segment.
  destruct (Simulation.segments sim !! i) as [segment|] eqn:Hseg;
    [|intros [= <-]; left; reflexivity].
  destruct (Segment.vehicles segment) as [|veh_id rest] eqn:Hq;
    [intros [= <-]; left; reflexivity|].
  unfold dict_getitem.
  destruct (Simulation.vehicles sim !! veh_id) as [veh|] eqn:Hveh; [|discriminate].
  cbn [bind].
  destruct (Qlt_le_dec (Vehicle.x veh) (Segment.get_length segment)) as [Hin|Hout];
    [intros [= <-]; left; reflexivity|].
  intros Hrun. right. exists segment, veh_id, rest, veh.
  do 4 (split; [assumption || reflexivity|]).
  unfold crossed, next_segment.
  destruct (S (Vehicle.current_road_index veh) <? length (Vehicle.path veh))%nat eqn:Hnext.
  - apply Nat.ltb_lt in Hnext.
    destruct (lookup_lt_is_Some_2 _ _ Hnext) as [nxt Hnxt].
    rewrite (py_getitem_nat _ _ _ Hnxt) in Hrun. cbn [bind] in Hrun.
    rewrite Hnxt. cbn [mbind option_bind].
    destruct (py_index (length (Simulation.segments sim)) nxt) as [k|]; [|discriminate].
    cbn in Hrun. injection Hrun as <-. reflexivity.
  - apply Nat.ltb_ge in Hnext.
    rewrite (lookup_ge_None_2 _ _ Hnext). cbn [mbind option_bind].
    cbn in Hrun. injection Hrun as <-. reflexivity.
Qed.

(** A vehicle short of the end of its segment stays, whatever stands
    behind it in the queue. *)
Lemma check_segment_short i sim segment veh_id rest veh :
  Simulation.segments sim !! i = Some segment ->
  Segment.vehicles segment = veh_id :: rest ->
  Simulation.vehicles sim !! veh_id = Some veh ->
  (Vehicle.x veh < Segment.get_length segment)%Q ->
  Simulation.check_segment i sim = Ok sim.
Proof.
  intros Hseg Hq Hveh Hshort. unfold Simulation.check_segment, dict_getitem.
  rewrite Hseg, Hq, Hveh. cbn [bind].
  destruct (Qlt_le_dec _ _); [reflexivity|lra].
Qed.

(** A front vehicle at or past the end of its segment crosses, provided
    the next entry of its path, if any, names a segment. *)
Lemma check_segment_crossing i sim segment veh_id rest veh :
  Simulation.segments sim !! i = Some segment ->
  Segment.vehicles segment = veh_id :: rest ->
  Simulation.vehicles sim !! veh_id = Some veh ->
  (Segment.get_length segment <= Vehicle.x veh)%Q ->
  (forall nxt,
      Vehicle.path veh !! S (Vehicle.current_road_index veh) = Some nxt ->
      is_Some (py_index (length (Simulation.segments sim)) nxt)) ->
  Simulation.check_segment i sim = Ok (crossed i veh_id veh sim).
Proof.
  intros Hseg Hq Hveh Hpast Hpath.
  unfold Simulation.check_segment, dict_getitem.
  rewrite Hseg, Hq, Hveh. cbn [bind].
  destruct (Qlt_le_dec _ _); [lra|].
  unfold crossed, next_segment.
  destruct (S (Vehicle.current_road_index veh) <? length (Vehicle.path veh))%nat eqn:Hnext.
  - apply Nat.ltb_lt in Hnext.
    destruct (lookup_lt_is_Some_2 _ _ Hnext) as [nxt Hnxt].
    rewrite (py_getitem_nat _ _ _ Hnxt). cbn [bind].
    rewrite Hnxt. cbn [mbind option_bind].
    destruct (Hpath nxt Hnxt) as [k ->]. reflexivity.
  - apply Nat.ltb_ge in Hnext.
    rewrite (lookup_ge_None_2 _ _ Hnext). reflexivity.
Qed.
End Boundary.

Lemma elem_of_tail {A} (val : A) (items : list A) :
  val ∈ tail items -> val ∈ items.
Proof. destruct items as [|h rest]; cbn; [auto|]. intros H. right. exact H. Qed.

Section BoundaryLoop.
Context {G : Type}.
Implicit Types (sim : Simulation.obj G).

(** The queue that a crossing of [f] from segment [j] leaves under [m]
    holds identifiers of the old queue, and possibly [f]. *)
Lemma crossing_queue_elem (f j : nat) (target : option nat) (m : nat)
    (seg : Segment.obj) (veh_id : nat) :
  veh_id ∈ Segment.vehicles
             (let seg := if decide (target = Some m) then Segment.append f seg else seg in
              if decide (j = m) then Segment.popleft seg else seg) ->
  veh_id ∈ Segment.vehicles seg \/ veh_id = f.
Proof.
  cbv zeta.
  destruct (decide (j = m)) as [_|_]; destruct (decide (target = Some m)) as [_|_]; cbn.
  - intros H. apply elem_of_tail, elem_of_app in H as [H|H]; [left; exact H|].
    right. apply list_elem_of_singleton in H. exact H.
  - intros H. left. apply elem_of_tail. exact H.
  - intros H. apply elem_of_app in H as [H|H]; [left; exact H|].
    right. apply list_elem_of_singleton in H. exact H.
  - intros H. left. exact H.
Qed.

(** What a crossing of another vehicle leaves of the places of
    [veh_id]. *)
Lemma crossed_other (j f : nat) (veh_f : Vehicle.obj) sim (veh_id : nat) :
  f <> veh_id ->
  Simulation.vehicles (crossed j f veh_f sim) !! veh_id
    = Simulation.vehicles sim !! veh_id
  /\ forall m seg',
      Simulation.segments (crossed j f veh_f sim) !! m = Some seg' ->
      exists seg,
        Simulation.segments sim !! m = Some seg
        /\ Segment.get_length seg' = Segment.get_length seg
        /\ (veh_id ∉ Segment.vehicles seg -> veh_id ∉ Segment.vehicles seg')
        /\ (m <> j -> forall r,
              Segment.vehicles seg = veh_id :: r -> veh_id ∉ r ->
              exists r', Segment.vehicles seg' = veh_id :: r' /\ veh_id ∉ r').
Proof.
  intros Hne. split.
  - unfold crossed. cbn. apply lookup_insert_ne. exact Hne.
  - intros m seg'. unfold crossed. cbn [Simulation.segments Simulation.set_segments].
    rewrite segments_after_crossing_lookup.
    destruct (Simulation.segments sim !! m) as [seg|]; [|discriminate].
    cbn [fmap option_fmap option_map]. intros [= <-].
    exists seg. split; [reflexivity|]. split; [|split].
    + cbv zeta. destruct (decide (j = m)); destruct (decide (_ = Some m)); reflexivity.
    + intros Hout Hin. apply crossing_queue_elem in Hin as [Hin| ->];
        [exact (Hout Hin)|exact (Hne eq_refl)].
    + intros Hm r Hq Hr. cbv zeta.
      rewrite (decide_False (P := j = m)) by congruence.
      destruct (decide (_ = Some m)); cbn.
      * rewrite Hq. exists (r ++ [f]). split; [reflexivity|].
        intros Hin. apply elem_of_app in Hin as [Hin|Hin]; [exact (Hr Hin)|].
        apply list_elem_of_singleton in Hin. exact (Hne (eq_sym Hin)).
      * exists r. split; assumption.
Qed.

Lemma crossed_ready i veh_id veh sim segment rest :
  boundary_ready sim ->
  Simulation.segments sim !! i = Some segment ->
  Segment.vehicles segment = veh_id :: rest ->
  Simulation.vehicles sim !! veh_id = Some veh ->
  boundary_ready (crossed i veh_id veh sim).
Proof.
  intros [Hknown Hpaths] Hseg Hq Hveh. split.
  - unfold queues_known, crossed.
    cbn [Simulation.segments Simulation.vehicles Simulation.set_segments
         Simulation.set_vehicles].
    apply Forall_lookup. intros m seg'. rewrite segments_after_crossing_lookup.
    destruct (Simulation.segments sim !! m) as [seg|] eqn:Hm; [|discriminate].
    cbn [fmap option_fmap option_map]. intros [= <-].
    apply list.Forall_forall. intros w Hw.
    destruct (decide (w = veh_id)) as [->|Hne].
    + rewrite lookup_insert_eq. eexists. reflexivity.
    + rewrite lookup_insert_ne by congruence.
      apply crossing_queue_elem in Hw as [Hw|Hw]; [|contradiction].
      unfold queues_known in Hknown. rewrite Forall_lookup in Hknown.
      specialize (Hknown m seg Hm). unfold queue_known in Hknown.
      rewrite list.Forall_forall in Hknown. exact (Hknown w Hw).
  - intros w veh_w. unfold crossed.
    cbn [Simulation.segments Simulation.vehicles Simulation.set_segments
         Simulation.set_vehicles].
    rewrite segments_after_crossing_length.
    destruct (decide (w = veh_id)) as [->|Hne].
    + rewrite lookup_insert_eq. intros [= <-].
      unfold after_crossing.
      destruct (next_segment _ _); cbn; exact (Hpaths veh_id veh Hveh).
    + rewrite lookup_insert_ne by congruence. apply Hpaths.
Qed.

Lemma check_segment_total i sim :
  boundary_ready sim ->
  exists sim', Simulation.check_segment i sim = Ok sim' /\ boundary_ready sim'.
Proof.
  intros Hready.
  destruct (Simulation.segments sim !! i) as [segment|] eqn:Hseg.
  - destruct (Segment.vehicles segment) as [|veh_id rest] eqn:Hq.
    + exists sim. split; [|exact Hready].
      unfold Simulation.check_segment. rewrite Hseg, Hq. reflexivity.
    + destruct Hready as [Hknown Hpaths].
      assert (Hfront : is_Some (Simulation.vehicles sim !! veh_id)).
      { unfold queues_known in Hknown. rewrite Forall_lookup in Hknown.
        specialize (Hknown i segment Hseg). unfold queue_known in Hknown.
        rewrite Hq in Hknown. apply Forall_cons_1 in Hknown as [H _]. exact H. }
      destruct Hfront as [veh Hveh].
      destruct (Qlt_le_dec (Vehicle.x veh) (Segment.get_length segment)) as [Hin|Hout].
      * exists sim. split; [|split; assumption].
        exact (check_segment_short i sim segment veh_id rest veh Hseg Hq Hveh Hin).
      * exists (crossed i veh_id veh sim). split.
        -- apply (check_segment_crossing i sim segment veh_id rest veh Hseg Hq Hveh Hout).
           intros nxt Hnxt. specialize (Hpaths veh_id veh Hveh).
           rewrite list.Forall_forall in Hpaths. apply Hpaths.
           apply list_elem_of_lookup. eexists. exact Hnxt.
        -- apply (crossed_ready i veh_id veh sim segment rest); try assumption.
           split; assumption.
  - exists sim. split; [|exact Hready].
    unfold Simulation.check_segment. rewrite Hseg. reflexivity.
Qed.

Lemma check_segments_total idxs :
  forall sim,
    boundary_ready sim ->
    exists sim', Simulation.check_segments idxs sim = Ok sim' /\ boundary_ready sim'.
Proof.
  induction idxs as [|i rest IH]; intros sim Hready.
  - exists sim. split; [reflexivity|exact Hready].
  - destruct (check_segment_total i sim Hready) as (s1 & Hstep & Hready1).
    destruct (IH s1 Hready1) as (sim' & Hrun & Hready').
    exists sim'. split; [|exact Hready'].
    cbn [Simulation.check_segments]. rewrite Hstep. exact Hrun.
Qed.

(** A property kept by every turn over [idxs] is kept by the loop. *)
Lemma check_segments_invariant (Inv : Simulation.obj G -> Prop) idxs :
  (forall i s s', i ∈ idxs -> Inv s -> Simulation.check_segment i s = Ok s' -> Inv s') ->
  forall sim sim',
    Inv sim -> Simulation.check_segments idxs sim = Ok sim' -> Inv sim'.
Proof.
  induction idxs as [|i rest IH]; intros Hstep sim sim' Hinv Hrun.
  - injection Hrun as <-. exact Hinv.
  - cbn [Simulation.check_segments] in Hrun.
    apply bind_Ok in Hrun as (s1 & H1 & Hrun).
    apply (IH (fun j s s' Hj => Hstep j s s' (list_elem_of_further _ _ _ Hj)) s1 sim');
      [|exact Hrun].
    apply (Hstep i sim s1); [left|exact Hinv|exact H1].
Qed.

Lemma check_segments_app idxs1 idxs2 sim :
  Simulation.check_segments (idxs1 ++ idxs2) sim =
  (s1 <- Simulation.check_segments idxs1 sim ;; Simulation.check_segments idxs2 s1).
Proof.
  revert sim. induction idxs1 as [|i rest IH]; intros sim; [reflexivity|].
  cbn [app Simulation.check_segments].
  destruct (Simulation.check_segment i sim) as [s1|e]; [|reflexivity].
  cbn [bind]. apply IH.
Qed.

(** With segments of positive length no vehicle crosses twice within
    one run of the loop. *)
Lemma check_segments_once idxs sim sim' :
  Forall (fun seg => (0 < Segment.get_length seg)%Q) (Simulation.segments sim) ->
  Simulation.check_segments idxs sim = Ok sim' ->
  forall veh_id veh,
    Simulation.vehicles sim !! veh_id = Some veh ->
    exists veh',
      Simulation.vehicles sim' !! veh_id = Some veh'
      /\ at_most_one_boundary veh veh'.
Proof.
  intros Hpos Hrun.
  set (Inv := fun s : Simulation.obj G =>
                Forall (fun len => (0 < len)%Q) (Segment.get_length <$> Simulation.segments s)
                /\ forall veh_id veh,
                    Simulation.vehicles sim !! veh_id = Some veh ->
                    exists veh',
                      Simulation.vehicles s !! veh_id = Some veh'
                      /\ at_most_one_boundary veh veh').
  assert (Hfinal : Inv sim').
  { apply (check_segments_invariant Inv idxs) with (sim := sim); [| |exact Hrun].
    - intros i s s' _ [Hlen Hrel] Hstep.
      apply check_segment_Ok in Hstep
        as [->|(segment & f & rest & veh_f & Hseg & Hq & Hf & Hpast & ->)];
        [split; assumption|].
      split.
      + unfold crossed. cbn [Simulation.segments Simulation.set_segments].
        rewrite segments_after_crossing_lengths. exact Hlen.
      + intros veh_id veh Hveh. destruct (Hrel veh_id veh Hveh) as (cur & Hcur & Hone).
        unfold crossed. cbn [Simulation.vehicles Simulation.set_vehicles
                             Simulation.set_segments].
        destruct (decide (veh_id = f)) as [->|Hne].
        * rewrite lookup_insert_eq. eexists. split; [reflexivity|].
          rewrite Hf in Hcur. injection Hcur as <-.
          assert (Hlenpos : (0 < Segment.get_length segment)%Q).
          { rewrite list.Forall_forall in Hlen. apply Hlen.
            apply list_elem_of_fmap. exists segment. split; [reflexivity|].
            apply list_elem_of_lookup. exists i. exact Hseg. }
          destruct Hone as [->|(Hx & _)]; [|rewrite Hx in Hpast; lra].
          right. unfold after_crossing.
          destruct (next_segment _ _); cbn; auto.
        * rewrite lookup_insert_ne by congruence. exists cur. split; assumption.
    - split.
      + apply Forall_fmap. exact Hpos.
      + intros veh_id veh Hveh. exists veh. split; [exact Hveh|left; reflexivity]. }
  exact (proj2 Hfinal).
Qed.
End BoundaryLoop.

Section Tick.
Context {G : Type}.
Variable Vehicle_update : option Vehicle.obj -> Q -> Vehicle.obj -> Vehicle.obj.
Variable VehicleGenerator_update : G -> Simulation.obj G -> Simulation.obj G.
Implicit Types (sim : Simulation.obj G).

(** A tick is its first two loops, then the third, then the generators
    and the clock. *)
Lemma update_split sim s2 :
  before_boundary_check Vehicle_update sim = Ok s2 ->
  Simulation.update Vehicle_update VehicleGenerator_update sim =
  (s3 <- Simulation.check_out_of_bounds s2 ;;
   Ok (Simulation.tick_clock
         (Simulation.update_generators VehicleGenerator_update s3))).
Proof.
  unfold before_boundary_check, Simulation.update. intros H.
  apply bind_Ok in H as (s1 & Hs1 & Hs2). rewrite Hs1. cbn [bind].
  rewrite Hs2. reflexivity.
Qed.

(** The front vehicle of segment [i] leaves at the turn of [i] and, being
    queued nowhere else, is in no queue when the loop ends; its table
    entry stays, with [x] reset. *)
Lemma exit_through_loop sim i segment veh_id rest veh :
  boundary_ready sim ->
  Simulation.segments sim !! i = Some segment ->
  Segment.vehicles segment = veh_id :: rest ->
  veh_id ∉ rest ->
  (forall m seg, m <> i -> Simulation.segments sim !! m = Some seg ->
                 veh_id ∉ Segment.vehicles seg) ->
  Simulation.vehicles sim !! veh_id = Some veh ->
  (Segment.get_length segment <= Vehicle.x veh)%Q ->
  (length (Vehicle.path veh) <= S (Vehicle.current_road_index veh))%nat ->
  exists s3,
    Simulation.check_out_of_bounds sim = Ok s3
    /\ (forall m seg, Simulation.segments s3 !! m = Some seg ->
                      veh_id ∉ Segment.vehicles seg)
    /\ Simulation.vehicles s3 !! veh_id = Some (Vehicle.set_x 0 veh).
Proof.
  intros Hready Hseg Hq Hrest Helse Hveh Hpast Hlast.
  set (n := length (Simulation.segments sim)).
  assert (Hi : (i < n)%nat) by (apply lookup_lt_Some in Hseg; exact Hseg).
  assert (Hidx : seq 0 n = seq 0 i ++ i :: seq (S i) (n - S i)).
  { replace n with (i + S (n - S i))%nat at 1 by lia.
    rewrite seq_app. cbn [seq Nat.add]. reflexivity. }
  set (Before := fun s : Simulation.obj G =>
    (exists seg r, Simulation.segments s !! i = Some seg
                   /\ Segment.vehicles seg = veh_id :: r /\ (veh_id ∉ r)
                   /\ Segment.get_length seg = Segment.get_length segment)
    /\ (forall m seg, m <> i -> Simulation.segments s !! m = Some seg ->
                      veh_id ∉ Segment.vehicles seg)
    /\ Simulation.vehicles s !! veh_id = Some veh).
  set (After := fun s : Simulation.obj G =>
    (forall m seg, Simulation.segments s !! m = Some seg ->
                   veh_id ∉ Segment.vehicles seg)
    /\ Simulation.vehicles s !! veh_id = Some (Vehicle.set_x 0 veh)).
  destruct (check_segments_total (seq 0 i) sim Hready) as (s1 & Hrun1 & Hready1).
  assert (Hbefore : Before s1).
  { apply (check_segments_invariant Before (seq 0 i)) with (sim := sim);
      [| |exact Hrun1].
    - intros j s s' Hj [(seg & r & Hs & Hr & Hnr & Hlen) [Habsent Htab]] Hstep.
      assert (Hji : j <> i).
      { apply list_elem_of_lookup in Hj as [k Hk]. apply lookup_seq in Hk. lia. }
      apply check_segment_Ok in Hstep
        as [->|(seg_j & f & rest_j & veh_f & Hsj & Hqj & Hf & _ & ->)].
      { split; [exists seg, r; repeat split; assumption|split; assumption]. }
      assert (Hne : f <> veh_id).
      { intros ->. apply (Habsent j seg_j Hji Hsj). rewrite Hqj. left. }
      destruct (crossed_other j f veh_f s veh_id Hne) as [Htab' Hsegs'].
      split; [|split].
      + destruct (lookup_lt_is_Some_2 (Simulation.segments (crossed j f veh_f s)) i)
          as [seg' Hseg'].
        { unfold crossed. cbn [Simulation.segments Simulation.set_segments].
          rewrite segments_after_crossing_length.
          apply lookup_lt_Some in Hs. exact Hs. }
        destruct (Hsegs' i seg' Hseg') as (seg0 & Hs0 & Hlen' & _ & Hfront).
        rewrite Hs in Hs0. injection Hs0 as <-.
        destruct (Hfront (not_eq_sym Hji) r Hr Hnr) as (r' & Hr' & Hnr').
        exists seg', r'. repeat split; try assumption. congruence.
      + intros m seg' Hm Hseg'.
        destruct (Hsegs' m seg' Hseg') as (seg0 & Hs0 & _ & Hout & _).
        apply Hout. exact (Habsent m seg0 Hm Hs0).
      + rewrite Htab'. exact Htab.
    - split; [exists segment, rest; repeat split; assumption|split; assumption]. }
  destruct Hbefore as [(seg & r & Hs & Hr & Hnr & Hlen) [Habsent Htab]].
  assert (Hturn : Simulation.check_segment i s1 = Ok (crossed i veh_id veh s1)).
  { apply (check_segment_crossing i s1 seg veh_id r veh Hs Hr Htab).
    - rewrite Hlen. exact Hpast.
    - intros nxt Hnxt. apply lookup_lt_Some in Hnxt. lia. }
  assert (Hnone : next_segment (length (Simulation.segments s1)) veh = None).
  { unfold next_segment. rewrite (lookup_ge_None_2 _ _ Hlast). reflexivity. }
  assert (Hafter : After (crossed i veh_id veh s1)).
  { unfold After, crossed. rewrite Hnone.
    cbn [Simulation.segments Simulation.vehicles Simulation.set_segments
         Simulation.set_vehicles after_crossing]. split.
    - intros m seg'. rewrite segments_after_crossing_lookup.
      destruct (Simulation.segments s1 !! m) as [seg0|] eqn:Hm; [|discriminate].
      cbn [fmap option_fmap option_map]. intros [= <-]. cbv zeta.
      destruct (decide (i = m)) as [<-|Hne].
      + rewrite Hs in Hm. injection Hm as <-. cbn. rewrite Hr. exact Hnr.
      + exact (Habsent m seg0 (not_eq_sym Hne) Hm).
    - apply lookup_insert_eq. }
  destruct (check_segments_total (seq (S i) (n - S i)) (crossed i veh_id veh s1))
    as (s3 & Hrun3 & _).
  { exact (crossed_ready i veh_id veh s1 seg r Hready1 Hs Hr Htab). }
  assert (Hfinal : After s3).
  { apply (check_segments_invariant After (seq (S i) (n - S i)))
      with (sim := crossed i veh_id veh s1); [|exact Hafter|exact Hrun3].
    intros j s s' _ [Habs Htb] Hstep.
    apply check_segment_Ok in Hstep
      as [->|(seg_j & f & rest_j & veh_f & Hsj & Hqj & Hf & _ & ->)];
      [split; assumption|].
    assert (Hne : f <> veh_id).
    { intros ->. apply (Habs j seg_j Hsj). rewrite Hqj. left. }
    destruct (crossed_other j f veh_f s veh_id Hne) as [Htab' Hsegs'].
    split.
    - intros m seg' Hseg'.
      destruct (Hsegs' m seg' Hseg') as (seg0 & Hs0 & _ & Hout & _).
      apply Hout. exact (Habs m seg0 Hs0).
    - rewrite Htab'. exact Htb. }
  exists s3. split; [|exact Hfinal].
  unfold Simulation.check_out_of_bounds. fold n. rewrite Hidx.
  rewrite check_segments_app, Hrun1. cbn [bind Simulation.check_segments].
  rewrite Hturn. cbn [bind]. exact Hrun3.
Qed.
End Tick.

Section Preserved.
Context {G : Type}.
Implicit Types (sim : Simulation.obj G).

Lemma check_out_of_bounds_generators sim sim' :
  Simulation.check_out_of_bounds sim = Ok sim' ->
  Simulation.vehicle_generator sim' = Simulation.vehicle_generator sim.
Proof.
  unfold Simulation.check_out_of_bounds.
  apply (check_segments_invariant
           (fun s => Simulation.vehicle_generator s = Simulation.vehicle_generator sim));
    [|reflexivity].
  intros i s s' _ Hinv Hstep.
  apply check_segment_Ok in Hstep as [->|(? & ? & ? & ? & _ & _ & _ & _ & ->)];
    [exact Hinv|exact Hinv].
Qed.

Lemma before_boundary_check_generators vu sim sim' :
  before_boundary_check vu sim = Ok sim' ->
  Simulation.vehicle_generator sim' = Simulation.vehicle_generator sim.
Proof.
  unfold before_boundary_check, Simulation.update_signals, Simulation.update_vehicles.
  intros H. apply bind_Ok in H as (s1 & H1 & H2).
  apply bind_Ok in H1 as (items & _ & [= <-]).
  apply bind_Ok in H2 as (table & _ & [= <-]). reflexivity.
Qed.
End Preserved.

(** ** A vehicle at the end of its path *)

(** C1, as the code has it.  When the third loop of a tick finds at the
    front of a segment a vehicle at or past the end of that segment, with
    no further entry on its path and queued nowhere else, the tick drops
    it from that queue, so that it is in no queue afterwards, and keeps
    its entry in the vehicle table, with [x] reset to 0.  The rest of the
    tick is the generators and the clock; without generators the segments
    and the table stay as the loop left them. *)
Theorem exit_drops_from_queue_keeps_table_entry :
  forall (G : Type)
         (Vehicle_update : option Vehicle.obj -> Q -> Vehicle.obj -> Vehicle.obj)
         (VehicleGenerator_update : G -> Simulation.obj G -> Simulation.obj G)
         (sim0 sim : Simulation.obj G) (i : nat) (segment : Segment.obj)
         (veh_id : nat) (rest : list nat) (veh : Vehicle.obj),
    before_boundary_check Vehicle_update sim0 = Ok sim ->
    boundary_ready sim ->
    Simulation.segments sim !! i = Some segment ->
    Segment.vehicles segment = veh_id :: rest ->
    veh_id ∉ rest ->
    (forall m seg, m <> i -> Simulation.segments sim !! m = Some seg ->
                   veh_id ∉ Segment.vehicles seg) ->
    Simulation.vehicles sim !! veh_id = Some veh ->
    (Segment.get_length segment <= Vehicle.x veh)%Q ->
    (length (Vehicle.path veh) <= S (Vehicle.current_road_index veh))%nat ->
    exists s3 sim',
      Simulation.check_out_of_bounds sim = Ok s3
      /\ Simulation.update Vehicle_update VehicleGenerator_update sim0 = Ok sim'
      /\ sim' = Simulation.tick_clock
                  (Simulation.update_generators VehicleGenerator_update s3)
      /\ (forall m seg, Simulation.segments s3 !! m = Some seg ->
                        veh_id ∉ Segment.vehicles seg)
      /\ Simulation.vehicles s3 !! veh_id = Some (Vehicle.set_x 0 veh)
      /\ (Simulation.vehicle_generator sim0 = [] ->
          Simulation.segments sim' = Simulation.segments s3
          /\ Simulation.vehicles sim' = Simulation.vehicles s3).
Proof.
  intros G vu gu sim0 sim i segment veh_id rest veh
         Hbefore Hready Hseg Hq Hrest Helse Hveh Hpast Hlast.
  destruct (exit_through_loop sim i segment veh_id rest veh
              Hready Hseg Hq Hrest Helse Hveh Hpast Hlast) as (s3 & Hloop & Hgone & Hkept).
  exists s3. eexists. split; [exact Hloop|]. split.
  { rewrite (update_split vu gu sim0 sim Hbefore), Hloop. reflexivity. }
  split; [reflexivity|]. split; [exact Hgone|]. split; [exact Hkept|].
  intros Hnogen.
  assert (Hgens : Simulation.vehicle_generator s3 = []).
  { rewrite (check_out_of_bounds_generators _ _ Hloop).
    rewrite (before_boundary_check_generators _ _ _ Hbefore). exact Hnogen. }
  unfold Simulation.update_generators. rewrite Hgens. split; reflexivity.
Qed.

(** The claim as worded fails: after the third loop the vehicle that left
    the only segment of its path is still a key of the vehicle table. *)
Lemma exit_example_stays_in_table :
  Simulation.segments one_segment_exit !! 0%nat = Some (Segment.mk [7%nat] 10)
  /\ Simulation.vehicles one_segment_exit !! 7%nat = Some leaving_vehicle
  /\ (10 <= Vehicle.x leaving_vehicle)%Q
  /\ (length (Vehicle.path leaving_vehicle)
      <= S (Vehicle.current_road_index leaving_vehicle))%nat
  /\ exists sim',
      Simulation.check_out_of_bounds one_segment_exit = Ok sim'
      /\ Simulation.segments sim' = [Segment.mk [] 10]
      /\ Simulation.vehicles sim' !! 7%nat = Some (Vehicle.set_x 0 leaving_vehicle)
      /\ Simulation.vehicles sim' !! 7%nat <> None.
Proof.
  split; [reflexivity|]. split; [reflexivity|].
  split; [unfold leaving_vehicle; cbn; lra|]. split; [cbn; lia|].
  eexists. split; [vm_compute; reflexivity|].
  split; [reflexivity|]. split; [reflexivity|]. discriminate.
Qed.

(** ** Crossing to the next segment *)

Lemma check_segments_raised {G} (idxs : list nat) (e : exn) :
  foldl (fun acc i => bind acc (Simulation.check_segment (VehicleGenerator := G) i))
        (Raise e) idxs = Raise e.
Proof. induction idxs as [|i rest IH]; [reflexivity|exact IH]. Qed.

(** The loop is its turns, one for each index in the order given. *)
Lemma check_segments_turns {G} (idxs : list nat) :
  forall s : Simulation.obj G,
    Simulation.check_segments idxs s
    = foldl (fun acc i => bind acc (Simulation.check_segment i)) (Ok s) idxs.
Proof.
  induction idxs as [|i rest IH]; intros s; [reflexivity|].
  cbn [Simulation.check_segments foldl bind].
  destruct (Simulation.check_segment i s) as [s1|e]; cbn [bind].
  - apply IH.
  - symmetry. apply check_segments_raised.
Qed.

(** C6, as the code has it.  The third loop of a tick is one turn for
    each segment, in the order of the list, each on the simulation the
    turn before has left.  A turn looks at the front vehicle of its segment
    only: without a segment or with an empty queue it changes nothing;
    with a front vehicle short of the end of the segment it changes
    nothing, whatever stands behind it; with a front vehicle at or past
    the end and a next path entry that names segment [k], the vehicle is
    popped from the front of its queue, its [current_road_index] grows by
    one, its [x] becomes 0, its path and speed stay, its identifier goes to
    the back of the queue of [k], and no other vehicle is touched.  When
    every segment has a positive length the loop returns on every ready
    simulation and no vehicle crosses more than one boundary in it. *)
Theorem front_vehicle_crosses_one_boundary :
  forall (G : Type)
         (Vehicle_update : option Vehicle.obj -> Q -> Vehicle.obj -> Vehicle.obj)
         (VehicleGenerator_update : G -> Simulation.obj G -> Simulation.obj G)
         (sim0 sim : Simulation.obj G),
    before_boundary_check Vehicle_update sim0 = Ok sim ->
    Simulation.update Vehicle_update VehicleGenerator_update sim0 =
      (s3 <- Simulation.check_segments (seq 0 (length (Simulation.segments sim))) sim ;;
       Ok (Simulation.tick_clock
             (Simulation.update_generators VehicleGenerator_update s3)))
    /\ (forall (idxs : list nat) (s : Simulation.obj G),
          Simulation.check_segments idxs s
          = foldl (fun acc i => bind acc (Simulation.check_segment i)) (Ok s) idxs)
    /\ (forall (s : Simulation.obj G) i,
          (Simulation.segments s !! i = None
           \/ exists segment, Simulation.segments s !! i = Some segment
                              /\ Segment.vehicles segment = []) ->
          Simulation.check_segment i s = Ok s)
    /\ (forall (s : Simulation.obj G) i segment veh_id rest veh,
          Simulation.segments s !! i = Some segment ->
          Segment.vehicles segment = veh_id :: rest ->
          Simulation.vehicles s !! veh_id = Some veh ->
          ((Vehicle.x veh < Segment.get_length segment)%Q ->
             Simulation.check_segment i s = Ok s)
          /\ ((Segment.get_length segment <= Vehicle.x veh)%Q ->
              forall nxt k,
                Vehicle.path veh !! S (Vehicle.current_road_index veh) = Some nxt ->
                py_index (length (Simulation.segments s)) nxt = Some k ->
                exists s' veh',
                  Simulation.check_segment i s = Ok s'
                  /\ Simulation.vehicles s' = <[veh_id := veh']> (Simulation.vehicles s)
                  /\ Vehicle.current_road_index veh' = S (Vehicle.current_road_index veh)
                  /\ Vehicle.x veh' = 0%Q
                  /\ Vehicle.path veh' = Vehicle.path veh
                  /\ Vehicle.v veh' = Vehicle.v veh
                  /\ (forall seg_k,
                        i <> k -> Simulation.segments s !! k = Some seg_k ->
                        Segment.vehicles <$> Simulation.segments s' !! i = Some rest
                        /\ Segment.vehicles <$> Simulation.segments s' !! k
                           = Some (Segment.vehicles seg_k ++ [veh_id]))
                  /\ (i = k ->
                      Segment.vehicles <$> Simulation.segments s' !! i
                      = Some (rest ++ [veh_id]))
                  /\ (forall m, m <> i -> m <> k ->
                        Simulation.segments s' !! m = Simulation.segments s !! m)
                  /\ Segment.get_length <$> Simulation.segments s'
                     = Segment.get_length <$> Simulation.segments s
                  /\ (forall other, other <> veh_id ->
                        Simulation.vehicles s' !! other = Simulation.vehicles s !! other)))
    /\ (boundary_ready sim ->
        Forall (fun seg => (0 < Segment.get_length seg)%Q) (Simulation.segments sim) ->
        exists s3,
          Simulation.check_out_of_bounds sim = Ok s3
          /\ forall veh_id veh,
              Simulation.vehicles sim !! veh_id = Some veh ->
              exists veh',
                Simulation.vehicles s3 !! veh_id = Some veh'
                /\ at_most_one_boundary veh veh').
Proof.
  intros G vu gu sim0 sim Hbefore.
  split; [exact (update_split vu gu sim0 sim Hbefore)|].
  split; [exact check_segments_turns|]. split; [|split].
  - intros s i [Hnone|(segment & Hseg & Hempty)]; unfold Simulation.check_segment.
    + rewrite Hnone. reflexivity.
    + rewrite Hseg, Hempty. reflexivity.
  - intros s i segment veh_id rest veh Hseg Hq Hveh. split.
    + exact (check_segment_short i s segment veh_id rest veh Hseg Hq Hveh).
    + intros Hpast nxt k Hnxt Hk.
      exists (crossed i veh_id veh s).
      exists (Vehicle.set_x 0 (Vehicle.set_current_road_index
                                 (S (Vehicle.current_road_index veh)) veh)).
      assert (Htarget : next_segment (length (Simulation.segments s)) veh = Some k).
      { unfold next_segment. rewrite Hnxt. exact Hk. }
      split.
      { apply (check_segment_crossing i s segment veh_id rest veh Hseg Hq Hveh Hpast).
        intros nxt' Hnxt'. rewrite Hnxt in Hnxt'. injection Hnxt' as <-.
        rewrite Hk. eexists. reflexivity. }
      unfold crossed. rewrite Htarget.
      cbn [Simulation.segments Simulation.vehicles Simulation.set_segments
           Simulation.set_vehicles after_crossing].
      split; [reflexivity|]. split; [reflexivity|]. split; [reflexivity|].
      split; [reflexivity|]. split; [reflexivity|].
      split; [|split; [|split; [|split]]].
      * intros seg_k Hik Hsk.
        rewrite !segments_after_crossing_lookup, Hseg, Hsk.
        cbn [fmap option_fmap option_map]. cbv zeta.
        rewrite (decide_True (P := i = i)) by reflexivity.
        rewrite (decide_False (P := Some k = Some i)) by congruence.
        rewrite (decide_True (P := Some k = Some k)) by reflexivity.
        rewrite (decide_False (P := i = k)) by congruence.
        cbn. rewrite Hq. split; reflexivity.
      * intros <-.
        rewrite segments_after_crossing_lookup, Hseg.
        cbn [fmap option_fmap option_map]. cbv zeta.
        rewrite (decide_True (P := i = i)) by reflexivity.
        rewrite (decide_True (P := Some i = Some i)) by reflexivity.
        cbn. rewrite Hq. reflexivity.
      * intros m Hmi Hmk. rewrite segments_after_crossing_lookup.
        destruct (Simulation.segments s !! m) as [seg_m|]; [|reflexivity].
        cbn [fmap option_fmap option_map]. cbv zeta.
        rewrite (decide_False (P := i = m)) by congruence.
        rewrite (decide_False (P := Some k = Some m)) by congruence.
        reflexivity.
      * apply segments_after_crossing_lengths.
      * intros other Hother. apply lookup_insert_ne. congruence.
  - intros Hready Hpos.
    destruct (check_segments_total (seq 0 (length (Simulation.segments sim))) sim Hready)
      as (s3 & Hrun & _).
    exists s3. split; [exact Hrun|].
    exact (check_segments_once _ sim s3 Hpos Hrun).
Qed.

(** The positive length matters: over a segment of length 0 the loop
    carries a vehicle across two boundaries at once.  The vehicle stands
    at the end of the first of three segments with all three on its path,
    at index 0 of it; after the loop it is at index 2, queued on the
    third segment. *)
Remark zero_length_segment_is_crossed_at_once :
  Simulation.vehicles degenerate_middle !! 1%nat = Some through_vehicle
  /\ Vehicle.current_road_index through_vehicle = 0%nat
  /\ Segment.vehicles <$> Simulation.segments degenerate_middle = [[1%nat]; []; []]
  /\ Segment.get_length <$> Simulation.segments degenerate_middle = [100%Q; 0%Q; 100%Q]
  /\ (exists s3 veh',
        Simulation.check_out_of_bounds degenerate_middle = Ok s3
        /\ Simulation.vehicles s3 !! 1%nat = Some veh'
        /\ Vehicle.current_road_index veh' = 2%nat
        /\ Segment.vehicles <$> Simulation.segments s3 = [[]; []; [1%nat]])
  /\ exists sim' veh',
      Simulation.update coasting_update no_generation degenerate_middle = Ok sim'
      /\ Simulation.frame_count sim' = 1%nat
      /\ Simulation.vehicles sim' !! 1%nat = Some veh'
      /\ Vehicle.current_road_index veh' = 2%nat
      /\ Segment.vehicles <$> Simulation.segments sim' = [[]; []; [1%nat]].
Proof.
  split; [reflexivity|]. split; [reflexivity|]. split; [reflexivity|].
  split; [reflexivity|]. split.
  - eexists. eexists. split; [vm_compute; reflexivity|].
    split; [reflexivity|]. split; reflexivity.
  - eexists. eexists. split; [vm_compute; reflexivity|].
    split; [reflexivity|]. split; [reflexivity|]. split; reflexivity.
Qed.

(** ** A step longer than the cycle *)

(** The claim as worded fails: one update of a default signal with a step
    of 50 leaves the clock at 27, not below the cycle duration of 23, and
    the phase RED, where the sum modulo the cycle duration, 4, is a GREEN
    time. *)
Lemma long_step_is_not_wrapped :
  let signal := TrafficSignal.__init__ None in
  TrafficSignal.cycle_duration signal = 23%Q
  /\ exists sg',
      TrafficSignal.update [Segment.mk [] 50] ∅ 50 signal = Ok sg'
      /\ TrafficSignal._cycle_time sg' = 27%Q
      /\ ~ (TrafficSignal._cycle_time sg' < TrafficSignal.cycle_duration sg')%Q
      /\ TrafficSignal._state sg' = RED
      /\ (0 + 50 - 2 * 23 == 4)%Q
      /\ TrafficSignal.phase_of 4 sg' = GREEN.
Proof.
  cbv zeta. split; [reflexivity|].
  eexists. split; [vm_compute; reflexivity|].
  split; [reflexivity|]. split; [intros H; vm_compute in H; discriminate|].
  split; [reflexivity|]. split; [reflexivity|reflexivity].
Qed.

(** * The statements at concrete inputs *)

Lemma create_traffic_signal_bounds_witness :
  ((2 < 0 \/ 2 >= Z.of_nat (length (Simulation.segments two_segments)))%Z
   /\ Simulation.create_traffic_signal 2 None two_segments
      = (two_segments, Raise ValueError))
  /\ ((0 <= 1 < Z.of_nat (length (Simulation.segments two_segments)))%Z
      /\ exists signal,
          snd (Simulation.create_traffic_signal 1 None two_segments) = Ok signal).
Proof.
  assert (Hout : (2 < 0 \/ 2 >= Z.of_nat (length (Simulation.segments two_segments)))%Z)
    by (right; cbn; lia).
  assert (Hin : (0 <= 1 < Z.of_nat (length (Simulation.segments two_segments)))%Z)
    by (cbn; lia).
  split; split.
  - exact Hout.
  - exact (proj1 (create_traffic_signal_bounds unit two_segments 2 None) Hout).
  - exact Hin.
  - exact (proj2 (create_traffic_signal_bounds unit two_segments 1 None) Hin).
Defined.

Lemma create_traffic_signal_replaces_witness :
  (0 <= 0 < Z.of_nat (length (Simulation.segments guarded_segments)))%Z
  /\ Simulation.traffic_signals guarded_segments !! 0%Z = Some (TrafficSignal.__init__ None)
  /\ exists sim' signal,
      Simulation.create_traffic_signal 0 (Some longer_green) guarded_segments
        = (sim', Ok signal)
      /\ signal = created_signal 0 (Some longer_green)
      /\ Simulation.traffic_signals sim'
         = <[0%Z := signal]> (Simulation.traffic_signals guarded_segments)
      /\ Simulation.traffic_signals sim' !! 0%Z = Some signal
      /\ (forall j, j <> 0%Z ->
            Simulation.traffic_signals sim' !! j
            = Simulation.traffic_signals guarded_segments !! j)
      /\ dom (Simulation.traffic_signals sim') = dom (Simulation.traffic_signals guarded_segments)
      /\ size (Simulation.traffic_signals sim') = size (Simulation.traffic_signals guarded_segments)
      /\ sim' = Simulation.set_traffic_signals (Simulation.traffic_signals sim') guarded_segments.
Proof.
  assert (Hin : (0 <= 0 < Z.of_nat (length (Simulation.segments guarded_segments)))%Z)
    by (cbn; lia).
  assert (Hold : Simulation.traffic_signals guarded_segments !! 0%Z
                 = Some (TrafficSignal.__init__ None)) by reflexivity.
  split; [exact Hin|]. split; [exact Hold|].
  exact (create_traffic_signal_replaces unit guarded_segments 0 (Some longer_green)
           (TrafficSignal.__init__ None) Hin Hold).
Defined.

Lemma short_road_ready (signal : TrafficSignal.obj) :
  TrafficSignal.segment_index signal = 0%Z ->
  TrafficSignal._position_resolved signal = false ->
  signal_ready short_road ∅ signal.
Proof.
  intros Hidx Hres. split.
  - exists (Segment.mk [] 50). rewrite Hidx. split; [reflexivity|constructor].
  - rewrite Hres. discriminate.
Qed.

Lemma phantom_presence_after_update_witness :
  signal_ready short_road ∅ (TrafficSignal.__init__ None)
  /\ (exists sg', TrafficSignal.update short_road ∅ 1 (TrafficSignal.__init__ None) = Ok sg')
  /\ (exists sg',
        TrafficSignal.update short_road ∅ 14 (TrafficSignal.__init__ None) = Ok sg'
        /\ TrafficSignal._state sg' = RED
        /\ exists sp ph,
            TrafficSignal.stop_position sg' = Some sp
            /\ TrafficSignal._position_resolved sg' = true
            /\ TrafficSignal.phantom sg' = Some ph
            /\ Vehicle.x ph = sp /\ Vehicle.v ph = 0%Q
            /\ Vehicle.l ph = 0%Q /\ Vehicle.s0 ph = 0%Q)
  /\ (exists sg',
        TrafficSignal.update short_road ∅ 1 (TrafficSignal.__init__ None) = Ok sg'
        /\ TrafficSignal._state sg' = GREEN
        /\ TrafficSignal.phantom sg' = None
        /\ TrafficSignal._yellow_hold sg' = false).
Proof.
  assert (Hready : signal_ready short_road ∅ (TrafficSignal.__init__ None))
    by (apply short_road_ready; reflexivity).
  split; [exact Hready|]. split; [|split].
  - exact (proj1 (phantom_presence_after_update short_road ∅ 1
                    (TrafficSignal.__init__ None)) Hready).
  - eexists. split; [vm_compute; reflexivity|]. split; [reflexivity|].
    refine (proj1 (proj2 (phantom_presence_after_update short_road ∅ 14
                            (TrafficSignal.__init__ None)) _ _) _);
      [vm_compute; reflexivity|reflexivity].
  - eexists. split; [vm_compute; reflexivity|]. split; [reflexivity|].
    refine (proj2 (proj2 (phantom_presence_after_update short_road ∅ 1
                            (TrafficSignal.__init__ None)) _ _) _);
      [vm_compute; reflexivity|reflexivity].
Defined.

Lemma stop_position_resolved_once_witness :
  (TrafficSignal._position_resolved (TrafficSignal.__init__ None) = false
   /\ TrafficSignal.update short_road ∅ 1 (TrafficSignal.__init__ None)
      = Ok (TrafficSignal.mk 0 10 3 10 (Some 50%Q) 1 GREEN None true false)
   /\ TrafficSignal._position_resolved
        (TrafficSignal.mk 0 10 3 10 (Some 50%Q) 1 GREEN None true false) = true
   /\ exists segment,
       py_getitem short_road (TrafficSignal.segment_index (TrafficSignal.__init__ None))
         = Ok segment
       /\ TrafficSignal.stop_position
            (TrafficSignal.mk 0 10 3 10 (Some 50%Q) 1 GREEN None true false)
          = Some (default (Segment.get_length segment)
                          (TrafficSignal.stop_position (TrafficSignal.__init__ None))))
  /\ (TrafficSignal._position_resolved
        (TrafficSignal.mk 0 10 3 10 (Some 50%Q) 1 GREEN None true false) = true
      /\ TrafficSignal.update [Segment.mk [] 80] ∅ 1
           (TrafficSignal.mk 0 10 3 10 (Some 50%Q) 1 GREEN None true false)
         = Ok (TrafficSignal.mk 0 10 3 10 (Some 50%Q) 2 GREEN None true false)
      /\ TrafficSignal.stop_position
           (TrafficSignal.mk 0 10 3 10 (Some 50%Q) 2 GREEN None true false)
         = Some 50%Q)
  /\ (None ≫= TrafficSignal.cfg_stop_position = None
      /\ py_getitem short_road (TrafficSignal.segment_index (TrafficSignal.__init__ None))
         = Ok (Segment.mk [] 50)
      /\ Segment.get_length (Segment.mk [] 50) = 50%Q
      /\ queue_known ∅ (Segment.vehicles (Segment.mk [] 50))
      /\ Forall (tick_ready (TrafficSignal.segment_index (TrafficSignal.__init__ None)))
                [([Segment.mk [] 80], (∅ : gmap nat Vehicle.obj), 1%Q)]
      /\ exists sg',
          signal_updates [(short_road, ∅, 1%Q); ([Segment.mk [] 80], ∅, 1%Q)]
                         (TrafficSignal.__init__ None) = Ok sg'
          /\ TrafficSignal.stop_position sg' = Some 50%Q).
Proof.
  pose proof (stop_position_resolved_once None) as H. cbv zeta in H.
  destruct H as (Hfresh & _ & Hfirst & Hkept & _ & Hexample).
  assert (Hupd1 : TrafficSignal.update short_road ∅ 1 (TrafficSignal.__init__ None)
                  = Ok (TrafficSignal.mk 0 10 3 10 (Some 50%Q) 1 GREEN None true false))
    by (vm_compute; reflexivity).
  assert (Hupd2 : TrafficSignal.update [Segment.mk [] 80] ∅ 1
                    (TrafficSignal.mk 0 10 3 10 (Some 50%Q) 1 GREEN None true false)
                  = Ok (TrafficSignal.mk 0 10 3 10 (Some 50%Q) 2 GREEN None true false))
    by (vm_compute; reflexivity).
  split; [|split].
  - split; [exact Hfresh|]. split; [exact Hupd1|].
    exact (Hfirst short_road ∅ 1%Q (TrafficSignal.__init__ None) _ Hfresh Hupd1).
  - split; [reflexivity|]. split; [exact Hupd2|].
    exact (proj2 (Hkept [Segment.mk [] 80] ∅ 1%Q
                   (TrafficSignal.mk 0 10 3 10 (Some 50%Q) 1 GREEN None true false) _
                   eq_refl Hupd2)).
  - assert (Hlater : Forall (tick_ready (TrafficSignal.segment_index
                                           (TrafficSignal.__init__ None)))
                            [([Segment.mk [] 80], (∅ : gmap nat Vehicle.obj), 1%Q)]).
    { repeat constructor. exists (Segment.mk [] 80). split; [reflexivity|constructor]. }
    assert (Hknown : queue_known ∅ (Segment.vehicles (Segment.mk [] 50))) by constructor.
    split; [reflexivity|]. split; [reflexivity|]. split; [reflexivity|].
    split; [exact Hknown|]. split; [exact Hlater|].
    exact (Hexample short_road ∅ 1%Q _ (Segment.mk [] 50)
             eq_refl eq_refl eq_refl Hknown Hlater).
Defined.

Lemma braking_distance_guarded_witness :
  ((0 < Vehicle.b_max fast_vehicle)%Q
   /\ braking_estimate fast_vehicle
      = (Vehicle.v fast_vehicle ^ 2 / (2 * Vehicle.b_max fast_vehicle))%Q)
  /\ ((Vehicle.b_max brakeless_vehicle <= 0)%Q
      /\ braking_estimate brakeless_vehicle = 0%Q)
  /\ (queue_known brakeless_table [1%nat]
      /\ (forall veh, on_queue brakeless_table [1%nat] veh -> (Vehicle.b_max veh <= 0)%Q)
      /\ TrafficSignal.any_must_stop_loop brakeless_table (Some 100%Q) [1%nat] = Ok false)
  /\ (TrafficSignal.any_must_stop_loop approach_table (Some 100%Q) [1%nat] = Ok true
      /\ exists veh,
          on_queue approach_table [1%nat] veh /\ (0 < Vehicle.b_max veh)%Q
          /\ cannot_brake 100 veh).
Proof.
  destruct braking_distance_guarded as (Hveh & Hnever & Htrigger & _).
  assert (Hpos : (0 < Vehicle.b_max fast_vehicle)%Q) by (vm_compute; reflexivity).
  assert (Hzero : (Vehicle.b_max brakeless_vehicle <= 0)%Q)
    by (vm_compute; discriminate).
  assert (Hknown : queue_known brakeless_table [1%nat]).
  { repeat constructor. exists brakeless_vehicle. reflexivity. }
  assert (Hall : forall veh, on_queue brakeless_table [1%nat] veh ->
                             (Vehicle.b_max veh <= 0)%Q).
  { intros veh (veh_id & Hin & Hlook).
    apply list_elem_of_singleton in Hin. subst veh_id.
    vm_compute in Hlook. injection Hlook as <-. exact Hzero. }
  assert (Hloop : TrafficSignal.any_must_stop_loop approach_table (Some 100%Q) [1%nat]
                  = Ok true) by (vm_compute; reflexivity).
  split; [|split; [|split]].
  - split; [exact Hpos|]. exact (proj1 (proj2 (Hveh fast_vehicle)) Hpos).
  - split; [exact Hzero|]. exact (proj2 (proj2 (Hveh brakeless_vehicle)) Hzero).
  - split; [exact Hknown|]. split; [exact Hall|].
    exact (Hnever brakeless_table 100%Q [1%nat] Hknown Hall).
  - split; [exact Hloop|]. exact (Htrigger approach_table 100%Q [1%nat] Hloop).
Defined.

Lemma grid_estimates_known (veh : Vehicle.obj) :
  (exists bd, Rounded.braking_distance grid_arithmetic veh = Ok bd) ->
  estimates_known grid_arithmetic {[1%nat := veh]} [1%nat].
Proof.
  intros Hbd. constructor; [|constructor].
  exists veh. split; [apply lookup_singleton_eq|exact Hbd].
Qed.

Lemma yellow_hysteresis_witness :
  (rounded_ready grid_arithmetic approach_road approach_table (TrafficSignal.__init__ None)
   /\ TrafficSignal._yellow_hold (TrafficSignal.__init__ None) = false
   /\ exists sg1,
       Rounded.update grid_arithmetic approach_road approach_table 11
         (TrafficSignal.__init__ None) = Ok sg1
       /\ TrafficSignal._state sg1 = YELLOW
       /\ TrafficSignal.phantom sg1 = Some (phantom_at 100)
       /\ TrafficSignal._yellow_hold sg1 = true
       /\ exists veh, on_queue approach_table [1%nat] veh
                      /\ rounded_cannot_brake grid_arithmetic 100 veh)
  /\ (rounded_ready grid_arithmetic approach_road rolling_table latched_signal
      /\ TrafficSignal._yellow_hold latched_signal = true
      /\ still_moving 100 rolling_vehicle
      /\ exists sg2,
          Rounded.update grid_arithmetic approach_road rolling_table 1 latched_signal
          = Ok sg2
          /\ TrafficSignal._state sg2 = YELLOW
          /\ TrafficSignal.phantom sg2 = Some (phantom_at 100)
          /\ TrafficSignal._yellow_hold sg2 = true)
  /\ (rounded_ready grid_arithmetic approach_road creeping_table latched_signal
      /\ ~ still_moving 100 creeping_vehicle
      /\ exists sg2,
          Rounded.update grid_arithmetic approach_road creeping_table 1 latched_signal
          = Ok sg2
          /\ TrafficSignal._state sg2 = YELLOW
          /\ TrafficSignal.phantom sg2 = None
          /\ TrafficSignal._yellow_hold sg2 = false
          /\ ~ exists veh, on_queue creeping_table [1%nat] veh /\ still_moving 100 veh)
  /\ (exists trace,
        rounded_trace grid_arithmetic [(approach_road, rolling_table, 1%Q)] latched_signal
        = Ok trace
        /\ length trace = 1%nat
        /\ Forall (fun sg => TrafficSignal.phantom sg = Some (phantom_at 100)
                             /\ TrafficSignal._yellow_hold sg = true) trace)
  /\ ((80 <= Vehicle.x fast_vehicle)%Q
      /\ ~ rounded_cannot_brake grid_arithmetic 80 fast_vehicle
      /\ ~ still_moving 80 fast_vehicle).
Proof.
  destruct (yellow_hysteresis grid_arithmetic)
    as (Hstep & Hpersist & Hpast & Hthreshold & _ & _ & _).
  assert (Hready : forall veh signal,
             (exists bd, Rounded.braking_distance grid_arithmetic veh = Ok bd) ->
             TrafficSignal.segment_index signal = 0%Z ->
             (TrafficSignal._position_resolved signal = true ->
              is_Some (TrafficSignal.stop_position signal)) ->
             rounded_ready grid_arithmetic approach_road {[1%nat := veh]} signal).
  { intros veh signal Hbd Hidx Hnum. split; [|exact Hnum].
    exists (Segment.mk [1%nat] 100). rewrite Hidx. split; [reflexivity|].
    exact (grid_estimates_known veh Hbd). }
  assert (Hready0 : rounded_ready grid_arithmetic approach_road approach_table
                      (TrafficSignal.__init__ None)).
  { apply Hready; [eexists; vm_compute; reflexivity|reflexivity|discriminate]. }
  assert (Hready1 : rounded_ready grid_arithmetic approach_road rolling_table
                      latched_signal).
  { apply Hready; [eexists; vm_compute; reflexivity|reflexivity|].
    intros _. eexists. reflexivity. }
  assert (Hready2 : rounded_ready grid_arithmetic approach_road creeping_table
                      latched_signal).
  { apply Hready; [eexists; vm_compute; reflexivity|reflexivity|].
    intros _. eexists. reflexivity. }
  assert (Hrolling : still_moving 100 rolling_vehicle).
  { apply Hthreshold. split; vm_compute; reflexivity. }
  assert (Hcreeping : ~ still_moving 100 creeping_vehicle).
  { intros H. apply Hthreshold in H as [_ H]. vm_compute in H. discriminate. }
  assert (H80 : (80 <= Vehicle.x fast_vehicle)%Q) by (vm_compute; discriminate).
  split; [|split; [|split; [|split]]].
  - split; [exact Hready0|]. split; [reflexivity|].
    destruct (Hstep approach_road approach_table 11%Q (TrafficSignal.__init__ None) Hready0)
      as (sg1 & sp & segment & Hupd & Hsp & Hseg & Hyellow).
    exists sg1.
    assert (Hrun : exists sg,
               Rounded.update grid_arithmetic approach_road approach_table 11
                 (TrafficSignal.__init__ None) = Ok sg
               /\ TrafficSignal._state sg = YELLOW
               /\ TrafficSignal.stop_position sg = Some 100%Q
               /\ TrafficSignal.phantom sg = Some (phantom_at 100)
               /\ TrafficSignal._yellow_hold sg = true).
    { eexists. split; [vm_compute; reflexivity|]. repeat split; reflexivity. }
    destruct Hrun as (sg & Hrun & Hst & Hsp' & Hph & Hhold).
    rewrite Hupd in Hrun. injection Hrun as <-.
    rewrite Hsp in Hsp'. injection Hsp' as ->. injection Hseg as <-.
    split; [exact Hupd|]. split; [exact Hst|]. split; [exact Hph|].
    split; [exact Hhold|].
    destruct (proj1 (Hyellow Hst) eq_refl) as [(Ht & _)|(_ & Hnone & _)]; [exact Ht|].
    rewrite Hph in Hnone. discriminate.
  - split; [exact Hready1|]. split; [reflexivity|]. split; [exact Hrolling|].
    destruct (Hstep approach_road rolling_table 1%Q latched_signal Hready1)
      as (sg2 & sp & segment & Hupd & Hsp & Hseg & Hyellow).
    exists sg2.
    assert (Hrun : exists sg,
               Rounded.update grid_arithmetic approach_road rolling_table 1
                 latched_signal = Ok sg
               /\ TrafficSignal._state sg = YELLOW
               /\ TrafficSignal.stop_position sg = Some 100%Q).
    { eexists. split; [vm_compute; reflexivity|]. split; reflexivity. }
    destruct Hrun as (sg & Hrun & Hst & Hsp').
    rewrite Hupd in Hrun. injection Hrun as <-.
    rewrite Hsp in Hsp'. injection Hsp' as ->. injection Hseg as <-.
    split; [exact Hupd|]. split; [exact Hst|].
    destruct (proj2 (Hyellow Hst) eq_refl) as [(_ & Hph & Hhold)|(Hnone & _)].
    + split; assumption.
    + exfalso. apply Hnone. exists rolling_vehicle. split; [|exact Hrolling].
      exists 1%nat. split; [left|reflexivity].
  - split; [exact Hready2|]. split; [exact Hcreeping|].
    destruct (Hstep approach_road creeping_table 1%Q latched_signal Hready2)
      as (sg2 & sp & segment & Hupd & Hsp & Hseg & Hyellow).
    exists sg2.
    assert (Hrun : exists sg,
               Rounded.update grid_arithmetic approach_road creeping_table 1
                 latched_signal = Ok sg
               /\ TrafficSignal._state sg = YELLOW
               /\ TrafficSignal.stop_position sg = Some 100%Q
               /\ TrafficSignal.phantom sg = None).
    { eexists. split; [vm_compute; reflexivity|]. repeat split; reflexivity. }
    destruct Hrun as (sg & Hrun & Hst & Hsp' & Hph).
    rewrite Hupd in Hrun. injection Hrun as <-.
    rewrite Hsp in Hsp'. injection Hsp' as ->. injection Hseg as <-.
    split; [exact Hupd|]. split; [exact Hst|]. split; [exact Hph|].
    destruct (proj2 (Hyellow Hst) eq_refl) as [(_ & Hsome & _)|(Hnone & _ & Hhold)].
    + rewrite Hph in Hsome. discriminate.
    + split; assumption.
  - assert (Hrun : exists trace,
               rounded_trace grid_arithmetic [(approach_road, rolling_table, 1%Q)]
                 latched_signal = Ok trace
               /\ length trace = 1%nat
               /\ Forall (fun sg => TrafficSignal._state sg = YELLOW) trace).
    { eexists. split; [vm_compute; reflexivity|]. split; [reflexivity|].
      repeat constructor. }
    destruct Hrun as (trace & Htrace & Hlen & Hst).
    exists trace. split; [exact Htrace|]. split; [exact Hlen|].
    apply (Hpersist 0%Z 100%Q [(approach_road, rolling_table, 1%Q)] latched_signal
                    trace eq_refl eq_refl eq_refl eq_refl Htrace).
    destruct trace as [|sg [|? ?]]; try discriminate.
    apply Forall_cons_1 in Hst as [Hst _].
    constructor; [|constructor]. split; [exact Hst|].
    exists (Segment.mk [1%nat] 100), rolling_vehicle.
    split; [reflexivity|]. split; [|split; [|exact Hrolling]].
    + repeat constructor. exists rolling_vehicle. reflexivity.
    + exists 1%nat. split; [left|reflexivity].
  - split; [exact H80|]. exact (Hpast 80%Q fast_vehicle H80).
Defined.

Lemma to_grid_close (a : Q) :
  (a - (1 # 2199023255552) <= to_grid a)%Q /\ (to_grid a <= a + (1 # 2199023255552))%Q.
Proof.
  unfold to_grid, grid.
  pose proof (Qfloor_le (a * 1099511627776 + (1 # 2))) as Hle.
  pose proof (Qlt_floor (a * 1099511627776 + (1 # 2))) as Hlt.
  rewrite inject_Z_plus in Hlt. change (inject_Z 1) with 1%Q in Hlt.
  set (f := inject_Z (Qfloor (a * 1099511627776 + (1 # 2)))) in *.
  split; lra.
Qed.

Lemma grid_rounds_within (bound : Q) :
  rounds_within grid_arithmetic (1 # 2199023255552) bound.
Proof.
  intros a b. split; intros _ _; cbn [f_add f_sub grid_arithmetic]; apply to_grid_close.
Qed.

Lemma short_road_tick_ready (step : Q) :
  rounded_tick_ready grid_arithmetic 0 (short_road, ∅, step).
Proof. exists (Segment.mk [] 50). split; [reflexivity|constructor]. Qed.

Lemma phase_clock_cycle_witness :
  let tk : tick := (short_road, ∅, (1 # 60)%Q) in
  rounds_within grid_arithmetic (1 # 2199023255552) 64
  /\ (exists sg',
        rounded_updates grid_arithmetic (replicate 300 tk) (TrafficSignal.__init__ None)
        = Ok sg'
        /\ TrafficSignal._state sg' = GREEN)
  /\ (exists sg',
        rounded_updates grid_arithmetic (replicate 700 tk) (TrafficSignal.__init__ None)
        = Ok sg'
        /\ TrafficSignal._state sg' = YELLOW)
  /\ (exists sg',
        rounded_updates grid_arithmetic (replicate 1000 tk) (TrafficSignal.__init__ None)
        = Ok sg'
        /\ TrafficSignal._state sg' = RED)
  /\ (exists sg',
        rounded_updates grid_arithmetic (replicate 1400 tk) (TrafficSignal.__init__ None)
        = Ok sg'
        /\ TrafficSignal._state sg' = GREEN).
Proof.
  intros tk.
  pose proof (phase_clock_cycle grid_arithmetic None) as Hclaim. cbv zeta in Hclaim.
  destruct Hclaim as (_ & _ & Hschedule).
  assert (Hat : forall n,
             (4 * elapsed (length (replicate n tk)) (1 # 2199023255552)
              + 3 * (1 # 2199023255552) < 1 # 60)%Q ->
             exists sg',
               rounded_updates grid_arithmetic (replicate n tk) (TrafficSignal.__init__ None)
               = Ok sg'
               /\ let time := elapsed (length (replicate n tk)) (1 # 60) in
                  ((time + (1 # 60) <= 10)%Q -> TrafficSignal._state sg' = GREEN)
                  /\ ((10 + (1 # 60) <= time)%Q -> (time + (1 # 60) <= 10 + 3)%Q ->
                      TrafficSignal._state sg' = YELLOW)
                  /\ ((10 + 3 + (1 # 60) <= time)%Q -> (time + (1 # 60) <= 10 + 3 + 10)%Q ->
                      TrafficSignal._state sg' = RED)
                  /\ ((10 + 3 + 10 + (1 # 60) <= time)%Q ->
                      (time + (1 # 60) <= 10 + 3 + 10 + 10)%Q ->
                      TrafficSignal._state sg' = GREEN)).
  { intros n Hsmall.
    destruct (Hschedule (1 # 2199023255552)%Q 64%Q (1 # 60)%Q (replicate n tk)
                (grid_rounds_within 64)) as [Hreturns Hphases].
    - vm_compute. discriminate.
    - vm_compute. reflexivity.
    - vm_compute. discriminate.
    - vm_compute. discriminate.
    - vm_compute. discriminate.
    - vm_compute. discriminate.
    - apply Forall_replicate. reflexivity.
    - exact Hsmall.
    - destruct Hreturns as [sg' Hrun].
      { apply Forall_replicate. exact (short_road_tick_ready (1 # 60)). }
      exists sg'. split; [exact Hrun|exact (Hphases sg' Hrun)]. }
  split; [exact (grid_rounds_within 64)|].
  split; [|split; [|split]].
  - destruct (Hat 300%nat) as (sg' & Hrun & Hgreen & _); [vm_compute; reflexivity|].
    exists sg'. split; [exact Hrun|]. apply Hgreen. vm_compute. discriminate.
  - destruct (Hat 700%nat) as (sg' & Hrun & _ & Hyellow & _); [vm_compute; reflexivity|].
    exists sg'. split; [exact Hrun|]. apply Hyellow; vm_compute; discriminate.
  - destruct (Hat 1000%nat) as (sg' & Hrun & _ & _ & Hred & _); [vm_compute; reflexivity|].
    exists sg'. split; [exact Hrun|]. apply Hred; vm_compute; discriminate.
  - destruct (Hat 1400%nat) as (sg' & Hrun & _ & _ & _ & Hwrap); [vm_compute; reflexivity|].
    exists sg'. split; [exact Hrun|]. apply Hwrap; vm_compute; discriminate.
Defined.


Lemma convoy_queues_known : queues_known convoy.
Proof. repeat constructor; eexists; reflexivity. Qed.

Lemma convoy_queued_once : NoDup (queued_ids (Simulation.segments convoy)).
Proof. apply (bool_decide_unpack _). vm_compute. exact I. Qed.


Lemma two_segment_moved_ready : boundary_ready two_segment_moved.
Proof.
  split.
  - repeat constructor. eexists. reflexivity.
  - intros veh_id veh H. unfold two_segment_moved in H.
    cbn [Simulation.vehicles] in H.
    apply lookup_singleton_Some in H as [<- <-].
    repeat constructor; eexists; reflexivity.
Qed.

Lemma front_vehicle_crosses_one_boundary_witness :
  before_boundary_check coasting_update two_segment_start = Ok two_segment_moved
  /\ (Simulation.segments two_segment_moved !! 0%nat = Some (Segment.mk [1%nat] 100)
      /\ Simulation.vehicles two_segment_moved !! 1%nat
         = Some (coasting_update None (1 # 60) crossing_vehicle)
      /\ (100 <= Vehicle.x (coasting_update None (1 # 60) crossing_vehicle))%Q
      /\ Vehicle.path (coasting_update None (1 # 60) crossing_vehicle) !! 1%nat = Some 1%Z
      /\ py_index (length (Simulation.segments two_segment_moved)) 1 = Some 1%nat
      /\ exists s' veh',
          Simulation.check_segment 0 two_segment_moved = Ok s'
          /\ Simulation.vehicles s' !! 1%nat = Some veh'
          /\ Vehicle.current_road_index veh' = 1%nat
          /\ Vehicle.x veh' = 0%Q
          /\ Segment.vehicles <$> Simulation.segments s' !! 0%nat = Some []
          /\ Segment.vehicles <$> Simulation.segments s' !! 1%nat = Some [1%nat])
  /\ (boundary_ready two_segment_moved
      /\ Forall (fun seg => (0 < Segment.get_length seg)%Q)
                (Simulation.segments two_segment_moved)
      /\ exists s3,
          Simulation.check_out_of_bounds two_segment_moved = Ok s3
          /\ forall veh_id veh,
              Simulation.vehicles two_segment_moved !! veh_id = Some veh ->
              exists veh',
                Simulation.vehicles s3 !! veh_id = Some veh'
                /\ at_most_one_boundary veh veh').
Proof.
  assert (Hbefore : before_boundary_check coasting_update two_segment_start
                    = Ok two_segment_moved) by (vm_compute; reflexivity).
  destruct (front_vehicle_crosses_one_boundary unit coasting_update no_generation
              two_segment_start two_segment_moved Hbefore)
    as (_ & _ & _ & Hturn & Hloop).
  assert (Hpast : (100 <= Vehicle.x (coasting_update None (1 # 60) crossing_vehicle))%Q)
    by (vm_compute; discriminate).
  assert (Hpos : Forall (fun seg => (0 < Segment.get_length seg)%Q)
                        (Simulation.segments two_segment_moved))
    by (repeat constructor).
  split; [exact Hbefore|]. split.
  - split; [reflexivity|]. split; [reflexivity|]. split; [exact Hpast|].
    split; [reflexivity|]. split; [reflexivity|].
    destruct (proj2 (Hturn two_segment_moved 0%nat (Segment.mk [1%nat] 100) 1%nat []
                           (coasting_update None (1 # 60) crossing_vehicle)
                           eq_refl eq_refl eq_refl)
                    Hpast 1%Z 1%nat eq_refl eq_refl)
      as (s' & veh' & Hstep & Htable & Hindex & Hx & _ & _ & Hqueues & _).
    exists s', veh'. split; [exact Hstep|].
    split; [rewrite Htable; apply lookup_insert_eq|].
    split; [exact Hindex|]. split; [exact Hx|].
    exact (Hqueues (Segment.mk [] 100) ltac:(discriminate) eq_refl).
  - split; [exact two_segment_moved_ready|]. split; [exact Hpos|].
    exact (Hloop two_segment_moved_ready Hpos).
Defined.

Lemma one_segment_exit_moved_ready : boundary_ready one_segment_exit_moved.
Proof.
  split.
  - repeat constructor. eexists. reflexivity.
  - intros veh_id veh H. unfold one_segment_exit_moved in H.
    cbn [Simulation.vehicles] in H.
    apply lookup_singleton_Some in H as [<- <-].
    repeat constructor; eexists; reflexivity.
Qed.

Lemma one_segment_exit_moved_elsewhere :
  forall m seg,
    m <> 0%nat -> Simulation.segments one_segment_exit_moved !! m = Some seg ->
    7%nat ∉ Segment.vehicles seg.
Proof. intros [|m] seg Hm H; [congruence|discriminate]. Qed.

Lemma exit_drops_from_queue_keeps_table_entry_witness :
  before_boundary_check coasting_update one_segment_exit = Ok one_segment_exit_moved
  /\ boundary_ready one_segment_exit_moved
  /\ Simulation.segments one_segment_exit_moved !! 0%nat = Some (Segment.mk [7%nat] 10)
  /\ (7%nat ∉ ([] : list nat))
  /\ Simulation.vehicles one_segment_exit_moved !! 7%nat
     = Some (coasting_update None (1 # 60) leaving_vehicle)
  /\ (10 <= Vehicle.x (coasting_update None (1 # 60) leaving_vehicle))%Q
  /\ (length (Vehicle.path (coasting_update None (1 # 60) leaving_vehicle))
      <= S (Vehicle.current_road_index (coasting_update None (1 # 60) leaving_vehicle)))%nat
  /\ exists s3 sim',
      Simulation.check_out_of_bounds one_segment_exit_moved = Ok s3
      /\ Simulation.update coasting_update no_generation one_segment_exit = Ok sim'
      /\ (forall m seg, Simulation.segments s3 !! m = Some seg ->
                        7%nat ∉ Segment.vehicles seg)
      /\ Simulation.vehicles s3 !! 7%nat
         = Some (Vehicle.set_x 0 (coasting_update None (1 # 60) leaving_vehicle))
      /\ Simulation.vehicles sim' = Simulation.vehicles s3.
Proof.
  assert (Hbefore : before_boundary_check coasting_update one_segment_exit
                    = Ok one_segment_exit_moved) by (vm_compute; reflexivity).
  assert (Hfresh : 7%nat ∉ ([] : list nat)) by (apply not_elem_of_nil).
  assert (Hpast : (10 <= Vehicle.x (coasting_update None (1 # 60) leaving_vehicle))%Q)
    by (vm_compute; discriminate).
  assert (Hlast : (length (Vehicle.path (coasting_update None (1 # 60) leaving_vehicle))
                   <= S (Vehicle.current_road_index
                           (coasting_update None (1 # 60) leaving_vehicle)))%nat)
    by (cbn; lia).
  split; [exact Hbefore|]. split; [exact one_segment_exit_moved_ready|].
  split; [reflexivity|]. split; [exact Hfresh|]. split; [reflexivity|].
  split; [exact Hpast|]. split; [exact Hlast|].
  destruct (exit_drops_from_queue_keeps_table_entry unit coasting_update no_generation
              one_segment_exit one_segment_exit_moved 0%nat (Segment.mk [7%nat] 10)
              7%nat [] (coasting_update None (1 # 60) leaving_vehicle)
              Hbefore one_segment_exit_moved_ready eq_refl eq_refl Hfresh
              one_segment_exit_moved_elsewhere eq_refl Hpast Hlast)
    as (s3 & sim' & Hloop & Hupd & _ & Hgone & Hkept & Hnogen).
  exists s3, sim'. split; [exact Hloop|]. split; [exact Hupd|].
  split; [exact Hgone|]. split; [exact Hkept|].
  exact (proj2 (Hnogen eq_refl)).
Defined.

(** * Further properties of the signal *)

Lemma py_getitem_raises {A} (items : list A) (i : Z) (e : exn) :
  py_getitem items i = Raise e -> e = IndexError.
Proof.
  unfold py_getitem.
  destruct (py_index (length items) i); [destruct (items !! _)|]; congruence.
Qed.

Lemma py_getitem_cases {A} (items : list A) (i : Z) :
  (exists val, py_getitem items i = Ok val) \/ py_getitem items i = Raise IndexError.
Proof.
  destruct (py_getitem items i) as [val|e] eqn:E.
  - left. exists val. reflexivity.
  - right. rewrite (py_getitem_raises _ _ _ E). reflexivity.
Qed.

(** What [_update_phantom] can return. *)
Lemma update_phantom_Ok_cases segments vehicles signal sg' :
  TrafficSignal._update_phantom segments vehicles signal = Ok sg' ->
  (sg' = TrafficSignal.set_phantom None false signal
   /\ TrafficSignal._state signal <> RED)
  \/ exists sp,
      TrafficSignal.stop_position signal = Some sp
      /\ ((sg' = TrafficSignal.set_phantom (Some (phantom_at sp)) true signal
           /\ TrafficSignal._state signal = YELLOW)
          \/ (sg' = TrafficSignal.set_phantom (Some (phantom_at sp)) false signal
              /\ TrafficSignal._state signal = RED)).
Proof.
  unfold TrafficSignal._update_phantom, TrafficSignal._make_phantom.
  destruct (TrafficSignal._state signal) eqn:Hst.
  - intros [= <-]. left. split; [reflexivity|discriminate].
  - destruct (TrafficSignal._yellow_hold signal).
    + intros H. apply bind_Ok in H as ([|] & _ & H).
      * injection H as <-. left. split; [reflexivity|discriminate].
      * destruct (TrafficSignal.stop_position signal) as [sp|]; [|discriminate].
        cbn in H. injection H as <-. right. exists sp.
        split; [reflexivity|]. left. split; reflexivity.
    + intros H. apply bind_Ok in H as ([|] & _ & H).
      * destruct (TrafficSignal.stop_position signal) as [sp|]; [|discriminate].
        cbn in H. injection H as <-. right. exists sp.
        split; [reflexivity|]. left. split; reflexivity.
      * injection H as <-. left. split; [reflexivity|discriminate].
  - destruct (TrafficSignal.stop_position signal) as [sp|]; [|discriminate].
    cbn. intros [= <-]. right. exists sp.
    split; [reflexivity|]. right. split; reflexivity.
Qed.

(** X1. After any update that returns, a phantom, when there is one, is
    the stationary vehicle at the resolved stop position and the phase
    is not GREEN; the hold flag is set only in YELLOW, and in YELLOW it is
    set exactly when there is a phantom. *)
Theorem hold_flag_tracks_yellow_phantom :
  forall (segments : list Segment.obj) (vehicles : gmap nat Vehicle.obj)
         (step : Q) (signal sg' : TrafficSignal.obj),
    TrafficSignal.update segments vehicles step signal = Ok sg' ->
    (forall ph,
        TrafficSignal.phantom sg' = Some ph ->
        TrafficSignal._state sg' <> GREEN
        /\ exists sp, TrafficSignal.stop_position sg' = Some sp /\ ph = phantom_at sp)
    /\ (TrafficSignal._yellow_hold sg' = true ->
        TrafficSignal._state sg' = YELLOW /\ is_Some (TrafficSignal.phantom sg'))
    /\ (TrafficSignal._state sg' = YELLOW ->
        is_Some (TrafficSignal.phantom sg') ->
        TrafficSignal._yellow_hold sg' = true).
Proof.
  intros segments vehicles step signal sg' Hupd.
  apply update_Ok_shape in Hupd as (sg1 & ph0 & hold0 & _ & Hph & _).
  apply update_phantom_Ok_cases in Hph
    as [[-> Hst]|(sp & Hsp & [[-> Hst]|[-> Hst]])]; cbn.
  - split; [discriminate|]. split; [discriminate|].
    intros _ [ph Hph]. discriminate.
  - split; [|split].
    + intros ph [= <-]. split.
      * change (TrafficSignal._state (ticked step sg1) <> GREEN). rewrite Hst. discriminate.
      * exists sp. split; [exact Hsp|reflexivity].
    + intros _. split; [exact Hst|]. eexists. reflexivity.
    + reflexivity.
  - split; [|split].
    + intros ph [= <-]. split.
      * change (TrafficSignal._state (ticked step sg1) <> GREEN). rewrite Hst. discriminate.
      * exists sp. split; [exact Hsp|reflexivity].
    + discriminate.
    + change (TrafficSignal._state (ticked step sg1) = YELLOW -> is_Some (Some (phantom_at sp)) -> false = true).
      rewrite Hst. discriminate.
Qed.

Lemma hold_flag_tracks_yellow_phantom_witness :
  TrafficSignal.update approach_road approach_table 11 (TrafficSignal.__init__ None)
    = Ok latched_signal
  /\ TrafficSignal.phantom latched_signal = Some (phantom_at 100)
  /\ TrafficSignal._yellow_hold latched_signal = true
  /\ (TrafficSignal._state latched_signal <> GREEN
      /\ exists sp, TrafficSignal.stop_position latched_signal = Some sp
                    /\ phantom_at 100 = phantom_at sp)
  /\ (TrafficSignal._state latched_signal = YELLOW
      /\ is_Some (TrafficSignal.phantom latched_signal)).
Proof.
  assert (Hupd : TrafficSignal.update approach_road approach_table 11
                   (TrafficSignal.__init__ None) = Ok latched_signal)
    by (vm_compute; reflexivity).
  destruct (hold_flag_tracks_yellow_phantom approach_road approach_table 11%Q
              (TrafficSignal.__init__ None) latched_signal Hupd) as (Hph & Hhold & _).
  split; [exact Hupd|]. split; [reflexivity|]. split; [reflexivity|].
  split; [exact (Hph (phantom_at 100) eq_refl)|exact (Hhold eq_refl)].
Defined.

Lemma all_stopped_loop_raises vehicles sp queue e :
  TrafficSignal.all_stopped_loop vehicles (Some sp) queue = Raise e ->
  e = KeyError /\ exists veh_id, veh_id ∈ queue /\ vehicles !! veh_id = None.
Proof.
  induction queue as [|veh_id rest IH]; [discriminate|].
  cbn [TrafficSignal.all_stopped_loop]. unfold dict_getitem.
  destruct (vehicles !! veh_id) as [veh|] eqn:Hveh.
  - cbn [bind py_number]. intros H.
    assert (Hrest : TrafficSignal.all_stopped_loop vehicles (Some sp) rest = Raise e).
    { destruct (Qlt_le_dec (Vehicle.x veh) sp); [|exact H].
      destruct (Qlt_le_dec _ _); [discriminate|exact H]. }
    destruct (IH Hrest) as (He & w & Hw & Hnone).
    split; [exact He|]. exists w. split; [right; exact Hw|exact Hnone].
  - cbn. intros [= <-]. split; [reflexivity|].
    exists veh_id. split; [left|exact Hveh].
Qed.

(** The braking distance raises what the square raises, or
    [ZeroDivisionError] when the doubled [b_max] is computed as zero. *)
Lemma rounded_braking_distance_raises ar veh e :
  Rounded.braking_distance ar veh = Raise e ->
  (0 < Vehicle.b_max veh)%Q
  /\ (f_square ar (Vehicle.v veh) = Raise e
      \/ (e = ZeroDivisionError /\ (f_mul ar 2 (Vehicle.b_max veh) == 0)%Q)).
Proof.
  unfold Rounded.braking_distance, Rounded.truediv.
  destruct (Qlt_le_dec 0 (Vehicle.b_max veh)) as [Hpos|Hnon]; [|discriminate].
  intros H. split; [exact Hpos|].
  destruct (f_square ar (Vehicle.v veh)) as [square|e0]; cbn [bind] in H.
  - destruct (Qeq_bool (f_mul ar 2 (Vehicle.b_max veh)) 0) eqn:Hzero; [|discriminate].
    injection H as <-. right. split; [reflexivity|]. apply Qeq_bool_iff. exact Hzero.
  - left. exact H.
Qed.

Lemma rounded_any_must_stop_loop_raises ar vehicles sp queue e :
  Rounded.any_must_stop_loop ar vehicles (Some sp) queue = Raise e ->
  (e = KeyError /\ exists veh_id, veh_id ∈ queue /\ vehicles !! veh_id = None)
  \/ (exists veh_id veh,
        veh_id ∈ queue /\ vehicles !! veh_id = Some veh
        /\ behind_line sp veh
        /\ Rounded.braking_distance ar veh = Raise e).
Proof.
  induction queue as [|veh_id rest IH]; [discriminate|].
  cbn [Rounded.any_must_stop_loop]. unfold dict_getitem.
  destruct (vehicles !! veh_id) as [veh|] eqn:Hveh.
  - cbn [bind py_number]. intros H.
    assert (Hrest : Rounded.any_must_stop_loop ar vehicles (Some sp) rest = Raise e ->
                    (e = KeyError
                     /\ exists w, w ∈ veh_id :: rest /\ vehicles !! w = None)
                    \/ (exists w veh', w ∈ veh_id :: rest /\ vehicles !! w = Some veh'
                                       /\ behind_line sp veh'
                                       /\ Rounded.braking_distance ar veh' = Raise e)).
    { intros Hr. destruct (IH Hr) as [(He & w & Hw & Hnone)|(w & veh' & Hw & Hrest)].
      - left. split; [exact He|]. exists w. split; [right; exact Hw|exact Hnone].
      - right. exists w, veh'. split; [right; exact Hw|exact Hrest]. }
    destruct (Qlt_le_dec (Vehicle.x veh) sp) as [Hbehind|Hpast]; [|exact (Hrest H)].
    destruct (Rounded.braking_distance ar veh) as [bd|e0] eqn:Hbd; cbn [bind] in H.
    + destruct (Qlt_le_dec _ _); [discriminate|exact (Hrest H)].
    + injection H as <-. right. exists veh_id, veh.
      split; [left|]. split; [exact Hveh|]. split; [exact Hbehind|exact Hbd].
  - cbn. intros [= <-]. left. split; [reflexivity|].
    exists veh_id. split; [left|exact Hveh].
Qed.

(** The phase that a rounded update writes depends on the clock and the
    durations only, which resolution leaves alone. *)
Lemma rounded_resolve_position_ticked ar segments step signal sg1 :
  TrafficSignal.resolve_position segments signal = Ok sg1 ->
  TrafficSignal._state (rounded_ticked ar step sg1) =
    Rounded.phase_of ar (Rounded.advance_clock ar step signal) signal
  /\ TrafficSignal.segment_index (rounded_ticked ar step sg1)
     = TrafficSignal.segment_index signal
  /\ TrafficSignal._yellow_hold (rounded_ticked ar step sg1)
     = TrafficSignal._yellow_hold signal
  /\ TrafficSignal.stop_position (rounded_ticked ar step sg1)
     = TrafficSignal.stop_position sg1.
Proof.
  intros Hres.
  apply resolve_position_Ok in Hres as (_ & Hi & Hg & Hy & Hr & Hc & Hh & _).
  cbn. unfold Rounded.advance_clock, Rounded.phase_of, Rounded.cycle_duration.
  rewrite Hg, Hy, Hr, Hc. repeat split; assumption.
Qed.

Lemma rounded_update_phantom_yellow_raises ar segments vehicles signal sp e :
  TrafficSignal._state signal = YELLOW ->
  TrafficSignal.stop_position signal = Some sp ->
  Rounded._update_phantom ar segments vehicles signal = Raise e ->
  (e = IndexError
   /\ forall segment,
       py_getitem segments (TrafficSignal.segment_index signal) <> Ok segment)
  \/ (e = KeyError
      /\ exists segment veh_id,
          py_getitem segments (TrafficSignal.segment_index signal) = Ok segment
          /\ veh_id ∈ Segment.vehicles segment
          /\ vehicles !! veh_id = None)
  \/ (TrafficSignal._yellow_hold signal = false
      /\ exists segment veh_id veh,
          py_getitem segments (TrafficSignal.segment_index signal) = Ok segment
          /\ veh_id ∈ Segment.vehicles segment
          /\ vehicles !! veh_id = Some veh
          /\ behind_line sp veh
          /\ Rounded.braking_distance ar veh = Raise e).
Proof.
  intros Hst Hsp. unfold Rounded._update_phantom. rewrite Hst.
  unfold Rounded._any_vehicle_must_stop,
    TrafficSignal._all_blocked_vehicles_stopped.
  rewrite (make_phantom_at _ _ Hsp), Hsp.
  destruct (py_getitem segments (TrafficSignal.segment_index signal))
    as [segment|e0] eqn:Hseg.
  - cbn [bind]. intros H. right.
    destruct (TrafficSignal._yellow_hold signal).
    + destruct (TrafficSignal.all_stopped_loop vehicles (Some sp)
                  (Segment.vehicles segment)) as [[|]|e1] eqn:Hl;
        cbn in H; try discriminate.
      injection H as <-.
      destruct (all_stopped_loop_raises _ _ _ _ Hl) as (He & veh_id & Hin & Hnone).
      left. split; [exact He|]. exists segment, veh_id. repeat split; assumption.
    + destruct (Rounded.any_must_stop_loop ar vehicles (Some sp)
                  (Segment.vehicles segment)) as [[|]|e1] eqn:Hl;
        cbn in H; try discriminate.
      injection H as <-.
      destruct (rounded_any_must_stop_loop_raises _ _ _ _ _ Hl)
        as [(He & veh_id & Hin & Hnone)|(veh_id & veh & Hin & Hveh & Hb & Hbd)].
      * left. split; [exact He|]. exists segment, veh_id. repeat split; assumption.
      * right. split; [reflexivity|]. exists segment, veh_id, veh.
        repeat split; assumption.
  - rewrite (py_getitem_raises _ _ _ Hseg). cbn [bind]. intros H. left.
    split; [|discriminate].
    destruct (TrafficSignal._yellow_hold signal); cbn in H; congruence.
Qed.

(** X2. Which exceptions an update of a signal raises, computed with
    the arithmetic [ar] of the machine, for a signal whose position, once
    marked resolved, is a number.  An update of a resolved signal that
    ends in GREEN or RED returns whatever the simulation holds.  An update
    that needs the guarded segment, because the position is unresolved
    (even with a configured stop position) or the new phase is YELLOW,
    raises [IndexError] when that segment does not exist.  Whatever an
    update raises is [IndexError] for a missing segment, [KeyError] for a
    queued identifier missing from the vehicle table during YELLOW, or
    what the braking distance of a queued vehicle behind the line with
    [b_max > 0] raises during a YELLOW without hold: the exception of
    [v ** 2], or [ZeroDivisionError] if [2.0 * b_max] were computed as
    zero.  With a square that raises nothing but [OverflowError] and a
    doubling that keeps positive numbers away from zero, an update raises
    nothing but [IndexError], [KeyError] or [OverflowError]. *)
Theorem signal_update_exceptions :
  forall (ar : arithmetic) (segments : list Segment.obj)
         (vehicles : gmap nat Vehicle.obj)
         (step : Q) (signal : TrafficSignal.obj),
    (TrafficSignal._position_resolved signal = true ->
     is_Some (TrafficSignal.stop_position signal)) ->
    let phase := Rounded.phase_of ar (Rounded.advance_clock ar step signal) signal in
    let needs_segment := TrafficSignal._position_resolved signal = false \/ phase = YELLOW in
    let no_segment :=
      forall segment,
        py_getitem segments (TrafficSignal.segment_index signal) <> Ok segment in
    let raised (e : exn) :=
      (e = IndexError /\ needs_segment /\ no_segment)
      \/ (e = KeyError /\ phase = YELLOW
          /\ exists segment veh_id,
              py_getitem segments (TrafficSignal.segment_index signal) = Ok segment
              /\ veh_id ∈ Segment.vehicles segment
              /\ vehicles !! veh_id = None)
      \/ (phase = YELLOW /\ TrafficSignal._yellow_hold signal = false
          /\ exists segment veh_id veh,
              py_getitem segments (TrafficSignal.segment_index signal) = Ok segment
              /\ veh_id ∈ Segment.vehicles segment
              /\ vehicles !! veh_id = Some veh
              /\ (0 < Vehicle.b_max veh)%Q
              /\ (f_square ar (Vehicle.v veh) = Raise e
                  \/ (e = ZeroDivisionError
                      /\ (f_mul ar 2 (Vehicle.b_max veh) == 0)%Q))) in
    (~ needs_segment ->
       exists sg', Rounded.update ar segments vehicles step signal = Ok sg')
    /\ (needs_segment -> no_segment ->
        Rounded.update ar segments vehicles step signal = Raise IndexError)
    /\ (forall e,
          Rounded.update ar segments vehicles step signal = Raise e -> raised e)
    /\ ((forall a e, f_square ar a = Raise e -> e = OverflowError) ->
        (forall b, (0 < b)%Q -> ~ (f_mul ar 2 b == 0)%Q) ->
        forall e,
          Rounded.update ar segments vehicles step signal = Raise e ->
          e = IndexError \/ e = KeyError \/ e = OverflowError).
Proof.
  intros ar segments vehicles step signal Hnum phase needs_segment no_segment raised.
  assert (Hmain :
            (~ needs_segment ->
             exists sg', Rounded.update ar segments vehicles step signal = Ok sg')
            /\ (needs_segment -> no_segment ->
                Rounded.update ar segments vehicles step signal = Raise IndexError)
            /\ (forall e,
                  Rounded.update ar segments vehicles step signal = Raise e -> raised e)).
  { rewrite rounded_update_unfold.
    destruct (TrafficSignal.resolve_position segments signal) as [sg1|e0] eqn:Hres.
    - cbn [bind].
      destruct (rounded_resolve_position_ticked ar segments step signal sg1 Hres)
        as (Hst & Hidx & Hhold & Hstop).
      fold phase in Hst.
      assert (Hsp : exists sp,
                 TrafficSignal.stop_position (rounded_ticked ar step sg1) = Some sp).
      { rewrite Hstop. pose proof Hres as Hres'.
        apply resolve_position_Ok in Hres'
          as (_ & _ & _ & _ & _ & _ & _ & Hkept & Hfirst).
        destruct (TrafficSignal._position_resolved signal) eqn:Hwas.
        - rewrite (Hkept eq_refl). destruct (Hnum eq_refl) as [sp Hsp].
          exists sp. exact Hsp.
        - destruct (Hfirst eq_refl) as (segment & _ & ->). eexists. reflexivity. }
      destruct Hsp as [sp Hsp].
      assert (Hfound : TrafficSignal._position_resolved signal = false ->
                       ~ no_segment).
      { intros Hwas Hno. unfold TrafficSignal.resolve_position in Hres.
        rewrite Hwas in Hres. apply bind_Ok in Hres as (segment & Hseg & _).
        exact (Hno segment Hseg). }
      destruct phase eqn:Hphase.
      + unfold Rounded._update_phantom. rewrite Hst.
        split; [intros _; eexists; reflexivity|]. split; [|discriminate].
        intros [Hwas|Hy] Hno; [exfalso; exact (Hfound Hwas Hno)|discriminate].
      + split; [intros Hnot; exfalso; apply Hnot; right; reflexivity|]. split.
        * intros _ Hno.
          unfold Rounded._update_phantom, Rounded._any_vehicle_must_stop,
            TrafficSignal._all_blocked_vehicles_stopped.
          rewrite Hst, Hidx.
          destruct (py_getitem_cases segments (TrafficSignal.segment_index signal))
            as [[segment Hseg]| ->]; [exfalso; exact (Hno segment Hseg)|].
          destruct (TrafficSignal._yellow_hold (rounded_ticked ar step sg1));
            reflexivity.
        * intros e He.
          apply (rounded_update_phantom_yellow_raises _ _ _ _ sp e Hst Hsp) in He.
          rewrite Hidx, Hhold in He.
          destruct He as [[-> Hno]|[[-> Hkey]|(Hfree & segment & veh_id & veh
                                               & Hseg & Hin & Hveh & _ & Hbd)]].
          -- left. split; [reflexivity|]. split; [right; reflexivity|exact Hno].
          -- right. left. split; [reflexivity|]. split; [reflexivity|exact Hkey].
          -- right. right. split; [reflexivity|]. split; [exact Hfree|].
             destruct (rounded_braking_distance_raises ar veh e Hbd) as [Hpos Hwhy].
             exists segment, veh_id, veh. repeat split; assumption.
      + unfold Rounded._update_phantom. rewrite Hst, (make_phantom_at _ _ Hsp).
        split; [intros _; eexists; reflexivity|]. split; [|discriminate].
        intros [Hwas|Hy] Hno; [exfalso; exact (Hfound Hwas Hno)|discriminate].
    - cbn [bind]. unfold TrafficSignal.resolve_position in Hres.
      destruct (TrafficSignal._position_resolved signal) eqn:Hwas; [discriminate|].
      destruct (py_getitem segments (TrafficSignal.segment_index signal))
        as [segment|e1] eqn:Hseg; [discriminate|].
      cbn in Hres. injection Hres as <-.
      rewrite (py_getitem_raises _ _ _ Hseg).
      split; [intros Hnot; exfalso; apply Hnot; left; reflexivity|].
      split; [reflexivity|].
      intros e [= <-]. left. split; [reflexivity|]. split; [left; reflexivity|].
      intros segment Hok. discriminate. }
  destruct Hmain as (Hreturns & Hindex & Hraised).
  split; [exact Hreturns|]. split; [exact Hindex|]. split; [exact Hraised|].
  intros Hsquare Hdouble e He.
  destruct (Hraised e He)
    as [(-> & _)|[(-> & _)|(_ & _ & segment & veh_id & veh
                            & _ & _ & _ & Hpos & [Hsq|[_ Hzero]])]].
  - left. reflexivity.
  - right. left. reflexivity.
  - right. right. exact (Hsquare _ _ Hsq).
  - exfalso. exact (Hdouble _ Hpos Hzero).
Qed.

Lemma signal_update_exceptions_witness :
  (* a resolved signal in GREEN needs no simulation at all *)
  ((TrafficSignal._position_resolved
      (TrafficSignal.mk 0 10 3 10 (Some 50%Q) 1 GREEN None true false) = true ->
    is_Some (TrafficSignal.stop_position
               (TrafficSignal.mk 0 10 3 10 (Some 50%Q) 1 GREEN None true false)))
   /\ exists sg',
       Rounded.update grid_arithmetic [] ∅ 1
         (TrafficSignal.mk 0 10 3 10 (Some 50%Q) 1 GREEN None true false) = Ok sg')
  (* a new signal with a configured stop position still needs its segment *)
  /\ (TrafficSignal._position_resolved (created_signal 0 (Some
         (TrafficSignal.mk_config None None None None (Some 40%Q)))) = false
      /\ Rounded.update grid_arithmetic [] ∅ 1
           (created_signal 0 (Some (TrafficSignal.mk_config None None None None (Some 40%Q))))
         = Raise IndexError)
  (* a queued identifier without table entry, met in YELLOW *)
  /\ (Rounded.update grid_arithmetic approach_road ∅ 1 latched_signal = Raise KeyError
      /\ exists segment veh_id,
          py_getitem approach_road (TrafficSignal.segment_index latched_signal) = Ok segment
          /\ veh_id ∈ Segment.vehicles segment
          /\ (∅ : gmap nat Vehicle.obj) !! veh_id = None)
  (* a speed whose square is too large, met in YELLOW without hold *)
  /\ (Rounded.update grid_arithmetic approach_road runaway_table 11
        (TrafficSignal.__init__ None) = Raise OverflowError
      /\ f_square grid_arithmetic (Vehicle.v runaway_vehicle) = Raise OverflowError)
  (* exact arithmetic raises for lookups only *)
  /\ (Rounded.update exact_arithmetic approach_road ∅ 1 latched_signal = Raise KeyError
      /\ (KeyError = IndexError \/ KeyError = KeyError \/ KeyError = OverflowError)).
Proof.
  assert (Hnum1 : TrafficSignal._position_resolved
                    (TrafficSignal.mk 0 10 3 10 (Some 50%Q) 1 GREEN None true false) = true ->
                  is_Some (TrafficSignal.stop_position
                             (TrafficSignal.mk 0 10 3 10 (Some 50%Q) 1 GREEN None true false)))
    by (intros _; eexists; reflexivity).
  assert (Hnum2 : TrafficSignal._position_resolved latched_signal = true ->
                  is_Some (TrafficSignal.stop_position latched_signal))
    by (intros _; eexists; reflexivity).
  split; [|split; [|split; [|split]]].
  - split; [exact Hnum1|].
    apply (proj1 (signal_update_exceptions grid_arithmetic [] ∅ 1%Q _ Hnum1)).
    intros [H|H]; vm_compute in H; discriminate.
  - split; [reflexivity|].
    apply (proj1 (proj2 (signal_update_exceptions grid_arithmetic [] ∅ 1%Q
             (created_signal 0 (Some (TrafficSignal.mk_config None None None None (Some 40%Q))))
             ltac:(discriminate)))).
    + left. reflexivity.
    + intros segment H. vm_compute in H. discriminate.
  - assert (Hraise : Rounded.update grid_arithmetic approach_road ∅ 1 latched_signal
                     = Raise KeyError) by (vm_compute; reflexivity).
    split; [exact Hraise|].
    destruct (proj1 (proj2 (proj2 (signal_update_exceptions grid_arithmetic
                approach_road ∅ 1%Q latched_signal Hnum2))) KeyError Hraise)
      as [(Hbad & _)|[(_ & _ & Hkey)|(_ & Hfree & _)]];
      [discriminate|exact Hkey|discriminate].
  - assert (Hraise : Rounded.update grid_arithmetic approach_road runaway_table 11
                       (TrafficSignal.__init__ None) = Raise OverflowError)
      by (vm_compute; reflexivity).
    split; [exact Hraise|].
    destruct (proj1 (proj2 (proj2 (signal_update_exceptions grid_arithmetic
                approach_road runaway_table 11%Q (TrafficSignal.__init__ None)
                ltac:(discriminate)))) OverflowError Hraise)
      as [(Hbad & _)|[(Hbad & _)|(_ & _ & segment & veh_id & veh
                                   & Hseg & Hin & Hveh & _ & [Hsq|[Hbad _]])]];
      try discriminate.
    injection Hseg as <-. apply list_elem_of_singleton in Hin. subst veh_id.
    unfold runaway_table in Hveh. rewrite lookup_singleton_eq in Hveh.
    injection Hveh as <-. exact Hsq.
  - assert (Hraise : Rounded.update exact_arithmetic approach_road ∅ 1 latched_signal
                     = Raise KeyError) by (vm_compute; reflexivity).
    split; [exact Hraise|].
    apply (proj2 (proj2 (proj2 (signal_update_exceptions exact_arithmetic
             approach_road ∅ 1%Q latched_signal Hnum2)))); [| |exact Hraise].
    + intros a e H. discriminate.
    + intros b Hb Hzero. cbn [f_mul exact_arithmetic] in Hzero. lra.
Defined.

(** ** The clock over any number of updates *)

(** With a step of at least the cycle duration, and some room for the
    rounding, every update subtracts the cycle duration once and the clock
    does not come back into the cycle. *)
Section RoundedLongStep.
Variable ar : arithmetic.
Variables eps bound dt g y r : Q.
Hypothesis Hround : rounds_within ar eps bound.
Hypothesis Heps : (0 <= eps)%Q.
Hypothesis Hg : (0 <= g)%Q.
Hypothesis Hy : (0 <= y)%Q.
Hypothesis Hr : (0 <= r)%Q.
Hypothesis Hlong : (g + y + r + 4 * eps <= dt)%Q.

Lemma rounded_long_step (ticks : list tick) :
  forall signal sg',
    TrafficSignal.green_duration signal = g ->
    TrafficSignal.yellow_duration signal = y ->
    TrafficSignal.red_duration signal = r ->
    Forall (fun tk : tick => snd tk = dt) ticks ->
    (- eps <= TrafficSignal._cycle_time signal)%Q ->
    (TrafficSignal._cycle_time signal
     + elapsed (length ticks) (dt - (g + y + r) + 4 * eps) + dt + eps <= bound)%Q ->
    rounded_updates ar ticks signal = Ok sg' ->
    (TrafficSignal._cycle_time signal <= TrafficSignal._cycle_time sg')%Q
    /\ (TrafficSignal._cycle_time signal
        + elapsed (length ticks) (dt - (g + y + r) - 4 * eps)
        <= TrafficSignal._cycle_time sg')%Q
    /\ (TrafficSignal._cycle_time sg'
        <= TrafficSignal._cycle_time signal
           + elapsed (length ticks) (dt - (g + y + r) + 4 * eps))%Q
    /\ (ticks <> [] ->
        TrafficSignal._state sg'
        = Rounded.phase_of ar (TrafficSignal._cycle_time sg') signal).
Proof.
  induction ticks as [|[[segs vehs] step] rest IH];
    intros signal sg' Eg Ey Er Hsteps Hlo Hroom Hrun.
  - injection Hrun as <-. cbn [length].
    pose proof (elapsed_0 (dt - (g + y + r) - 4 * eps)).
    pose proof (elapsed_0 (dt - (g + y + r) + 4 * eps)).
    split; [lra|]. split; [lra|]. split; [lra|congruence].
  - cbn [rounded_updates] in Hrun. apply bind_Ok in Hrun as (sg1 & Hupd & Hrun).
    apply Forall_cons_1 in Hsteps as [Hstep Hsteps]. cbn [snd] in Hstep. subst step.
    destruct (rounded_update_Ok_frame ar _ _ _ _ _ Hupd)
      as (_ & Eg1 & Ey1 & Er1 & _ & Hclock & Hstate & _).
    cbn [length] in Hroom.
    pose proof (elapsed_S (length rest) (dt - (g + y + r) + 4 * eps)) as Hup.
    pose proof (elapsed_S (length rest) (dt - (g + y + r) - 4 * eps)) as Hdown.
    pose proof (elapsed_nonneg (length rest) (dt - (g + y + r) + 4 * eps) ltac:(lra))
      as Hpos.
    set (c := TrafficSignal._cycle_time signal) in *.
    assert (Hone : (c + dt - (g + y + r) - 4 * eps <= TrafficSignal._cycle_time sg1)%Q
                   /\ (TrafficSignal._cycle_time sg1
                       <= c + dt - (g + y + r) + 4 * eps)%Q).
    { rewrite Hclock. unfold Rounded.advance_clock, Rounded.cycle_duration.
      rewrite Eg, Ey, Er. fold c.
      destruct (proj1 (Hround g y)) as [Hy1 Hy2]; [lra|lra|].
      destruct (proj1 (Hround (f_add ar g y) r)) as [Hc1 Hc2]; [lra|lra|].
      destruct (proj1 (Hround c dt)) as [Hs1 Hs2]; [lra|lra|].
      destruct (Qlt_le_dec (f_add ar c dt) (f_add ar (f_add ar g y) r)) as [Hno|Hwrap];
        [lra|].
      destruct (proj2 (Hround (f_add ar c dt) (f_add ar (f_add ar g y) r)))
        as [Hd1 Hd2]; [lra|lra|].
      split; lra. }
    destruct Hone as [Hone1 Hone2].
    destruct (IH sg1 sg' ltac:(congruence) ltac:(congruence) ltac:(congruence)
                 Hsteps ltac:(lra) ltac:(lra) Hrun) as (Hmono & Hlow & Hupp & Hphase).
    cbn [length]. split; [lra|]. split; [lra|]. split; [lra|].
    intros _. destruct rest as [|tk rest'].
    + injection Hrun as <-. exact Hstate.
    + rewrite (Hphase ltac:(discriminate)).
      unfold Rounded.phase_of. rewrite Eg1, Ey1. reflexivity.
Qed.
End RoundedLongStep.

(** X3. The clock is the elapsed time modulo the cycle duration up to
    rounding.  For an arithmetic within [eps] of the exact one, a signal
    whose clock lies in the cycle and a step between [eps] and the cycle
    duration less [4 * eps], after any number [k] of updates the clock
    still lies in the cycle (from [- eps] to the computed cycle duration)
    and is within [(k + 3 * w) * eps] of the old clock plus [k] steps less
    [w] exact cycle durations, for some number [w <= k] of wraps; and the
    phase is the phase of that clock. *)
Theorem clock_is_elapsed_time_within_rounding :
  forall (ar : arithmetic) (eps bound step : Q) (signal sg' : TrafficSignal.obj)
         (ticks : list tick),
    let g := TrafficSignal.green_duration signal in
    let y := TrafficSignal.yellow_duration signal in
    let r := TrafficSignal.red_duration signal in
    rounds_within ar eps bound ->
    (0 <= eps)%Q -> (eps <= step)%Q ->
    (0 <= g)%Q -> (0 <= y)%Q -> (0 <= r)%Q ->
    (step + 4 * eps <= g + y + r)%Q ->
    (g + y + r + step + 3 * eps <= bound)%Q ->
    (- eps <= TrafficSignal._cycle_time signal)%Q ->
    (TrafficSignal._cycle_time signal < Rounded.cycle_duration ar signal)%Q ->
    Forall (fun tk : tick => snd tk = step) ticks ->
    rounded_updates ar ticks signal = Ok sg' ->
    (- eps <= TrafficSignal._cycle_time sg')%Q
    /\ (TrafficSignal._cycle_time sg' < Rounded.cycle_duration ar signal)%Q
    /\ (ticks <> [] ->
        TrafficSignal._state sg'
        = Rounded.phase_of ar (TrafficSignal._cycle_time sg') signal)
    /\ exists w : nat,
        (w <= length ticks)%nat
        /\ (TrafficSignal._cycle_time signal + elapsed (length ticks) step
            - elapsed w (g + y + r)
            - (elapsed (length ticks) eps + elapsed w (3 * eps))
            <= TrafficSignal._cycle_time sg')%Q
        /\ (TrafficSignal._cycle_time sg'
            <= TrafficSignal._cycle_time signal + elapsed (length ticks) step
               - elapsed w (g + y + r)
               + (elapsed (length ticks) eps + elapsed w (3 * eps)))%Q.
Proof.
  intros ar eps bound step signal sg' ticks g y r
         Hround Heps Hstep Hg Hy Hr Hshort Hbound Hlo Hhi Hsteps Hrun.
  destruct (rounded_clock_within ar eps bound step g y r Hround Heps Hstep Hg Hy Hr
              Hshort Hbound ticks signal sg' eq_refl eq_refl eq_refl
              Hsteps Hlo Hhi Hrun) as ([Hlo' Hhi'] & Hphase & Hw).
  split; [exact Hlo'|]. split; [exact Hhi'|]. split; [exact Hphase|exact Hw].
Qed.

(** X4. A long step is never wrapped back into the cycle.  For an
    arithmetic within [eps] of the exact one and a step of at least the
    cycle duration plus [4 * eps], every update subtracts the cycle
    duration once and no more: the clock never decreases, after [k] updates
    it has grown by [k * (step - cycle)] up to [4 * k * eps], and a signal
    whose clock has reached the end of YELLOW is RED after every further
    update. *)
Theorem long_step_never_wraps :
  forall (ar : arithmetic) (eps bound step : Q) (signal sg' : TrafficSignal.obj)
         (ticks : list tick),
    let g := TrafficSignal.green_duration signal in
    let y := TrafficSignal.yellow_duration signal in
    let r := TrafficSignal.red_duration signal in
    let clock := TrafficSignal._cycle_time signal in
    rounds_within ar eps bound ->
    (0 <= eps)%Q -> (0 <= g)%Q -> (0 <= y)%Q -> (0 <= r)%Q ->
    (g + y + r + 4 * eps <= step)%Q ->
    (- eps <= clock)%Q ->
    (clock + elapsed (length ticks) (step - (g + y + r) + 4 * eps) + step + eps
     <= bound)%Q ->
    Forall (fun tk : tick => snd tk = step) ticks ->
    rounded_updates ar ticks signal = Ok sg' ->
    (clock <= TrafficSignal._cycle_time sg')%Q
    /\ (clock + elapsed (length ticks) (step - (g + y + r) - 4 * eps)
        <= TrafficSignal._cycle_time sg')%Q
    /\ (TrafficSignal._cycle_time sg'
        <= clock + elapsed (length ticks) (step - (g + y + r) + 4 * eps))%Q
    /\ (ticks <> [] -> (g <= clock)%Q -> (f_add ar g y <= clock)%Q ->
        TrafficSignal._state sg' = RED).
Proof.
  intros ar eps bound step signal sg' ticks g y r clock
         Hround Heps Hg Hy Hr Hlong Hlo Hroom Hsteps Hrun.
  destruct (rounded_long_step ar eps bound step g y r Hround Heps Hg Hy Hr Hlong
              ticks signal sg' eq_refl eq_refl eq_refl Hsteps Hlo Hroom Hrun)
    as (Hmono & Hlow & Hupp & Hphase).
  split; [exact Hmono|]. split; [exact Hlow|]. split; [exact Hupp|].
  intros Hne Hgreen Hyellow. rewrite (Hphase Hne). unfold Rounded.phase_of.
  fold g. fold y. fold clock in Hmono.
  destruct (Qlt_le_dec (TrafficSignal._cycle_time sg') g) as [H1|H1]; [lra|].
  destruct (Qlt_le_dec (TrafficSignal._cycle_time sg') (f_add ar g y)) as [H2|H2];
    [lra|reflexivity].
Qed.

Lemma clock_is_elapsed_time_within_rounding_witness :
  let tk : tick := (short_road, ∅, (1 # 60)%Q) in
  rounds_within grid_arithmetic (1 # 2199023255552) 64
  /\ exists sg',
      rounded_updates grid_arithmetic (replicate 1400 tk) (TrafficSignal.__init__ None)
      = Ok sg'
      /\ (- (1 # 2199023255552) <= TrafficSignal._cycle_time sg')%Q
      /\ (TrafficSignal._cycle_time sg'
          < Rounded.cycle_duration grid_arithmetic (TrafficSignal.__init__ None))%Q
      /\ TrafficSignal._state sg'
         = Rounded.phase_of grid_arithmetic (TrafficSignal._cycle_time sg')
             (TrafficSignal.__init__ None).
Proof.
  intros tk. split; [exact (grid_rounds_within 64)|].
  destruct (rounded_updates_total grid_arithmetic 0 (replicate 1400 tk)
              (TrafficSignal.__init__ None) eq_refl) as [sg' Hrun].
  { discriminate. }
  { apply Forall_replicate. exact (short_road_tick_ready (1 # 60)). }
  exists sg'. split; [exact Hrun|].
  destruct (clock_is_elapsed_time_within_rounding grid_arithmetic
              (1 # 2199023255552) 64 (1 # 60) (TrafficSignal.__init__ None) sg'
              (replicate 1400 tk) (grid_rounds_within 64))
    as (Hlo & Hhi & Hphase & _).
  - vm_compute. discriminate.
  - vm_compute. discriminate.
  - vm_compute. discriminate.
  - vm_compute. discriminate.
  - vm_compute. discriminate.
  - vm_compute. discriminate.
  - vm_compute. discriminate.
  - vm_compute. discriminate.
  - vm_compute. reflexivity.
  - apply Forall_replicate. reflexivity.
  - exact Hrun.
  - split; [exact Hlo|]. split; [exact Hhi|]. apply Hphase. discriminate.
Defined.

Lemma long_step_never_wraps_witness :
  let tk : tick := (short_road, ∅, 50%Q) in
  rounds_within grid_arithmetic (1 # 2199023255552) 1000
  /\ exists sg',
      rounded_updates grid_arithmetic (replicate 3 tk) overrun_signal = Ok sg'
      /\ (TrafficSignal._cycle_time overrun_signal <= TrafficSignal._cycle_time sg')%Q
      /\ TrafficSignal._state sg' = RED.
Proof.
  intros tk. split; [exact (grid_rounds_within 1000)|].
  destruct (rounded_updates_total grid_arithmetic 0 (replicate 3 tk)
              overrun_signal eq_refl) as [sg' Hrun].
  { intros _. eexists. reflexivity. }
  { apply Forall_replicate. exact (short_road_tick_ready 50). }
  exists sg'. split; [exact Hrun|].
  destruct (long_step_never_wraps grid_arithmetic (1 # 2199023255552) 1000 50
              overrun_signal sg' (replicate 3 tk) (grid_rounds_within 1000))
    as (Hmono & _ & _ & Hred).
  - vm_compute. discriminate.
  - vm_compute. discriminate.
  - vm_compute. discriminate.
  - vm_compute. discriminate.
  - vm_compute. discriminate.
  - vm_compute. discriminate.
  - vm_compute. discriminate.
  - apply Forall_replicate. reflexivity.
  - exact Hrun.
  - split; [exact Hmono|]. apply Hred; [discriminate|vm_compute; discriminate|].
    vm_compute. discriminate.
Defined.

(** * Further properties of the construction helpers *)

Lemma py_index_in_range (n : nat) (i : Z) :
  (0 <= i < Z.of_nat n)%Z -> py_index n i = Some (Z.to_nat i).
Proof.
  intros [Hlo Hhi]. unfold py_index.
  replace ((0 <=? i) && (i <? Z.of_nat n))%Z with true; [reflexivity|].
  symmetry. apply andb_true_iff. split; [apply Z.leb_le|apply Z.ltb_lt]; assumption.
Qed.

Lemma py_getitem_in_range {A} (items : list A) (i : Z) :
  (0 <= i < Z.of_nat (length items))%Z ->
  exists val, items !! Z.to_nat i = Some val /\ py_getitem items i = Ok val.
Proof.
  intros Hin. destruct (lookup_lt_is_Some_2 items (Z.to_nat i)) as [val Hval]; [lia|].
  exists val. split; [exact Hval|].
  unfold py_getitem. rewrite (py_index_in_range _ _ Hin), Hval. reflexivity.
Qed.

(** Adding one more item keeps every valid subscript valid. *)
Lemma py_index_grows (n : nat) (i : Z) :
  is_Some (py_index n i) -> is_Some (py_index (S n) i).
Proof.
  unfold py_index. intros [k Hk].
  destruct ((0 <=? i) && (i <? Z.of_nat n))%Z eqn:E1.
  - apply andb_true_iff in E1 as [H1 H2]. apply Z.leb_le in H1. apply Z.ltb_lt in H2.
    replace ((0 <=? i) && (i <? Z.of_nat (S n)))%Z with true; [eexists; reflexivity|].
    symmetry. apply andb_true_iff. split; [apply Z.leb_le|apply Z.ltb_lt]; lia.
  - destruct ((- Z.of_nat n <=? i) && (i <? 0))%Z eqn:E2; [|discriminate].
    apply andb_true_iff in E2 as [H1 H2]. apply Z.leb_le in H1. apply Z.ltb_lt in H2.
    replace ((0 <=? i) && (i <? Z.of_nat (S n)))%Z with false.
    + replace ((- Z.of_nat (S n) <=? i) && (i <? 0))%Z with true; [eexists; reflexivity|].
      symmetry. apply andb_true_iff. split; [apply Z.leb_le|apply Z.ltb_lt]; lia.
    + symmetry. apply andb_false_iff. left. apply Z.leb_gt. lia.
Qed.

(** X5. On an index in range [create_traffic_signal] returns a signal
    whose [segment_index] is that index, whatever the configuration says
    about it, with the configured durations or else the defaults 10, 3
    and 10; it leaves segments and vehicles alone; and when the queue of
    that segment holds known vehicles, an update of the returned signal
    against this simulation returns and resolves the stop position to the
    configured one or else to the length of that segment. *)
Theorem created_signal_guards_its_segment :
  forall (G : Type) (sim : Simulation.obj G) (i : Z)
         (cfg : option TrafficSignal.config),
    (0 <= i < Z.of_nat (length (Simulation.segments sim)))%Z ->
    exists sim' signal segment,
      Simulation.create_traffic_signal i cfg sim = (sim', Ok signal)
      /\ TrafficSignal.segment_index signal = i
      /\ TrafficSignal.green_duration signal
         = default 10%Q (cfg ≫= TrafficSignal.cfg_green_duration)
      /\ TrafficSignal.yellow_duration signal
         = default 3%Q (cfg ≫= TrafficSignal.cfg_yellow_duration)
      /\ TrafficSignal.red_duration signal
         = default 10%Q (cfg ≫= TrafficSignal.cfg_red_duration)
      /\ Simulation.segments sim' = Simulation.segments sim
      /\ Simulation.vehicles sim' = Simulation.vehicles sim
      /\ Simulation.segments sim !! Z.to_nat i = Some segment
      /\ (queue_known (Simulation.vehicles sim) (Segment.vehicles segment) ->
          forall step,
            exists sg',
              TrafficSignal.update (Simulation.segments sim') (Simulation.vehicles sim')
                step signal = Ok sg'
              /\ TrafficSignal.stop_position sg'
                 = Some (default (Segment.get_length segment)
                                 (cfg ≫= TrafficSignal.cfg_stop_position))).
Proof.
  intros G sim i cfg Hin.
  destruct (py_getitem_in_range (Simulation.segments sim) i Hin) as (segment & Hseg & Hget).
  eexists _, _, segment. split; [apply create_in_range; exact Hin|].
  cbn [Simulation.segments Simulation.vehicles Simulation.set_traffic_signals].
  split; [reflexivity|].
  split; [destruct cfg as [[? [?|] ? ? ?]|]; reflexivity|].
  split; [destruct cfg as [[? ? [?|] ? ?]|]; reflexivity|].
  split; [destruct cfg as [[? ? ? [?|] ?]|]; reflexivity|].
  split; [reflexivity|]. split; [reflexivity|]. split; [exact Hseg|].
  intros Hknown step.
  assert (Hready : signal_ready (Simulation.segments sim) (Simulation.vehicles sim)
                                (created_signal i cfg)).
  { split; [|discriminate]. exists segment. split; [exact Hget|exact Hknown]. }
  destruct (update_ready_total _ _ step _ Hready) as [sg' Hupd].
  exists sg'. split; [exact Hupd|].
  destruct (update_stop_position_first _ _ step (created_signal i cfg) sg' eq_refl Hupd)
    as (segment' & Hget' & ->).
  change (TrafficSignal.segment_index (created_signal i cfg)) with i in Hget'.
  rewrite Hget in Hget'. injection Hget' as <-.
  destruct cfg as [[? ? ? ? [?|]]|]; reflexivity.
Qed.

Lemma created_signal_guards_its_segment_witness :
  (0 <= 1 < Z.of_nat (length (Simulation.segments two_segments)))%Z
  /\ queue_known (Simulation.vehicles two_segments) (Segment.vehicles (Segment.mk [] 100))
  /\ exists sim' signal,
      Simulation.create_traffic_signal 1
        (Some (TrafficSignal.mk_config (Some 0%Z) (Some 25%Q) None None None)) two_segments
      = (sim', Ok signal)
      /\ TrafficSignal.segment_index signal = 1%Z
      /\ TrafficSignal.green_duration signal = 25%Q
      /\ TrafficSignal.yellow_duration signal = 3%Q
      /\ exists sg',
          TrafficSignal.update (Simulation.segments sim') (Simulation.vehicles sim')
            1 signal = Ok sg'
          /\ TrafficSignal.stop_position sg' = Some 100%Q.
Proof.
  assert (Hin : (0 <= 1 < Z.of_nat (length (Simulation.segments two_segments)))%Z)
    by (cbn; lia).
  assert (Hknown : queue_known (Simulation.vehicles two_segments)
                               (Segment.vehicles (Segment.mk [] 100))) by constructor.
  split; [exact Hin|]. split; [exact Hknown|].
  destruct (created_signal_guards_its_segment unit two_segments 1
              (Some (TrafficSignal.mk_config (Some 0%Z) (Some 25%Q) None None None)) Hin)
    as (sim' & signal & segment & Hcreate & Hidx & Hg & Hy & _ & _ & _ & Hseg & Hupd).
  cbn in Hseg. injection Hseg as <-.
  exists sim', signal. split; [exact Hcreate|]. split; [exact Hidx|].
  split; [exact Hg|]. split; [exact Hy|]. exact (Hupd Hknown 1%Q).
Defined.

(** X6. How calls of [create_traffic_signal] on indices in range
    compose: on an index without a signal the table grows by one entry;
    calls on two different indices give the same simulation in either
    order; of two calls on the same index only the second counts. *)
Theorem create_traffic_signal_composes :
  forall (G : Type) (sim : Simulation.obj G) (i j : Z)
         (cfg1 cfg2 : option TrafficSignal.config),
    (0 <= i < Z.of_nat (length (Simulation.segments sim)))%Z ->
    (0 <= j < Z.of_nat (length (Simulation.segments sim)))%Z ->
    let s1 := fst (Simulation.create_traffic_signal i cfg1 sim) in
    (Simulation.traffic_signals sim !! i = None ->
       size (Simulation.traffic_signals s1) = S (size (Simulation.traffic_signals sim))
       /\ dom (Simulation.traffic_signals s1)
          = {[i]} ∪ dom (Simulation.traffic_signals sim))
    /\ (i <> j ->
        fst (Simulation.create_traffic_signal j cfg2 s1)
        = fst (Simulation.create_traffic_signal i cfg1
                 (fst (Simulation.create_traffic_signal j cfg2 sim))))
    /\ fst (Simulation.create_traffic_signal i cfg2 s1)
       = fst (Simulation.create_traffic_signal i cfg2 sim).
Proof.
  intros G sim i j cfg1 cfg2 Hi Hj s1. subst s1.
  rewrite (create_in_range sim i cfg1 Hi), (create_in_range sim i cfg2 Hi),
    (create_in_range sim j cfg2 Hj).
  cbn [fst].
  rewrite (create_in_range _ j cfg2 (Hj : in_range (Simulation.set_traffic_signals _ sim) j)).
  rewrite (create_in_range _ i cfg2 (Hi : in_range (Simulation.set_traffic_signals _ sim) i)).
  rewrite (create_in_range _ i cfg1 (Hi : in_range (Simulation.set_traffic_signals _ sim) i)).
  cbn [fst Simulation.traffic_signals Simulation.set_traffic_signals
       Simulation.segments Simulation.vehicles Simulation.vehicle_generator
       Simulation.t Simulation.frame_count Simulation.dt].
  split; [|split].
  - intros Hfree. split.
    + apply map_size_insert_None. exact Hfree.
    + apply dom_insert_L.
  - intros Hne. unfold Simulation.set_traffic_signals. cbn.
    rewrite insert_insert_ne by congruence. reflexivity.
  - unfold Simulation.set_traffic_signals. cbn.
    rewrite insert_insert_eq. reflexivity.
Qed.

Lemma create_traffic_signal_composes_witness :
  (0 <= 0 < Z.of_nat (length (Simulation.segments two_segments)))%Z
  /\ (0 <= 1 < Z.of_nat (length (Simulation.segments two_segments)))%Z
  /\ Simulation.traffic_signals two_segments !! 0%Z = None
  /\ 0%Z <> 1%Z
  /\ size (Simulation.traffic_signals
             (fst (Simulation.create_traffic_signal 0 None two_segments)))
     = S (size (Simulation.traffic_signals two_segments))
  /\ fst (Simulation.create_traffic_signal 1 (Some longer_green)
            (fst (Simulation.create_traffic_signal 0 None two_segments)))
     = fst (Simulation.create_traffic_signal 0 None
              (fst (Simulation.create_traffic_signal 1 (Some longer_green) two_segments))).
Proof.
  assert (H0 : (0 <= 0 < Z.of_nat (length (Simulation.segments two_segments)))%Z)
    by (cbn; lia).
  assert (H1 : (0 <= 1 < Z.of_nat (length (Simulation.segments two_segments)))%Z)
    by (cbn; lia).
  assert (Hfree : Simulation.traffic_signals two_segments !! 0%Z = None) by reflexivity.
  assert (Hne : 0%Z <> 1%Z) by discriminate.
  pose proof (create_traffic_signal_composes unit two_segments 0 1 None
                (Some longer_green) H0 H1) as H. cbv zeta in H.
  destruct H as (Hgrow & Hswap & _).
  do 4 (split; [assumption|]).
  split; [exact (proj1 (Hgrow Hfree))|exact (Hswap Hne)].
Defined.

(** X7. [add_segment] puts the new segment under the next free index and
    leaves every existing index, the vehicles and the signals as they
    were; the index that [create_traffic_signal] rejected just before the
    call is accepted just after it. *)
Theorem add_segment_extends_the_range :
  forall (G : Type) (sim : Simulation.obj G) (seg : Segment.obj)
         (cfg : option TrafficSignal.config),
    let n := length (Simulation.segments sim) in
    let sim' := Simulation.add_segment seg sim in
    length (Simulation.segments sim') = S n
    /\ Simulation.segments sim' !! n = Some seg
    /\ (forall i, (i < n)%nat ->
          Simulation.segments sim' !! i = Simulation.segments sim !! i)
    /\ Simulation.vehicles sim' = Simulation.vehicles sim
    /\ Simulation.traffic_signals sim' = Simulation.traffic_signals sim
    /\ Simulation.create_traffic_signal (Z.of_nat n) cfg sim = (sim, Raise ValueError)
    /\ Simulation.create_traffic_signal (Z.of_nat n) cfg sim'
       = (Simulation.set_traffic_signals
            (<[Z.of_nat n := created_signal (Z.of_nat n) cfg]>
               (Simulation.traffic_signals sim)) sim',
          Ok (created_signal (Z.of_nat n) cfg))
    /\ Simulation.create_traffic_signal (Z.of_nat (S n)) cfg sim'
       = (sim', Raise ValueError).
Proof.
  intros G sim seg cfg n sim'. subst sim'. unfold Simulation.add_segment.
  cbn [Simulation.segments Simulation.vehicles Simulation.traffic_signals
       Simulation.set_segments].
  split; [rewrite length_app; cbn; lia|].
  split; [rewrite lookup_app_r by lia; subst n; rewrite Nat.sub_diag; reflexivity|].
  split; [intros i Hi; apply lookup_app_l; exact Hi|].
  split; [reflexivity|]. split; [reflexivity|].
  split; [|split].
  - unfold Simulation.create_traffic_signal. rewrite create_guard_true; [reflexivity|].
    unfold in_range. fold n. lia.
  - rewrite create_in_range; [reflexivity|].
    unfold in_range. cbn [Simulation.segments Simulation.set_segments].
    rewrite length_app. cbn [length]. fold n. lia.
  - unfold Simulation.create_traffic_signal. rewrite create_guard_true; [reflexivity|].
    unfold in_range. cbn [Simulation.segments Simulation.set_segments].
    rewrite length_app. cbn [length]. fold n. lia.
Qed.

(** X8. [add_vehicle] writes the vehicle into the table first, replacing
    any entry under the same identifier, and only then looks up the first
    segment of its path: with an empty path it stops there and queues the
    vehicle nowhere; with a first entry that names no segment it raises
    [IndexError] and the simulation it leaves behind already holds the
    vehicle in its table, with every queue untouched; otherwise it hands
    the vehicle to that one segment and to no other. *)
Theorem add_vehicle_registers_before_queueing :
  forall (G : Type)
         (Segment_add_vehicle : nat -> Vehicle.obj -> Segment.obj -> Segment.obj)
         (veh_id : nat) (veh : Vehicle.obj) (sim : Simulation.obj G),
    let after := Simulation.add_vehicle Segment_add_vehicle veh_id veh sim in
    Simulation.vehicles (fst after) = <[veh_id := veh]> (Simulation.vehicles sim)
    /\ Simulation.vehicles (fst after) !! veh_id = Some veh
    /\ Simulation.traffic_signals (fst after) = Simulation.traffic_signals sim
    /\ (Vehicle.path veh = [] ->
        snd after = Ok tt /\ Simulation.segments (fst after) = Simulation.segments sim)
    /\ (forall first rest,
          Vehicle.path veh = first :: rest ->
          py_index (length (Simulation.segments sim)) first = None ->
          snd after = Raise IndexError
          /\ Simulation.segments (fst after) = Simulation.segments sim)
    /\ (forall first rest k,
          Vehicle.path veh = first :: rest ->
          py_index (length (Simulation.segments sim)) first = Some k ->
          snd after = Ok tt
          /\ (exists seg,
                Simulation.segments sim !! k = Some seg
                /\ Simulation.segments (fst after) !! k
                   = Some (Segment_add_vehicle veh_id veh seg))
          /\ forall m, m <> k ->
               Simulation.segments (fst after) !! m = Simulation.segments sim !! m).
Proof.
  intros G sadd veh_id veh sim after. subst after.
  unfold Simulation.add_vehicle.
  cbn [Simulation.segments Simulation.set_vehicles].
  destruct (Vehicle.path veh) as [|first rest] eqn:Hpath.
  - cbn. split; [reflexivity|]. split; [apply lookup_insert_eq|].
    split; [reflexivity|]. split; [intros _; split; reflexivity|].
    split; intros; discriminate.
  - destruct (py_index (length (Simulation.segments sim)) first) as [k|] eqn:Hk.
    + cbn. split; [reflexivity|]. split; [apply lookup_insert_eq|].
      split; [reflexivity|]. split; [discriminate|].
      split; [intros f r [= <- <-] Hnone; congruence|].
      intros f r k' [= <- <-] Hk'. rewrite Hk in Hk'. injection Hk' as <-.
      split; [reflexivity|]. split.
      * destruct (lookup_lt_is_Some_2 (Simulation.segments sim) k) as [seg Hseg].
        { exact (py_index_lt _ _ _ Hk). }
        exists seg. split; [exact Hseg|].
        rewrite list_lookup_alter_eq, Hseg. reflexivity.
      * intros m Hm. apply list_lookup_alter_ne. congruence.
    + cbn. split; [reflexivity|]. split; [apply lookup_insert_eq|].
      split; [reflexivity|]. split; [discriminate|].
      split; [intros f r _ _; split; reflexivity|].
      intros f r k' [= <- <-] Hk'. congruence.
Qed.

Lemma add_vehicle_registers_before_queueing_witness :
  (Vehicle.path (Vehicle.mk [] 0 0 0 0 4 4 1 1 1) = []
   /\ snd (Simulation.add_vehicle (fun veh_id _ => Segment.append veh_id) 5
             (Vehicle.mk [] 0 0 0 0 4 4 1 1 1) two_segments) = Ok tt)
  /\ (Vehicle.path (Vehicle.mk [7%Z] 0 0 0 0 4 4 1 1 1) = [7%Z]
      /\ py_index (length (Simulation.segments two_segments)) 7 = None
      /\ snd (Simulation.add_vehicle (fun veh_id _ => Segment.append veh_id) 5
                (Vehicle.mk [7%Z] 0 0 0 0 4 4 1 1 1) two_segments) = Raise IndexError
      /\ Simulation.vehicles
           (fst (Simulation.add_vehicle (fun veh_id _ => Segment.append veh_id) 5
                   (Vehicle.mk [7%Z] 0 0 0 0 4 4 1 1 1) two_segments)) !! 5%nat
         = Some (Vehicle.mk [7%Z] 0 0 0 0 4 4 1 1 1))
  /\ (Vehicle.path (Vehicle.mk [(-1)%Z] 0 0 0 0 4 4 1 1 1) = [(-1)%Z]
      /\ py_index (length (Simulation.segments two_segments)) (-1) = Some 1%nat
      /\ snd (Simulation.add_vehicle (fun veh_id _ => Segment.append veh_id) 5
                (Vehicle.mk [(-1)%Z] 0 0 0 0 4 4 1 1 1) two_segments) = Ok tt).
Proof.
  split; [|split].
  - split; [reflexivity|].
    exact (proj1 (proj1 (proj2 (proj2 (proj2
             (add_vehicle_registers_before_queueing unit
                (fun veh_id _ => Segment.append veh_id) 5%nat
                (Vehicle.mk [] 0 0 0 0 4 4 1 1 1) two_segments)))) eq_refl)).
  - split; [reflexivity|]. split; [reflexivity|].
    pose proof (add_vehicle_registers_before_queueing unit
                  (fun veh_id _ => Segment.append veh_id) 5%nat
                  (Vehicle.mk [7%Z] 0 0 0 0 4 4 1 1 1) two_segments) as H.
    cbv zeta in H. destruct H as (_ & Htable & _ & _ & Hraise & _).
    split; [exact (proj1 (Hraise 7%Z [] eq_refl eq_refl))|exact Htable].
  - split; [reflexivity|]. split; [reflexivity|].
    pose proof (add_vehicle_registers_before_queueing unit
                  (fun veh_id _ => Segment.append veh_id) 5%nat
                  (Vehicle.mk [(-1)%Z] 0 0 0 0 4 4 1 1 1) two_segments) as H.
    cbv zeta in H. destruct H as (_ & _ & _ & _ & _ & Hqueue).
    exact (proj1 (Hqueue (-1)%Z [] 1%nat eq_refl eq_refl)).
Defined.

Lemma add_segment_extends_the_range_witness :
  (1 < length (Simulation.segments two_segments))%nat
  /\ Simulation.segments (Simulation.add_segment (Segment.mk [] 30) two_segments) !! 1%nat
     = Simulation.segments two_segments !! 1%nat
  /\ Simulation.segments (Simulation.add_segment (Segment.mk [] 30) two_segments) !! 2%nat
     = Some (Segment.mk [] 30)
  /\ Simulation.create_traffic_signal 2 None two_segments = (two_segments, Raise ValueError).
Proof.
  pose proof (add_segment_extends_the_range unit two_segments (Segment.mk [] 30) None) as H.
  cbv zeta in H. destruct H as (_ & Hnew & Hold & _ & _ & Hbefore & _).
  assert (Hlt : (1 < length (Simulation.segments two_segments))%nat) by (cbn; lia).
  split; [exact Hlt|]. split; [exact (Hold 1%nat Hlt)|].
  split; [exact Hnew|exact Hbefore].
Defined.

(** * Further properties of the stepper *)

Lemma excluded_middle_known (table : gmap nat Vehicle.obj) (queue : list nat) :
  queue_known table queue \/ ~ queue_known table queue.
Proof.
  unfold queue_known.
  destruct (decide (Forall (fun veh_id => is_Some (table !! veh_id)) queue)) as [H|H];
    [left|right]; exact H.
Qed.

Section KnownIds.
Variable Vehicle_update : option Vehicle.obj -> Q -> Vehicle.obj -> Vehicle.obj.

Lemma queue_known_dom (t1 t2 : gmap nat Vehicle.obj) (queue : list nat) :
  dom t1 = dom t2 -> queue_known t1 queue -> queue_known t2 queue.
Proof.
  intros Hdom Hknown. unfold queue_known in *.
  eapply Forall_impl; [|exact Hknown]. cbn. intros veh_id Hsome.
  apply elem_of_dom. rewrite <- Hdom. apply elem_of_dom. exact Hsome.
Qed.

(** A queue of known identifiers is walked to its end, and the table
    keeps its keys; the first unknown identifier raises [KeyError]. *)
Lemma update_queue_keys step queue :
  forall leader (table : gmap nat Vehicle.obj),
    (queue_known table queue ->
       exists table',
         Simulation.update_queue Vehicle_update step leader queue table = Ok table'
         /\ dom table' = dom table)
    /\ (~ queue_known table queue ->
        Simulation.update_queue Vehicle_update step leader queue table = Raise KeyError).
Proof.
  induction queue as [|front rest IH]; intros leader table.
  - split.
    + intros _. exists table. split; reflexivity.
    + intros Hnot. exfalso. apply Hnot. constructor.
  - cbn [Simulation.update_queue]. unfold dict_getitem.
    destruct (table !! front) as [old|] eqn:Hold.
    + cbn [bind].
      set (table1 := <[front := Vehicle_update leader step old]> table).
      assert (Hdom : dom table1 = dom table).
      { apply dom_insert_lookup_L. rewrite Hold. eexists. reflexivity. }
      destruct (IH (Some (Vehicle_update leader step old)) table1) as [Hok Hbad].
      split.
      * intros Hknown. apply Forall_cons_1 in Hknown as [_ Hknown].
        destruct Hok as (table' & Hrun & Hdom').
        { apply (queue_known_dom table); [symmetry; exact Hdom|exact Hknown]. }
        exists table'. split; [exact Hrun|]. rewrite Hdom'. exact Hdom.
      * intros Hnot. apply Hbad. intros Hknown. apply Hnot.
        constructor; [rewrite Hold; eexists; reflexivity|].
        apply (queue_known_dom table1); [exact Hdom|exact Hknown].
    + cbn [bind]. split; [|reflexivity].
      intros Hknown. apply Forall_cons_1 in Hknown as [[w Hw] _]. congruence.
Qed.

Lemma update_segments_from_keys {G} (sim : Simulation.obj G) segs :
  forall seg_idx (table : gmap nat Vehicle.obj),
    (Forall (fun seg => queue_known table (Segment.vehicles seg)) segs ->
       exists table',
         Simulation.update_segments_from Vehicle_update sim seg_idx segs table = Ok table'
         /\ dom table' = dom table)
    /\ (~ Forall (fun seg => queue_known table (Segment.vehicles seg)) segs ->
        Simulation.update_segments_from Vehicle_update sim seg_idx segs table
        = Raise KeyError).
Proof.
  induction segs as [|seg rest IH]; intros seg_idx table.
  - split.
    + intros _. exists table. split; reflexivity.
    + intros Hnot. exfalso. apply Hnot. constructor.
  - cbn [Simulation.update_segments_from]. rewrite update_segment_vehicles_queue.
    destruct (update_queue_keys (Simulation.dt sim) (Segment.vehicles seg)
                (guarding_phantom sim seg_idx) table) as [Hok Hbad].
    assert (Hmove : forall table1, dom table1 = dom table ->
              Forall (fun s => queue_known table (Segment.vehicles s)) rest <->
              Forall (fun s => queue_known table1 (Segment.vehicles s)) rest).
    { intros table1 Hdom. split; intros H; (eapply Forall_impl; [|exact H]); cbn;
        intros s; apply queue_known_dom; [symmetry; exact Hdom|exact Hdom]. }
    split.
    + intros Hall. apply Forall_cons_1 in Hall as [Hhead Hrest].
      destruct (Hok Hhead) as (table1 & Hrun1 & Hdom1).
      rewrite Hrun1. cbn [bind].
      destruct (proj1 (IH (S seg_idx) table1)) as (table' & Hrun & Hdom').
      { apply (Hmove table1 Hdom1). exact Hrest. }
      exists table'. split; [exact Hrun|]. rewrite Hdom'. exact Hdom1.
    + intros Hnot.
      destruct (excluded_middle_known table (Segment.vehicles seg)) as [Hhead|Hhead].
      * destruct (Hok Hhead) as (table1 & Hrun1 & Hdom1).
        rewrite Hrun1. cbn [bind].
        apply (proj2 (IH (S seg_idx) table1)). intros Hrest. apply Hnot.
        constructor; [exact Hhead|]. apply (Hmove table1 Hdom1). exact Hrest.
      * rewrite (Hbad Hhead). reflexivity.
Qed.
End KnownIds.

(** X9. The second loop of a tick returns exactly when every queued
    identifier is a key of the vehicle table, and raises [KeyError]
    otherwise; when it returns it has changed nothing but entries of the
    table, whose set of keys is the same as before. *)
Theorem update_vehicles_needs_known_ids :
  forall (G : Type)
         (Vehicle_update : option Vehicle.obj -> Q -> Vehicle.obj -> Vehicle.obj)
         (sim : Simulation.obj G),
    (queues_known sim ->
       exists s2,
         Simulation.update_vehicles Vehicle_update sim = Ok s2
         /\ s2 = Simulation.set_vehicles (Simulation.vehicles s2) sim
         /\ dom (Simulation.vehicles s2) = dom (Simulation.vehicles sim))
    /\ (~ queues_known sim ->
        Simulation.update_vehicles Vehicle_update sim = Raise KeyError).
Proof.
  intros G vu sim.
  destruct (update_segments_from_keys vu sim (Simulation.segments sim) 0
              (Simulation.vehicles sim)) as [Hok Hbad].
  unfold Simulation.update_vehicles. split.
  - intros Hknown. destruct (Hok Hknown) as (table' & Hrun & Hdom).
    exists (Simulation.set_vehicles table' sim). rewrite Hrun.
    split; [reflexivity|]. split; [reflexivity|exact Hdom].
  - intros Hnot. rewrite (Hbad Hnot). reflexivity.
Qed.

Lemma update_vehicles_needs_known_ids_witness :
  (queues_known convoy
   /\ exists s2,
       Simulation.update_vehicles coasting_update convoy = Ok s2
       /\ dom (Simulation.vehicles s2) = dom (Simulation.vehicles convoy))
  /\ (~ queues_known
          (Simulation.mk [Segment.mk [1%nat] 100] ∅ ([] : list unit) ∅ 0 0 (1 # 60))
      /\ Simulation.update_vehicles coasting_update
           (Simulation.mk [Segment.mk [1%nat] 100] ∅ ([] : list unit) ∅ 0 0 (1 # 60))
         = Raise KeyError).
Proof.
  split.
  - split; [exact convoy_queues_known|].
    destruct (proj1 (update_vehicles_needs_known_ids unit coasting_update convoy)
                convoy_queues_known) as (s2 & Hrun & _ & Hdom).
    exists s2. split; [exact Hrun|exact Hdom].
  - assert (Hnot : ~ queues_known
                       (Simulation.mk [Segment.mk [1%nat] 100] ∅ ([] : list unit) ∅ 0 0
                                      (1 # 60))).
    { intros H. apply Forall_cons_1 in H as [H _].
      apply Forall_cons_1 in H as [[w Hw] _]. vm_compute in Hw. discriminate. }
    split; [exact Hnot|].
    exact (proj2 (update_vehicles_needs_known_ids unit coasting_update _) Hnot).
Defined.

(** ** The queues across the third loop *)

Lemma queued_ids_cons (seg : Segment.obj) (segs : list Segment.obj) :
  queued_ids (seg :: segs) = Segment.vehicles seg ++ queued_ids segs.
Proof. reflexivity. Qed.

Lemma queued_ids_alter (g : Segment.obj -> Segment.obj) (extra : list nat) segs :
  forall i seg,
    segs !! i = Some seg ->
    Segment.vehicles (g seg) ≡ₚ extra ++ Segment.vehicles seg ->
    queued_ids (alter g i segs) ≡ₚ extra ++ queued_ids segs.
Proof.
  induction segs as [|s rest IH]; intros [|i] seg Hi Hg; try discriminate.
  - injection Hi as ->. cbn [alter list_alter]. rewrite !queued_ids_cons.
    rewrite Hg. rewrite app_assoc. reflexivity.
  - cbn in Hi. cbn [alter list_alter]. rewrite !queued_ids_cons.
    change (list_alter g i rest) with (alter g i rest).
    rewrite (IH i seg Hi Hg). rewrite !app_assoc.
    apply Permutation_app_tail. apply Permutation_app_comm.
Qed.

Lemma queued_ids_popleft (front : nat) (behind : list nat) segs :
  forall i seg,
    segs !! i = Some seg ->
    Segment.vehicles seg = front :: behind ->
    front :: queued_ids (alter Segment.popleft i segs) ≡ₚ queued_ids segs.
Proof.
  induction segs as [|s rest IH]; intros [|i] seg Hi Hq; try discriminate.
  - injection Hi as ->. cbn [alter list_alter]. rewrite !queued_ids_cons.
    cbn [Segment.popleft Segment.set_vehicles Segment.vehicles]. rewrite Hq. reflexivity.
  - cbn in Hi. cbn [alter list_alter]. rewrite !queued_ids_cons.
    change (list_alter Segment.popleft i rest) with (alter Segment.popleft i rest).
    rewrite <- (IH i seg Hi Hq). apply Permutation_middle.
Qed.

(** A crossing moves one identifier between queues, or drops it when the
    path has no further segment. *)
Lemma crossed_queued_ids {G} (sim : Simulation.obj G) i segment veh_id rest veh :
  Simulation.segments sim !! i = Some segment ->
  Segment.vehicles segment = veh_id :: rest ->
  (is_Some (next_segment (length (Simulation.segments sim)) veh)
   /\ queued_ids (Simulation.segments (crossed i veh_id veh sim))
      ≡ₚ queued_ids (Simulation.segments sim))
  \/ (next_segment (length (Simulation.segments sim)) veh = None
      /\ veh_id :: queued_ids (Simulation.segments (crossed i veh_id veh sim))
         ≡ₚ queued_ids (Simulation.segments sim)).
Proof.
  intros Hseg Hq. unfold crossed.
  cbn [Simulation.segments Simulation.set_segments].
  destruct (next_segment (length (Simulation.segments sim)) veh) as [k|] eqn:Hnext.
  - left. split; [eexists; reflexivity|].
    unfold segments_after_crossing.
    assert (Hk : (k < length (Simulation.segments sim))%nat).
    { unfold next_segment in Hnext.
      destruct (Vehicle.path veh !! _) as [nxt|]; [|discriminate].
      exact (py_index_lt _ _ _ Hnext). }
    destruct (lookup_lt_is_Some_2 _ _ Hk) as [seg_k Hsk].
    assert (Hinner : queued_ids (alter (Segment.append veh_id) k (Simulation.segments sim))
                     ≡ₚ [veh_id] ++ queued_ids (Simulation.segments sim)).
    { apply (queued_ids_alter _ _ _ k seg_k Hsk). cbn.
      apply Permutation_app_comm. }
    assert (Hfront : exists seg' behind,
               alter (Segment.append veh_id) k (Simulation.segments sim) !! i = Some seg'
               /\ Segment.vehicles seg' = veh_id :: behind).
    { rewrite list_lookup_alter. destruct (decide (k = i)) as [->|Hne].
      - rewrite Hseg. cbn. eexists _, (rest ++ [veh_id]). split; [reflexivity|].
        cbn. rewrite Hq. reflexivity.
      - exists segment, rest. split; assumption. }
    destruct Hfront as (seg' & behind & Hs' & Hq').
    apply (Permutation_cons_inv (a := veh_id)).
    rewrite (queued_ids_popleft veh_id behind _ i seg' Hs' Hq'). exact Hinner.
  - right. split; [reflexivity|].
    unfold segments_after_crossing.
    exact (queued_ids_popleft veh_id rest _ i segment Hseg Hq).
Qed.

Lemma check_segment_queued_ids {G} i (sim sim' : Simulation.obj G) :
  Simulation.check_segment i sim = Ok sim' ->
  queued_ids (Simulation.segments sim') ⊆+ queued_ids (Simulation.segments sim).
Proof.
  intros Hstep.
  apply check_segment_Ok in Hstep
    as [->|(segment & f & rest & veh & Hseg & Hq & _ & _ & ->)]; [reflexivity|].
  destruct (crossed_queued_ids sim i segment f rest veh Hseg Hq)
    as [[_ Hperm]|[_ Hperm]].
  - apply Permutation_submseteq. exact Hperm.
  - rewrite <- Hperm. apply submseteq_cons. reflexivity.
Qed.

Lemma check_out_of_bounds_queued_ids {G} (sim s3 : Simulation.obj G) :
  Simulation.check_out_of_bounds sim = Ok s3 ->
  queued_ids (Simulation.segments s3) ⊆+ queued_ids (Simulation.segments sim).
Proof.
  intros Hrun. unfold Simulation.check_out_of_bounds in Hrun.
  apply (check_segments_invariant
           (fun s => queued_ids (Simulation.segments s)
                     ⊆+ queued_ids (Simulation.segments sim))
           (seq 0 (length (Simulation.segments sim)))) with (sim := sim);
    [|reflexivity|exact Hrun].
  intros i s s' _ Hinv Hstep.
  transitivity (queued_ids (Simulation.segments s));
    [exact (check_segment_queued_ids i s s' Hstep)|exact Hinv].
Qed.

Lemma submseteq_NoDup {A} (l k : list A) : l ⊆+ k -> NoDup k -> NoDup l.
Proof.
  intros Hsub Hnodup. apply submseteq_Permutation in Hsub as [rest Hrest].
  rewrite Hrest in Hnodup. apply list.NoDup_app in Hnodup as [H _]. exact H.
Qed.

(** X10. The third loop of a tick moves identifiers between queues or
    drops them, and never duplicates or invents one: the identifiers
    queued afterwards are, with multiplicity, among those queued before.
    So a network in which every vehicle is queued at most once stays so,
    and the number of queued vehicles does not grow. *)
Theorem boundary_loop_conserves_queued_ids :
  forall (G : Type) (sim s3 : Simulation.obj G),
    Simulation.check_out_of_bounds sim = Ok s3 ->
    queued_ids (Simulation.segments s3) ⊆+ queued_ids (Simulation.segments sim)
    /\ (forall veh_id,
          veh_id ∈ queued_ids (Simulation.segments s3) ->
          veh_id ∈ queued_ids (Simulation.segments sim))
    /\ (length (queued_ids (Simulation.segments s3))
        <= length (queued_ids (Simulation.segments sim)))%nat
    /\ (NoDup (queued_ids (Simulation.segments sim)) ->
        NoDup (queued_ids (Simulation.segments s3))).
Proof.
  intros G sim s3 Hrun.
  pose proof (check_out_of_bounds_queued_ids sim s3 Hrun) as Hsub.
  split; [exact Hsub|]. split; [|split].
  - intros veh_id Hin. exact (elem_of_submseteq _ _ _ Hin Hsub).
  - apply submseteq_length. exact Hsub.
  - exact (submseteq_NoDup _ _ Hsub).
Qed.

Lemma boundary_loop_conserves_queued_ids_witness :
  exists s3,
    Simulation.check_out_of_bounds two_segment_moved = Ok s3
    /\ NoDup (queued_ids (Simulation.segments two_segment_moved))
    /\ NoDup (queued_ids (Simulation.segments s3))
    /\ (length (queued_ids (Simulation.segments s3))
        <= length (queued_ids (Simulation.segments two_segment_moved)))%nat.
Proof.
  assert (Hrun : exists s3, Simulation.check_out_of_bounds two_segment_moved = Ok s3)
    by (eexists; vm_compute; reflexivity).
  destruct Hrun as [s3 Hrun].
  assert (Hnodup : NoDup (queued_ids (Simulation.segments two_segment_moved)))
    by (apply (bool_decide_unpack _); vm_compute; exact I).
  destruct (boundary_loop_conserves_queued_ids unit two_segment_moved s3 Hrun)
    as (_ & _ & Hlen & Hkeep).
  exists s3. split; [exact Hrun|]. split; [exact Hnodup|].
  split; [exact (Hkeep Hnodup)|exact Hlen].
Defined.

(** ** What a tick leaves alone *)

Section Frames.
Context {G : Type}.
Variable Vehicle_update : option Vehicle.obj -> Q -> Vehicle.obj -> Vehicle.obj.
Variable VehicleGenerator_update : G -> Simulation.obj G -> Simulation.obj G.
Implicit Types (sim : Simulation.obj G).

Lemma same_network_refl sim : same_network sim sim.
Proof. repeat split. Qed.

Lemma same_network_trans sim1 sim2 sim3 :
  same_network sim1 sim2 -> same_network sim2 sim3 -> same_network sim1 sim3.
Proof.
  intros (A1 & A2 & A3 & A4 & A5) (B1 & B2 & B3 & B4 & B5).
  repeat split; congruence.
Qed.

Lemma update_signal_items_Ok sim items items' :
  Simulation.update_signal_items sim items = Ok items' ->
  Forall2 (fun item item' : Z * TrafficSignal.obj =>
             item.1 = item'.1
             /\ TrafficSignal.update (Simulation.segments sim)
                  (Simulation.vehicles sim) (Simulation.dt sim) item.2
                = Ok item'.2) items items'.
Proof.
  revert items'. induction items as [|[key signal] rest IH]; intros items' Hrun.
  - injection Hrun as <-. constructor.
  - cbn [Simulation.update_signal_items] in Hrun.
    apply bind_Ok in Hrun as (sg' & Hupd & Hrun).
    apply bind_Ok in Hrun as (rest' & Hrest & [= <-]).
    constructor; [split; [reflexivity|exact Hupd]|exact (IH rest' Hrest)].
Qed.

(** The first loop, when it returns: the same keys, each signal updated
    against the simulation as the tick found it, nothing else touched. *)
Lemma update_signals_Ok sim s1 :
  Simulation.update_signals sim = Ok s1 ->
  s1 = Simulation.set_traffic_signals (Simulation.traffic_signals s1) sim
  /\ dom (Simulation.traffic_signals s1) = dom (Simulation.traffic_signals sim)
  /\ forall key sg',
      Simulation.traffic_signals s1 !! key = Some sg' ->
      exists signal,
        Simulation.traffic_signals sim !! key = Some signal
        /\ TrafficSignal.update (Simulation.segments sim) (Simulation.vehicles sim)
             (Simulation.dt sim) signal = Ok sg'.
Proof.
  unfold Simulation.update_signals. intros Hrun.
  apply bind_Ok in Hrun as (items' & Hitems & [= <-]).
  apply update_signal_items_Ok in Hitems.
  set (items := map_to_list (Simulation.traffic_signals sim)) in *.
  assert (Hkeys : items'.*1 = items.*1).
  { clear -Hitems. induction Hitems as [|a b l k [Hk _] _ IH]; [reflexivity|].
    cbn. rewrite IH, Hk. reflexivity. }
  assert (Hnodup : NoDup (items'.*1)).
  { rewrite Hkeys. apply NoDup_fst_map_to_list. }
  cbn [Simulation.traffic_signals Simulation.set_traffic_signals].
  split; [reflexivity|]. split.
  - rewrite dom_list_to_map_L, Hkeys. unfold items.
    rewrite <- dom_list_to_map_L, list_to_map_to_list. reflexivity.
  - intros key sg' Hlook.
    apply elem_of_list_to_map in Hlook; [|exact Hnodup].
    apply list_elem_of_lookup in Hlook as [i Hi].
    destruct (Forall2_lookup_r _ _ _ _ _ Hitems Hi) as ([key0 signal] & Hi0 & Hk & Hupd).
    cbn in Hk, Hupd. subst key0. exists signal. split; [|exact Hupd].
    apply elem_of_map_to_list. apply list_elem_of_lookup. exists i. exact Hi0.
Qed.

Lemma update_queue_Ok step queue :
  forall leader (table table' : gmap nat Vehicle.obj),
    Simulation.update_queue Vehicle_update step leader queue table = Ok table' ->
    dom table' = dom table
    /\ queue_known table queue
    /\ (path_keeping Vehicle_update ->
        forall veh_id veh',
          table' !! veh_id = Some veh' ->
          exists veh, table !! veh_id = Some veh
                      /\ Vehicle.path veh' = Vehicle.path veh).
Proof.
  induction queue as [|front rest IH]; intros leader table table' Hrun.
  - injection Hrun as <-. split; [reflexivity|]. split; [constructor|].
    intros _ veh_id veh' H. exists veh'. split; [exact H|reflexivity].
  - cbn [Simulation.update_queue] in Hrun. unfold dict_getitem in Hrun.
    destruct (table !! front) as [old|] eqn:Hold; [|discriminate].
    cbn [bind] in Hrun.
    destruct (IH _ _ _ Hrun) as (Hdom & Hknown & Hpaths).
    assert (Hdom1 : dom (<[front := Vehicle_update leader step old]> table) = dom table).
    { apply dom_insert_lookup_L. rewrite Hold. eexists. reflexivity. }
    split; [rewrite Hdom; exact Hdom1|]. split.
    + constructor; [rewrite Hold; eexists; reflexivity|].
      exact (queue_known_dom _ _ _ Hdom1 Hknown).
    + intros Hkeep veh_id veh' Hlook.
      destruct (Hpaths Hkeep veh_id veh' Hlook) as (veh1 & Hveh1 & Hpath).
      destruct (decide (veh_id = front)) as [->|Hne].
      * rewrite lookup_insert_eq in Hveh1. injection Hveh1 as <-.
        exists old. split; [exact Hold|]. rewrite Hpath. apply Hkeep.
      * rewrite lookup_insert_ne in Hveh1 by congruence.
        exists veh1. split; assumption.
Qed.

Lemma update_segments_from_Ok sim segs :
  forall seg_idx (table table' : gmap nat Vehicle.obj),
    Simulation.update_segments_from Vehicle_update sim seg_idx segs table = Ok table' ->
    dom table' = dom table
    /\ (path_keeping Vehicle_update ->
        forall veh_id veh',
          table' !! veh_id = Some veh' ->
          exists veh, table !! veh_id = Some veh
                      /\ Vehicle.path veh' = Vehicle.path veh).
Proof.
  induction segs as [|seg rest IH]; intros seg_idx table table' Hrun.
  - injection Hrun as <-. split; [reflexivity|].
    intros _ veh_id veh' H. exists veh'. split; [exact H|reflexivity].
  - cbn [Simulation.update_segments_from] in Hrun.
    rewrite update_segment_vehicles_queue in Hrun.
    apply bind_Ok in Hrun as (table1 & Hrun1 & Hrun).
    destruct (update_queue_Ok _ _ _ _ _ Hrun1) as (Hdom1 & _ & Hpaths1).
    destruct (IH _ _ _ Hrun) as (Hdom & Hpaths).
    split; [rewrite Hdom; exact Hdom1|].
    intros Hkeep veh_id veh' Hlook.
    destruct (Hpaths Hkeep veh_id veh' Hlook) as (veh1 & Hveh1 & Hpath).
    destruct (Hpaths1 Hkeep veh_id veh1 Hveh1) as (veh & Hveh & Hpath1).
    exists veh. split; [exact Hveh|congruence].
Qed.

Lemma update_signals_same_network sim s1 :
  Simulation.update_signals sim = Ok s1 -> same_network sim s1.
Proof.
  intros H. destruct (update_signals_Ok sim s1 H) as (Hshape & Hdom & _).
  rewrite Hshape. repeat split. exact Hdom.
Qed.

Lemma update_vehicles_same_network sim s2 :
  Simulation.update_vehicles Vehicle_update sim = Ok s2 -> same_network sim s2.
Proof.
  unfold Simulation.update_vehicles. intros H.
  apply bind_Ok in H as (table' & Hrun & [= <-]).
  destruct (update_segments_from_Ok _ _ _ _ _ Hrun) as [Hdom _].
  repeat split. exact Hdom.
Qed.

Lemma check_segment_same_network i sim sim' :
  Simulation.check_segment i sim = Ok sim' ->
  same_network sim sim'
  /\ Simulation.traffic_signals sim' = Simulation.traffic_signals sim
  /\ Simulation.t sim' = Simulation.t sim
  /\ Simulation.frame_count sim' = Simulation.frame_count sim.
Proof.
  intros Hstep.
  apply check_segment_Ok in Hstep
    as [->|(segment & f & rest & veh & _ & _ & Hveh & _ & ->)].
  - split; [apply same_network_refl|]. repeat split.
  - unfold crossed.
    split; [|repeat split].
    repeat split; cbn [Simulation.segments Simulation.vehicles Simulation.set_segments
                       Simulation.set_vehicles].
    + apply segments_after_crossing_lengths.
    + apply dom_insert_lookup_L. rewrite Hveh. eexists. reflexivity.
Qed.

Lemma check_out_of_bounds_same_network sim s3 :
  Simulation.check_out_of_bounds sim = Ok s3 ->
  same_network sim s3
  /\ Simulation.traffic_signals s3 = Simulation.traffic_signals sim
  /\ Simulation.t s3 = Simulation.t sim
  /\ Simulation.frame_count s3 = Simulation.frame_count sim.
Proof.
  unfold Simulation.check_out_of_bounds.
  apply (check_segments_invariant
           (fun s => same_network sim s
                     /\ Simulation.traffic_signals s = Simulation.traffic_signals sim
                     /\ Simulation.t s = Simulation.t sim
                     /\ Simulation.frame_count s = Simulation.frame_count sim)).
  - intros i s s' _ (Hnet & Hsig & Ht & Hfc) Hstep.
    destruct (check_segment_same_network i s s' Hstep) as (Hnet' & Hsig' & Ht' & Hfc').
    split; [exact (same_network_trans _ _ _ Hnet Hnet')|].
    repeat split; congruence.
  - split; [apply same_network_refl|]. repeat split.
Qed.

(** One tick without generators. *)
Lemma update_frame sim sim' :
  Simulation.vehicle_generator sim = [] ->
  Simulation.update Vehicle_update VehicleGenerator_update sim = Ok sim' ->
  same_network sim sim'
  /\ Simulation.frame_count sim' = S (Simulation.frame_count sim)
  /\ Simulation.t sim' = (Simulation.t sim + Simulation.dt sim)%Q.
Proof.
  intros Hnogen Hupd. unfold Simulation.update in Hupd.
  apply bind_Ok in Hupd as (s1 & H1 & Hupd).
  apply bind_Ok in Hupd as (s2 & H2 & Hupd).
  apply bind_Ok in Hupd as (s3 & H3 & [= <-]).
  pose proof (update_signals_same_network _ _ H1) as N1.
  pose proof (update_vehicles_same_network _ _ H2) as N2.
  destruct (check_out_of_bounds_same_network _ _ H3) as (N3 & _ & Ht & Hfc).
  pose proof (same_network_trans _ _ _ (same_network_trans _ _ _ N1 N2) N3) as N.
  assert (Hgens : Simulation.vehicle_generator s3 = []).
  { destruct N as (_ & _ & _ & _ & ->). exact Hnogen. }
  unfold Simulation.update_generators. rewrite Hgens. cbn [foldl].
  assert (Ht1 : Simulation.t s1 = Simulation.t sim
                /\ Simulation.frame_count s1 = Simulation.frame_count sim).
  { destruct (update_signals_Ok _ _ H1) as (-> & _). split; reflexivity. }
  assert (Ht2 : Simulation.t s2 = Simulation.t s1
                /\ Simulation.frame_count s2 = Simulation.frame_count s1).
  { unfold Simulation.update_vehicles in H2.
    apply bind_Ok in H2 as (table' & _ & [= <-]). split; reflexivity. }
  destruct Ht1 as [Ht1 Hf1]. destruct Ht2 as [Ht2 Hf2].
  destruct N as (Na & Nb & Nc & Nd & Ne).
  split; [repeat split; assumption|].
  cbn [Simulation.frame_count Simulation.t Simulation.tick_clock].
  split; [congruence|]. rewrite Ht, Ht2, Ht1, Nd. reflexivity.
Qed.
End Frames.

(** ** Ticks that cannot raise *)

Section Totality.
Context {G : Type}.
Variable Vehicle_update : option Vehicle.obj -> Q -> Vehicle.obj -> Vehicle.obj.
Variable VehicleGenerator_update : G -> Simulation.obj G -> Simulation.obj G.
Implicit Types (sim : Simulation.obj G).

Lemma update_Ok_stop_position segments vehicles step signal sg' :
  (TrafficSignal._position_resolved signal = true ->
   is_Some (TrafficSignal.stop_position signal)) ->
  TrafficSignal.update segments vehicles step signal = Ok sg' ->
  is_Some (TrafficSignal.stop_position sg').
Proof.
  intros Hres Hupd.
  destruct (TrafficSignal._position_resolved signal) eqn:Hdone.
  - rewrite (update_stop_position_kept _ _ _ _ _ Hdone Hupd). exact (Hres eq_refl).
  - destruct (update_stop_position_first _ _ _ _ _ Hdone Hupd) as (segment & _ & ->).
    eexists. reflexivity.
Qed.

Lemma sound_signals_ready sim :
  queues_known sim -> signals_sound sim ->
  forall key signal,
    Simulation.traffic_signals sim !! key = Some signal ->
    signal_ready (Simulation.segments sim) (Simulation.vehicles sim) signal.
Proof.
  intros Hknown Hsound key signal Hlook.
  destruct (Hsound key signal Hlook) as [[k Hk] Hres].
  split; [|exact Hres].
  destruct (lookup_lt_is_Some_2 (Simulation.segments sim) k (py_index_lt _ _ _ Hk))
    as [segment Hseg].
  exists segment. split.
  - unfold py_getitem. rewrite Hk, Hseg. reflexivity.
  - exact (proj1 (Forall_lookup _ _) Hknown k segment Hseg).
Qed.

Lemma tick_clock_well_formed sim :
  well_formed sim -> well_formed (Simulation.tick_clock sim).
Proof. intros H. exact H. Qed.

(** One tick of a well-formed simulation without generators returns, and
    what it returns is well formed again. *)
Lemma update_well_formed sim :
  path_keeping Vehicle_update ->
  Simulation.vehicle_generator sim = [] ->
  well_formed sim ->
  exists sim',
    Simulation.update Vehicle_update VehicleGenerator_update sim = Ok sim'
    /\ well_formed sim'.
Proof.
  intros Hkeep Hnogen ((Hknown & Hpaths) & Hnodup & Hsound).
  destruct (update_signals_spec sim (sound_signals_ready sim Hknown Hsound))
    as (s1 & H1 & Hshape1 & _ & _).
  destruct (update_signals_Ok sim s1 H1) as (_ & _ & Hback).
  assert (Hsegs1 : Simulation.segments s1 = Simulation.segments sim)
    by (rewrite Hshape1; reflexivity).
  assert (Hvehs1 : Simulation.vehicles s1 = Simulation.vehicles sim)
    by (rewrite Hshape1; reflexivity).
  assert (Hgens1 : Simulation.vehicle_generator s1 = [])
    by (rewrite Hshape1; exact Hnogen).
  assert (Hknown1 : Forall (fun seg => queue_known (Simulation.vehicles s1)
                                         (Segment.vehicles seg))
                           (Simulation.segments s1)).
  { rewrite Hsegs1, Hvehs1. exact Hknown. }
  destruct (proj1 (update_segments_from_keys Vehicle_update s1 (Simulation.segments s1)
                     0%nat (Simulation.vehicles s1)) Hknown1)
    as (table' & H2 & Hdom2).
  destruct (update_segments_from_Ok Vehicle_update s1 _ _ _ _ H2) as (_ & Hpaths2).
  set (s2 := Simulation.set_vehicles table' s1).
  assert (Hready2 : boundary_ready s2).
  { split.
    - unfold queues_known. cbn [s2 Simulation.segments Simulation.vehicles
                                  Simulation.set_vehicles].
      eapply Forall_impl; [|exact Hknown1].
      intros seg Hseg. cbn beta in Hseg |- *.
      exact (queue_known_dom _ _ _ (eq_sym Hdom2) Hseg).
    - intros veh_id veh' Hlook.
      cbn [s2 Simulation.segments Simulation.vehicles Simulation.set_vehicles]
        in Hlook |- *.
      destruct (Hpaths2 Hkeep veh_id veh' Hlook) as (veh & Hveh & ->).
      rewrite Hvehs1 in Hveh. rewrite Hsegs1. exact (Hpaths veh_id veh Hveh). }
  destruct (check_segments_total (seq 0 (length (Simulation.segments s2))) s2 Hready2)
    as (s3 & H3 & Hready3).
  change (Simulation.check_out_of_bounds s2 = Ok s3) in H3.
  destruct (check_out_of_bounds_same_network s2 s3 H3) as (Hnet3 & Hsig3 & _ & _).
  destruct Hnet3 as (Hlen3 & _ & _ & _ & Hgens3).
  exists (Simulation.tick_clock s3). split.
  - unfold Simulation.update. rewrite H1. cbn [bind].
    unfold Simulation.update_vehicles. rewrite H2. cbn [bind]. fold s2.
    rewrite H3. cbn [bind].
    unfold Simulation.update_generators. rewrite Hgens3.
    cbn [s2 Simulation.vehicle_generator Simulation.set_vehicles].
    rewrite Hgens1. reflexivity.
  - apply tick_clock_well_formed. split; [exact Hready3|]. split.
    + apply (submseteq_NoDup _ _ (check_out_of_bounds_queued_ids s2 s3 H3)).
      cbn [s2 Simulation.segments Simulation.set_vehicles]. rewrite Hsegs1.
      exact Hnodup.
    + intros key sg' Hlook. rewrite Hsig3 in Hlook.
      cbn [s2 Simulation.traffic_signals Simulation.set_vehicles] in Hlook.
      destruct (Hback key sg' Hlook) as (signal & Hsignal & Hupd).
      destruct (Hsound key signal Hsignal) as [Hidx Hres].
      destruct (update_Ok_frame _ _ _ _ _ Hupd) as (Hsame & _).
      assert (Hlen : length (Simulation.segments s3) = length (Simulation.segments sim)).
      { rewrite <- (length_fmap Segment.get_length (Simulation.segments s3)), Hlen3.
        rewrite length_fmap. cbn [s2 Simulation.segments Simulation.set_vehicles].
        rewrite Hsegs1. reflexivity. }
      split.
      * rewrite Hlen, Hsame. exact Hidx.
      * intros _. exact (update_Ok_stop_position _ _ _ _ _ Hres Hupd).
Qed.

(** Any number of ticks. *)
Lemma run_well_formed steps :
  path_keeping Vehicle_update ->
  forall sim,
    Simulation.vehicle_generator sim = [] ->
    well_formed sim ->
    exists sim',
      Simulation.run Vehicle_update VehicleGenerator_update steps sim = Ok sim'
      /\ well_formed sim'.
Proof.
  intros Hkeep. induction steps as [|steps IH]; intros sim Hnogen Hwf.
  - exists sim. split; [reflexivity|exact Hwf].
  - destruct (update_well_formed sim Hkeep Hnogen Hwf) as (s1 & Hupd & Hwf1).
    destruct (update_frame Vehicle_update VehicleGenerator_update sim s1 Hnogen Hupd)
      as ((_ & _ & _ & _ & Hgens) & _).
    rewrite Hnogen in Hgens.
    destruct (IH s1 Hgens Hwf1) as (sim' & Hrun & Hwf').
    exists sim'. split; [|exact Hwf'].
    cbn [Simulation.run]. rewrite Hupd. exact Hrun.
Qed.

Lemma run_frame steps :
  forall sim sim',
    Simulation.vehicle_generator sim = [] ->
    Simulation.run Vehicle_update VehicleGenerator_update steps sim = Ok sim' ->
    same_network sim sim'
    /\ Simulation.frame_count sim' = (Simulation.frame_count sim + steps)%nat
    /\ Simulation.t sim'
       = Nat.iter steps (fun t => (t + Simulation.dt sim)%Q) (Simulation.t sim).
Proof.
  induction steps as [|steps IH]; intros sim sim' Hnogen Hrun.
  - injection Hrun as <-. split; [apply same_network_refl|].
    split; [lia|reflexivity].
  - cbn [Simulation.run] in Hrun.
    apply bind_Ok in Hrun as (s1 & Hupd & Hrun).
    destruct (update_frame Vehicle_update VehicleGenerator_update sim s1 Hnogen Hupd)
      as (Hnet1 & Hfc1 & Ht1).
    assert (Hgens : Simulation.vehicle_generator s1 = []).
    { destruct Hnet1 as (_ & _ & _ & _ & ->). exact Hnogen. }
    destruct (IH s1 sim' Hgens Hrun) as (Hnet & Hfc & Ht).
    split; [exact (same_network_trans _ _ _ Hnet1 Hnet)|].
    split; [lia|].
    destruct Hnet1 as (_ & _ & _ & Hdt & _).
    rewrite Ht, Ht1, Hdt. cbn [Nat.iter].
    apply (Nat.iter_swap steps Q (fun t => (t + Simulation.dt sim)%Q)).
Qed.

End Totality.

(** ** Simulations built through the construction calls *)

Section Construction.
Context {G : Type}.
Variable Segment_add_vehicle : nat -> Vehicle.obj -> Segment.obj -> Segment.obj.
Implicit Types (sim : Simulation.obj G).

Lemma init_well_formed : well_formed (Simulation.__init__ (VehicleGenerator := G)).
Proof.
  split; [split|split].
  - constructor.
  - intros veh_id veh H. cbn in H. rewrite lookup_empty in H. discriminate.
  - constructor.
  - intros key signal H. cbn in H. rewrite lookup_empty in H. discriminate.
Qed.


Lemma queued_ids_snoc (segs : list Segment.obj) (seg : Segment.obj) :
  queued_ids (segs ++ [seg]) = queued_ids segs ++ Segment.vehicles seg.
Proof.
  unfold queued_ids. rewrite bind_app. cbn. rewrite app_nil_r. reflexivity.
Qed.

Lemma add_segment_well_formed seg sim :
  Segment.vehicles seg = [] ->
  well_formed sim -> well_formed (Simulation.add_segment seg sim).
Proof.
  intros Hempty ((Hknown & Hpaths) & Hnodup & Hsound).
  unfold Simulation.add_segment.
  assert (Hlen : length (Simulation.segments sim ++ [seg])
                 = S (length (Simulation.segments sim))).
  { rewrite length_app. cbn [length]. lia. }
  split; [split|split].
  - unfold queues_known. cbn [Simulation.segments Simulation.vehicles
                                Simulation.set_segments].
    apply Forall_app. split; [exact Hknown|].
    constructor; [|constructor]. rewrite Hempty. constructor.
  - intros veh_id veh Hlook.
    cbn [Simulation.segments Simulation.vehicles Simulation.set_segments] in Hlook |- *.
    rewrite Hlen. eapply Forall_impl; [|exact (Hpaths veh_id veh Hlook)].
    intros p Hp. exact (py_index_grows _ _ Hp).
  - cbn [Simulation.segments Simulation.set_segments].
    rewrite queued_ids_snoc, Hempty, app_nil_r. exact Hnodup.
  - intros key signal Hlook.
    cbn [Simulation.segments Simulation.traffic_signals Simulation.set_segments]
      in Hlook |- *.
    destruct (Hsound key signal Hlook) as [Hidx Hres].
    split; [|exact Hres]. rewrite Hlen. exact (py_index_grows _ _ Hidx).
Qed.


Lemma create_traffic_signal_cases i cfg sim :
  (~ in_range sim i /\ Simulation.create_traffic_signal i cfg sim = (sim, Raise ValueError))
  \/ (in_range sim i
      /\ Simulation.create_traffic_signal i cfg sim =
         (Simulation.set_traffic_signals
            (<[i := created_signal i cfg]> (Simulation.traffic_signals sim)) sim,
          Ok (created_signal i cfg))).
Proof.
  destruct (Z_lt_dec i 0) as [Hneg|Hpos].
  - left. assert (Hout : ~ in_range sim i) by (unfold in_range; lia).
    split; [exact Hout|].
    unfold Simulation.create_traffic_signal. rewrite (create_guard_true sim i Hout).
    reflexivity.
  - destruct (Z_lt_dec i (Z.of_nat (length (Simulation.segments sim)))) as [Hlt|Hge].
    + right. assert (Hin : in_range sim i) by (unfold in_range; lia).
      split; [exact Hin|]. exact (create_in_range sim i cfg Hin).
    + left. assert (Hout : ~ in_range sim i) by (unfold in_range; lia).
      split; [exact Hout|].
      unfold Simulation.create_traffic_signal. rewrite (create_guard_true sim i Hout).
      reflexivity.
Qed.

Lemma create_traffic_signal_well_formed i cfg sim :
  well_formed sim -> well_formed (fst (Simulation.create_traffic_signal i cfg sim)).
Proof.
  intros Hwf.
  destruct (create_traffic_signal_cases i cfg sim) as [[_ ->]|[Hin ->]]; [exact Hwf|].
  destruct Hwf as (Hready & Hnodup & Hsound).
  split; [exact Hready|]. split; [exact Hnodup|].
  intros key signal Hlook.
  cbn [fst Simulation.segments Simulation.traffic_signals
       Simulation.set_traffic_signals] in Hlook |- *.
  apply lookup_insert_Some in Hlook as [[<- <-]|[_ Hlook]].
  - change (TrafficSignal.segment_index (created_signal i cfg)) with i.
    split; [|discriminate].
    rewrite (py_index_in_range _ i Hin). eexists. reflexivity.
  - exact (Hsound key signal Hlook).
Qed.


Lemma queue_known_insert (table : gmap nat Vehicle.obj) veh_id veh queue :
  queue_known table queue -> queue_known (<[veh_id := veh]> table) queue.
Proof.
  intros Hknown. eapply Forall_impl; [|exact Hknown].
  intros id [old Hold]. cbn beta.
  destruct (decide (id = veh_id)) as [->|Hne].
  - rewrite lookup_insert_eq. eexists. reflexivity.
  - rewrite lookup_insert_ne by congruence. rewrite Hold. eexists. reflexivity.
Qed.

Lemma add_vehicle_well_formed veh_id veh sim :
  queues_at_the_back Segment_add_vehicle ->
  veh_id ∉ queued_ids (Simulation.segments sim) ->
  path_in_range sim veh ->
  well_formed sim ->
  snd (Simulation.add_vehicle Segment_add_vehicle veh_id veh sim) = Ok tt
  /\ well_formed (fst (Simulation.add_vehicle Segment_add_vehicle veh_id veh sim)).
Proof.
  intros Hback Hfresh Hpath ((Hknown & Hpaths) & Hnodup & Hsound).
  unfold path_in_range in Hpath.
  assert (Hpaths' : forall id veh',
             <[veh_id := veh]> (Simulation.vehicles sim) !! id = Some veh' ->
             Forall (fun p => is_Some (py_index (length (Simulation.segments sim)) p))
                    (Vehicle.path veh')).
  { intros id veh' Hlook.
    apply lookup_insert_Some in Hlook as [[_ <-]|[_ Hlook]]; [exact Hpath|].
    exact (Hpaths id veh' Hlook). }
  assert (Hknown' : Forall (fun seg => queue_known (<[veh_id := veh]> (Simulation.vehicles sim))
                                         (Segment.vehicles seg))
                           (Simulation.segments sim)).
  { eapply Forall_impl; [|exact Hknown].
    intros seg Hseg. exact (queue_known_insert _ _ _ _ Hseg). }
  unfold Simulation.add_vehicle.
  cbn [Simulation.segments Simulation.set_vehicles].
  destruct (Vehicle.path veh) as [|first rest] eqn:Hfirst.
  - split; [reflexivity|]. split; [split|split]; assumption.
  - apply Forall_cons_1 in Hpath as [[k Hk] _]. rewrite Hk.
    split; [reflexivity|].
    destruct (lookup_lt_is_Some_2 (Simulation.segments sim) k (py_index_lt _ _ _ Hk))
      as [seg Hseg].
    cbn [fst].
    split; [split|split].
    + unfold queues_known.
      cbn [Simulation.segments Simulation.vehicles Simulation.set_segments
           Simulation.set_vehicles].
      apply Forall_lookup. intros m seg' Hm.
      destruct (decide (m = k)) as [->|Hne].
      * rewrite list_lookup_alter_eq, Hseg in Hm. injection Hm as <-.
        rewrite (proj1 (Hback veh_id veh seg)).
        apply Forall_app. split.
        -- exact (proj1 (Forall_lookup _ _) Hknown' k seg Hseg).
        -- constructor; [|constructor]. rewrite lookup_insert_eq. eexists. reflexivity.
      * rewrite list_lookup_alter_ne in Hm by congruence.
        exact (proj1 (Forall_lookup _ _) Hknown' m seg' Hm).
    + intros id veh' Hlook.
      cbn [Simulation.segments Simulation.vehicles Simulation.set_segments
           Simulation.set_vehicles] in Hlook |- *.
      rewrite length_alter. exact (Hpaths' id veh' Hlook).
    + cbn [Simulation.segments Simulation.set_segments Simulation.set_vehicles].
      assert (Hperm : queued_ids (alter (Segment_add_vehicle veh_id veh) k
                                        (Simulation.segments sim))
                      ≡ₚ [veh_id] ++ queued_ids (Simulation.segments sim)).
      { apply (queued_ids_alter _ [veh_id] _ k seg Hseg).
        rewrite (proj1 (Hback veh_id veh seg)).
        apply Permutation_app_comm. }
      rewrite Hperm. cbn [app]. apply list.NoDup_cons. split; assumption.
    + intros key signal Hlook.
      cbn [Simulation.segments Simulation.traffic_signals Simulation.set_segments
           Simulation.set_vehicles] in Hlook |- *.
      rewrite length_alter. exact (Hsound key signal Hlook).
Qed.

End Construction.

Lemma coasting_update_path_keeping : path_keeping coasting_update.
Proof. intros lead step veh. reflexivity. Qed.

Lemma append_to_queue_at_the_back : queues_at_the_back append_to_queue.
Proof. intros veh_id veh seg. split; reflexivity. Qed.

Lemma convoy_well_formed : well_formed convoy.
Proof.
  split; [split|split].
  - exact convoy_queues_known.
  - intros veh_id veh H. unfold convoy in H. cbn [Simulation.vehicles] in H.
    apply lookup_insert_Some in H as [[_ <-]|[_ H]];
      [|apply lookup_singleton_Some in H as [_ <-]];
      repeat constructor; eexists; reflexivity.
  - exact convoy_queued_once.
  - intros key signal H. unfold convoy in H. cbn [Simulation.traffic_signals] in H.
    apply lookup_singleton_Some in H as [<- <-].
    split; [eexists; reflexivity|discriminate].
Qed.

Lemma two_segments_well_formed : well_formed two_segments.
Proof.
  split; [split|split].
  - repeat constructor.
  - intros veh_id veh H. unfold two_segments in H. cbn [Simulation.vehicles] in H.
    rewrite lookup_empty in H. discriminate.
  - constructor.
  - intros key signal H. unfold two_segments in H.
    cbn [Simulation.traffic_signals] in H. rewrite lookup_empty in H. discriminate.
Qed.



(** X12. The construction calls keep a simulation well formed (queued
    identifiers known and queued once, paths and signals naming existing
    segments) and add no generator: a fresh [Simulation] is well formed;
    [add_segment] of a segment with an empty queue keeps it so;
    [create_traffic_signal] keeps it so whether it returns or raises
    [ValueError]; [add_vehicle] of a vehicle that is queued nowhere yet and
    whose path names existing segments only returns and keeps it so,
    provided [Segment.add_vehicle] puts the identifier at the back of the
    queue. *)
Theorem construction_keeps_well_formed :
  forall (G : Type)
         (Segment_add_vehicle : nat -> Vehicle.obj -> Segment.obj -> Segment.obj)
         (sim : Simulation.obj G),
    well_formed (Simulation.__init__ (VehicleGenerator := G))
    /\ (well_formed sim ->
        (forall seg,
            Segment.vehicles seg = [] ->
            well_formed (Simulation.add_segment seg sim)
            /\ Simulation.vehicle_generator (Simulation.add_segment seg sim)
               = Simulation.vehicle_generator sim)
        /\ (forall i cfg,
              well_formed (fst (Simulation.create_traffic_signal i cfg sim))
              /\ Simulation.vehicle_generator
                   (fst (Simulation.create_traffic_signal i cfg sim))
                 = Simulation.vehicle_generator sim)
        /\ (forall veh_id veh,
              queues_at_the_back Segment_add_vehicle ->
              (veh_id ∉ queued_ids (Simulation.segments sim)) ->
              path_in_range sim veh ->
              snd (Simulation.add_vehicle Segment_add_vehicle veh_id veh sim) = Ok tt
              /\ well_formed
                   (fst (Simulation.add_vehicle Segment_add_vehicle veh_id veh sim))
              /\ Simulation.vehicle_generator
                   (fst (Simulation.add_vehicle Segment_add_vehicle veh_id veh sim))
                 = Simulation.vehicle_generator sim)).
Proof.
  intros G sadd sim. split; [exact init_well_formed|]. intros Hwf.
  split; [|split].
  - intros seg Hempty. split; [|reflexivity].
    exact (add_segment_well_formed seg sim Hempty Hwf).
  - intros i cfg. split; [exact (create_traffic_signal_well_formed i cfg sim Hwf)|].
    destruct (create_traffic_signal_cases i cfg sim) as [[_ ->]|[_ ->]]; reflexivity.
  - intros veh_id veh Hback Hfresh Hpath.
    destruct (add_vehicle_well_formed sadd veh_id veh sim Hback Hfresh Hpath Hwf)
      as [Hok Hwf'].
    split; [exact Hok|]. split; [exact Hwf'|].
    unfold Simulation.add_vehicle. cbn [Simulation.segments Simulation.set_vehicles].
    destruct (Vehicle.path veh) as [|first rest]; [reflexivity|].
    destruct (py_index (length (Simulation.segments sim)) first); reflexivity.
Qed.

Lemma construction_keeps_well_formed_witness :
  well_formed two_segments
  /\ queues_at_the_back append_to_queue
  /\ (1%nat ∉ queued_ids (Simulation.segments two_segments))
  /\ path_in_range two_segments crossing_vehicle
  /\ snd (Simulation.add_vehicle append_to_queue 1 crossing_vehicle two_segments) = Ok tt
  /\ well_formed (fst (Simulation.add_vehicle append_to_queue 1 crossing_vehicle
                         two_segments))
  /\ well_formed (fst (Simulation.create_traffic_signal 5 None two_segments))
  /\ well_formed (Simulation.add_segment (Segment.mk [] 30) two_segments).
Proof.
  assert (Hfresh : 1%nat ∉ queued_ids (Simulation.segments two_segments))
    by (apply (bool_decide_unpack _); vm_compute; exact I).
  assert (Hpath : path_in_range two_segments crossing_vehicle)
    by (repeat constructor; eexists; reflexivity).
  destruct (construction_keeps_well_formed unit append_to_queue two_segments)
    as (_ & Hkeep).
  destruct (Hkeep two_segments_well_formed) as (Hseg & Hsig & Hveh).
  destruct (Hveh 1%nat crossing_vehicle append_to_queue_at_the_back Hfresh Hpath)
    as (Hok & Hwf & _).
  split; [exact two_segments_well_formed|].
  split; [exact append_to_queue_at_the_back|].
  split; [exact Hfresh|]. split; [exact Hpath|]. split; [exact Hok|].
  split; [exact Hwf|]. split; [exact (proj1 (Hsig 5%Z None))|].
  exact (proj1 (Hseg (Segment.mk [] 30) eq_refl)).
Defined.

(** X13. Well-formedness is kept by the ticks, and a well-formed
    simulation without generators fails no lookup: with a [Vehicle.update]
    that leaves paths alone, whenever one tick or any number of ticks
    return, the simulation they leave behind is well formed again, still
    without generators, with the frame counter advanced by the number of
    ticks; and neither raises [IndexError] or [KeyError].  (With exact
    arithmetic the ticks do return; on the machine the square of a speed
    can overflow during a YELLOW update of a signal.) *)
Theorem well_formedness_is_kept_by_ticks :
  forall (G : Type)
         (Vehicle_update : option Vehicle.obj -> Q -> Vehicle.obj -> Vehicle.obj)
         (VehicleGenerator_update : G -> Simulation.obj G -> Simulation.obj G)
         (sim : Simulation.obj G),
    path_keeping Vehicle_update ->
    Simulation.vehicle_generator sim = [] ->
    well_formed sim ->
    (forall sim',
        Simulation.update Vehicle_update VehicleGenerator_update sim = Ok sim' ->
        well_formed sim')
    /\ Simulation.update Vehicle_update VehicleGenerator_update sim <> Raise IndexError
    /\ Simulation.update Vehicle_update VehicleGenerator_update sim <> Raise KeyError
    /\ forall steps,
        (forall sim',
            Simulation.run Vehicle_update VehicleGenerator_update steps sim = Ok sim' ->
            well_formed sim'
            /\ Simulation.vehicle_generator sim' = []
            /\ Simulation.frame_count sim' = (Simulation.frame_count sim + steps)%nat)
        /\ Simulation.run Vehicle_update VehicleGenerator_update steps sim
           <> Raise IndexError
        /\ Simulation.run Vehicle_update VehicleGenerator_update steps sim
           <> Raise KeyError.
Proof.
  intros G vu gu sim Hkeep Hnogen Hwf.
  destruct (update_well_formed vu gu sim Hkeep Hnogen Hwf) as (s1 & Hupd & Hwf1).
  split; [intros sim' H; rewrite Hupd in H; injection H as <-; exact Hwf1|].
  split; [rewrite Hupd; discriminate|]. split; [rewrite Hupd; discriminate|].
  intros steps.
  destruct (run_well_formed vu gu steps Hkeep sim Hnogen Hwf) as (sim1 & Hrun & Hwf').
  destruct (run_frame vu gu steps sim sim1 Hnogen Hrun)
    as ((_ & _ & _ & _ & Hgens) & Hfc & _).
  split; [|split; rewrite Hrun; discriminate].
  intros sim' H. rewrite Hrun in H. injection H as <-.
  split; [exact Hwf'|]. split; [rewrite Hgens; exact Hnogen|exact Hfc].
Qed.

Lemma well_formedness_is_kept_by_ticks_witness :
  path_keeping coasting_update
  /\ Simulation.vehicle_generator convoy = []
  /\ well_formed convoy
  /\ exists sim',
      Simulation.run coasting_update no_generation 5 convoy = Ok sim'
      /\ well_formed sim'
      /\ Simulation.frame_count sim' = 5%nat.
Proof.
  split; [exact coasting_update_path_keeping|]. split; [reflexivity|].
  split; [exact convoy_well_formed|].
  assert (Hrun : exists sim',
             Simulation.run coasting_update no_generation 5 convoy = Ok sim')
    by (eexists; vm_compute; reflexivity).
  destruct Hrun as [sim' Hrun].
  destruct (well_formedness_is_kept_by_ticks unit coasting_update no_generation
              convoy coasting_update_path_keeping eq_refl convoy_well_formed)
    as (_ & _ & _ & Hsteps).
  destruct (proj1 (Hsteps 5%nat) sim' Hrun) as (Hwf & _ & Hfc).
  exists sim'. split; [exact Hrun|]. split; [exact Hwf|exact Hfc].
Defined.

(** ** Scripts *)

Section Scripts.
Context {G : Type}.
Variable Segment_add_vehicle : nat -> Vehicle.obj -> Segment.obj -> Segment.obj.
Variable Vehicle_update : option Vehicle.obj -> Q -> Vehicle.obj -> Vehicle.obj.
Variable VehicleGenerator_update : G -> Simulation.obj G -> Simulation.obj G.
Implicit Types (sim : Simulation.obj G).





End Scripts.




(** ** What a signal reads of the simulation *)

Lemma resolve_position_local segs segs' signal segment segment' :
  py_getitem segs (TrafficSignal.segment_index signal) = Ok segment ->
  py_getitem segs' (TrafficSignal.segment_index signal) = Ok segment' ->
  (TrafficSignal._position_resolved signal = false ->
   TrafficSignal.stop_position signal = None ->
   Segment.get_length segment' = Segment.get_length segment) ->
  TrafficSignal.resolve_position segs' signal
  = TrafficSignal.resolve_position segs signal.
Proof.
  intros Hseg Hseg' Hlen. unfold TrafficSignal.resolve_position.
  destruct (TrafficSignal._position_resolved signal) eqn:Hdone; [reflexivity|].
  rewrite Hseg, Hseg'. cbn [bind].
  destruct (TrafficSignal.stop_position signal) eqn:Hsp; [reflexivity|].
  rewrite (Hlen eq_refl eq_refl). reflexivity.
Qed.

Lemma update_phantom_local segs vehs segs' vehs' signal segment segment' sp :
  TrafficSignal.stop_position signal = Some sp ->
  py_getitem segs (TrafficSignal.segment_index signal) = Ok segment ->
  py_getitem segs' (TrafficSignal.segment_index signal) = Ok segment' ->
  queue_known vehs (Segment.vehicles segment) ->
  queue_known vehs' (Segment.vehicles segment') ->
  (forall veh,
      behind_line sp veh ->
      on_queue vehs (Segment.vehicles segment) veh
      <-> on_queue vehs' (Segment.vehicles segment') veh) ->
  TrafficSignal._update_phantom segs' vehs' signal
  = TrafficSignal._update_phantom segs vehs signal.
Proof.
  intros Hsp Hseg Hseg' Hknown Hknown' Hsame.
  destruct (TrafficSignal._state signal) eqn:Hst.
  - unfold TrafficSignal._update_phantom. rewrite Hst. reflexivity.
  - destruct (update_phantom_yellow segs vehs signal segment sp Hst Hsp Hseg Hknown)
      as [Hfree Hheld].
    destruct (update_phantom_yellow segs' vehs' signal segment' sp Hst Hsp Hseg' Hknown')
      as [Hfree' Hheld'].
    destruct (TrafficSignal._yellow_hold signal) eqn:Hhold.
    + destruct (Hheld eq_refl) as [[Hm ->]|[Hm ->]];
        destruct (Hheld' eq_refl) as [[Hm' ->]|[Hm' ->]]; try reflexivity; exfalso.
      * apply Hm'. destruct Hm as (veh & Hon & Hmoving).
        exists veh. split; [|exact Hmoving].
        apply (Hsame veh (proj1 Hmoving)). exact Hon.
      * apply Hm. destruct Hm' as (veh & Hon & Hmoving).
        exists veh. split; [|exact Hmoving].
        apply (Hsame veh (proj1 Hmoving)). exact Hon.
    + destruct (Hfree eq_refl) as [[Hm ->]|[Hm ->]];
        destruct (Hfree' eq_refl) as [[Hm' ->]|[Hm' ->]]; try reflexivity; exfalso.
      * apply Hm'. destruct Hm as (veh & Hon & Hcannot).
        exists veh. split; [|exact Hcannot].
        apply (Hsame veh (proj1 Hcannot)). exact Hon.
      * apply Hm. destruct Hm' as (veh & Hon & Hcannot).
        exists veh. split; [|exact Hcannot].
        apply (Hsame veh (proj1 Hcannot)). exact Hon.
  - unfold TrafficSignal._update_phantom. rewrite Hst. reflexivity.
Qed.

(** X15. What an update of a signal reads of the simulation: the guarded
    segment only, and of it the length (only when the position is still
    to be resolved and none is configured) and which vehicles are queued
    behind the stop line.  Two simulations that agree on these give the
    same updated signal, whatever their other segments and vehicles,
    the order of the queue and the vehicles at or past the line; and the
    update returns. *)
Theorem signal_reads_only_its_segment :
  forall (segs segs' : list Segment.obj) (vehs vehs' : gmap nat Vehicle.obj)
         (step : Q) (signal : TrafficSignal.obj) (segment segment' : Segment.obj),
    py_getitem segs (TrafficSignal.segment_index signal) = Ok segment ->
    py_getitem segs' (TrafficSignal.segment_index signal) = Ok segment' ->
    queue_known vehs (Segment.vehicles segment) ->
    queue_known vehs' (Segment.vehicles segment') ->
    (TrafficSignal._position_resolved signal = true ->
     is_Some (TrafficSignal.stop_position signal)) ->
    (TrafficSignal._position_resolved signal = false ->
     TrafficSignal.stop_position signal = None ->
     Segment.get_length segment' = Segment.get_length segment) ->
    (forall veh,
        behind_line (default (Segment.get_length segment)
                             (TrafficSignal.stop_position signal)) veh ->
        on_queue vehs (Segment.vehicles segment) veh
        <-> on_queue vehs' (Segment.vehicles segment') veh) ->
    exists sg',
      TrafficSignal.update segs vehs step signal = Ok sg'
      /\ TrafficSignal.update segs' vehs' step signal = Ok sg'.
Proof.
  intros segs segs' vehs vehs' step signal segment segment'
         Hseg Hseg' Hknown Hknown' Hres Hlen Hsame.
  assert (Hready : signal_ready segs vehs signal).
  { split; [|exact Hres]. exists segment. split; assumption. }
  destruct (resolve_position_ready segs vehs signal Hready) as (sg1 & sp & Hsg1 & Hsp).
  pose proof (resolve_position_local segs segs' signal segment segment' Hseg Hseg' Hlen)
    as Hlocal.
  destruct (resolve_position_Ok segs signal sg1 Hsg1)
    as (_ & Hidx & _ & _ & _ & _ & _ & Hkept & Hfirst).
  assert (Hsp' : sp = default (Segment.get_length segment)
                              (TrafficSignal.stop_position signal)).
  { destruct (TrafficSignal._position_resolved signal) eqn:Hdone.
    - destruct (Hres eq_refl) as [p Hp]. rewrite (Hkept eq_refl), Hp in Hsp.
      rewrite Hp. cbn. congruence.
    - destruct (Hfirst eq_refl) as (segment0 & Hseg0 & Hsp0).
      rewrite Hseg in Hseg0. injection Hseg0 as <-. congruence. }
  rewrite <- Hsp' in Hsame.
  assert (Hphantom :
            TrafficSignal._update_phantom segs' vehs' (ticked step sg1)
            = TrafficSignal._update_phantom segs vehs (ticked step sg1)).
  { apply (update_phantom_local segs vehs segs' vehs' (ticked step sg1)
             segment segment' sp).
    - exact Hsp.
    - cbn [ticked TrafficSignal.segment_index TrafficSignal.set_clock].
      rewrite Hidx. exact Hseg.
    - cbn [ticked TrafficSignal.segment_index TrafficSignal.set_clock].
      rewrite Hidx. exact Hseg'.
    - exact Hknown.
    - exact Hknown'.
    - exact Hsame. }
  destruct (update_ready_total segs vehs step signal Hready) as [sg' Hupd].
  exists sg'. split; [exact Hupd|].
  rewrite update_unfold in Hupd |- *.
  rewrite Hlocal. rewrite Hsg1 in Hupd |- *. cbn [bind] in Hupd |- *.
  rewrite Hphantom. exact Hupd.
Qed.

Lemma two_members (a b veh_id : nat) : veh_id ∈ [a; b] <-> veh_id = a \/ veh_id = b.
Proof.
  split.
  - intros H. inversion H as [|? ? ? H2]; subst; [left; reflexivity|].
    inversion H2 as [|? ? ? H3]; subst; [right; reflexivity|]. inversion H3.
  - intros [->| ->]; [constructor|constructor; constructor].
Qed.

Lemma signal_reads_only_its_segment_witness :
  exists sg',
    TrafficSignal.update (Simulation.segments convoy) (Simulation.vehicles convoy)
      (1 # 60) latched_signal = Ok sg'
    /\ TrafficSignal.update convoy_reordered
         (<[9%nat := brakeless_vehicle]> (Simulation.vehicles convoy))
         (1 # 60) latched_signal = Ok sg'
    /\ TrafficSignal._state sg' = YELLOW.
Proof.
  assert (Hsame : forall veh,
             on_queue (Simulation.vehicles convoy) [1%nat; 2%nat] veh
             <-> on_queue (<[9%nat := brakeless_vehicle]> (Simulation.vehicles convoy))
                          [2%nat; 1%nat] veh).
  { intros veh. unfold on_queue.
    split; intros (veh_id & Hin & Hlook); exists veh_id;
      apply two_members in Hin.
    - split; [apply two_members; tauto|].
      rewrite lookup_insert_ne; [exact Hlook|lia].
    - split; [apply two_members; tauto|].
      rewrite lookup_insert_ne in Hlook; [exact Hlook|lia]. }
  destruct (signal_reads_only_its_segment
              (Simulation.segments convoy) convoy_reordered
              (Simulation.vehicles convoy)
              (<[9%nat := brakeless_vehicle]> (Simulation.vehicles convoy))
              (1 # 60) latched_signal
              (Segment.mk [1%nat; 2%nat] 100) (Segment.mk [2%nat; 1%nat] 100)
              eq_refl eq_refl)
    as (sg' & Hupd & Hupd').
  - repeat constructor; eexists; reflexivity.
  - repeat constructor; eexists; reflexivity.
  - intros _. eexists. reflexivity.
  - discriminate.
  - intros veh _. exact (Hsame veh).
  - exists sg'. split; [exact Hupd|]. split; [exact Hupd'|].
    vm_compute in Hupd. injection Hupd as <-. reflexivity.
Defined.

(** ** Vehicles that are in no queue *)

Section Unqueued.
Context {G : Type}.
Variable Vehicle_update : option Vehicle.obj -> Q -> Vehicle.obj -> Vehicle.obj.
Variable VehicleGenerator_update : G -> Simulation.obj G -> Simulation.obj G.
Implicit Types (sim : Simulation.obj G).

Lemma update_queue_untouched step queue (veh_id : nat) :
  forall leader (table table' : gmap nat Vehicle.obj),
    Simulation.update_queue Vehicle_update step leader queue table = Ok table' ->
    veh_id ∉ queue ->
    table' !! veh_id = table !! veh_id.
Proof.
  induction queue as [|front rest IH]; intros leader table table' Hrun Hout.
  - injection Hrun as <-. reflexivity.
  - cbn [Simulation.update_queue] in Hrun.
    apply bind_Ok in Hrun as (old & _ & Hrun).
    apply not_elem_of_cons in Hout as [Hne Hout].
    rewrite (IH _ _ _ Hrun Hout). apply lookup_insert_ne. congruence.
Qed.

Lemma update_segments_from_untouched sim segs (veh_id : nat) :
  forall seg_idx (table table' : gmap nat Vehicle.obj),
    Simulation.update_segments_from Vehicle_update sim seg_idx segs table = Ok table' ->
    veh_id ∉ queued_ids segs ->
    table' !! veh_id = table !! veh_id.
Proof.
  induction segs as [|seg rest IH]; intros seg_idx table table' Hrun Hout.
  - injection Hrun as <-. reflexivity.
  - cbn [Simulation.update_segments_from] in Hrun.
    rewrite update_segment_vehicles_queue in Hrun.
    apply bind_Ok in Hrun as (table1 & Hrun1 & Hrun).
    rewrite queued_ids_cons in Hout. apply not_elem_of_app in Hout as [Hout1 Hout].
    rewrite (IH _ _ _ Hrun Hout).
    exact (update_queue_untouched _ _ _ _ _ _ Hrun1 Hout1).
Qed.

Lemma check_segment_untouched i sim sim' (veh_id : nat) :
  Simulation.check_segment i sim = Ok sim' ->
  veh_id ∉ queued_ids (Simulation.segments sim) ->
  (veh_id ∉ queued_ids (Simulation.segments sim'))
  /\ Simulation.vehicles sim' !! veh_id = Simulation.vehicles sim !! veh_id.
Proof.
  intros Hstep Hout. split.
  - intros Hin. apply Hout.
    exact (elem_of_submseteq _ _ _ Hin (check_segment_queued_ids i sim sim' Hstep)).
  - apply check_segment_Ok in Hstep
      as [->|(segment & front & rest & veh & Hseg & Hq & _ & _ & ->)]; [reflexivity|].
    unfold crossed. cbn [Simulation.vehicles Simulation.set_segments
                         Simulation.set_vehicles].
    apply lookup_insert_ne. intros ->. apply Hout.
    apply list_elem_of_bind. exists segment. split.
    + rewrite Hq. constructor.
    + apply list_elem_of_lookup. exists i. exact Hseg.
Qed.

Lemma check_out_of_bounds_untouched sim s3 (veh_id : nat) :
  Simulation.check_out_of_bounds sim = Ok s3 ->
  veh_id ∉ queued_ids (Simulation.segments sim) ->
  (veh_id ∉ queued_ids (Simulation.segments s3))
  /\ Simulation.vehicles s3 !! veh_id = Simulation.vehicles sim !! veh_id.
Proof.
  intros Hrun Hout. unfold Simulation.check_out_of_bounds in Hrun.
  apply (check_segments_invariant
           (fun s => (veh_id ∉ queued_ids (Simulation.segments s))
                     /\ Simulation.vehicles s !! veh_id
                        = Simulation.vehicles sim !! veh_id)
           (seq 0 (length (Simulation.segments sim)))) with (sim := sim).
  - intros i s s' _ [Hs Hsame] Hstep.
    destruct (check_segment_untouched i s s' veh_id Hstep Hs) as [Hs' Hsame'].
    split; [exact Hs'|congruence].
  - split; [exact Hout|reflexivity].
  - exact Hrun.
Qed.

Lemma update_untouched sim sim' (veh_id : nat) :
  Simulation.vehicle_generator sim = [] ->
  Simulation.update Vehicle_update VehicleGenerator_update sim = Ok sim' ->
  veh_id ∉ queued_ids (Simulation.segments sim) ->
  (veh_id ∉ queued_ids (Simulation.segments sim'))
  /\ Simulation.vehicles sim' !! veh_id = Simulation.vehicles sim !! veh_id.
Proof.
  intros Hnogen Hupd Hout. unfold Simulation.update in Hupd.
  apply bind_Ok in Hupd as (s1 & H1 & Hupd).
  apply bind_Ok in Hupd as (s2 & H2 & Hupd).
  apply bind_Ok in Hupd as (s3 & H3 & [= <-]).
  destruct (update_signals_Ok sim s1 H1) as (Hshape1 & _).
  unfold Simulation.update_vehicles in H2.
  apply bind_Ok in H2 as (table' & H2 & [= <-]).
  assert (Hsegs1 : Simulation.segments s1 = Simulation.segments sim)
    by (rewrite Hshape1; reflexivity).
  assert (Hvehs1 : Simulation.vehicles s1 = Simulation.vehicles sim)
    by (rewrite Hshape1; reflexivity).
  rewrite <- Hsegs1 in Hout.
  pose proof (update_segments_from_untouched s1 _ veh_id _ _ _ H2 Hout) as Hsame2.
  destruct (check_out_of_bounds_untouched _ s3 veh_id H3 Hout) as [Hout3 Hsame3].
  destruct (check_out_of_bounds_same_network _ s3 H3) as ((_ & _ & _ & _ & Hgens3) & _).
  assert (Hgens : Simulation.vehicle_generator s3 = []).
  { rewrite Hgens3. cbn [Simulation.vehicle_generator Simulation.set_vehicles].
    rewrite Hshape1. exact Hnogen. }
  unfold Simulation.update_generators. rewrite Hgens.
  cbn [foldl Simulation.segments Simulation.vehicles Simulation.tick_clock].
  split; [exact Hout3|].
  rewrite Hsame3. cbn [Simulation.vehicles Simulation.set_vehicles].
  rewrite Hsame2, Hvehs1. reflexivity.
Qed.

Lemma run_untouched steps (veh_id : nat) :
  forall sim sim',
    Simulation.vehicle_generator sim = [] ->
    Simulation.run Vehicle_update VehicleGenerator_update steps sim = Ok sim' ->
    veh_id ∉ queued_ids (Simulation.segments sim) ->
    (veh_id ∉ queued_ids (Simulation.segments sim'))
    /\ Simulation.vehicles sim' !! veh_id = Simulation.vehicles sim !! veh_id.
Proof.
  induction steps as [|steps IH]; intros sim sim' Hnogen Hrun Hout.
  - injection Hrun as <-. split; [exact Hout|reflexivity].
  - cbn [Simulation.run] in Hrun. apply bind_Ok in Hrun as (s1 & Hupd & Hrun).
    destruct (update_untouched sim s1 veh_id Hnogen Hupd Hout) as [Hout1 Hsame1].
    destruct (update_frame Vehicle_update VehicleGenerator_update sim s1 Hnogen Hupd)
      as ((_ & _ & _ & _ & Hgens) & _).
    rewrite Hnogen in Hgens.
    destruct (IH s1 sim' Hgens Hrun Hout1) as [Hout' Hsame'].
    split; [exact Hout'|congruence].
Qed.
End Unqueued.

(** X16. A vehicle that is in no queue is out of the simulation for
    good: without generators, no tick queues it again and no tick touches
    its table entry, which stays as it is (for a vehicle that left the last
    segment of its path, with [x] at 0) after any number of steps. *)
Theorem unqueued_vehicle_is_never_touched :
  forall (G : Type)
         (Vehicle_update : option Vehicle.obj -> Q -> Vehicle.obj -> Vehicle.obj)
         (VehicleGenerator_update : G -> Simulation.obj G -> Simulation.obj G)
         (steps : nat) (sim sim' : Simulation.obj G) (veh_id : nat),
    Simulation.vehicle_generator sim = [] ->
    Simulation.run Vehicle_update VehicleGenerator_update steps sim = Ok sim' ->
    (veh_id ∉ queued_ids (Simulation.segments sim)) ->
    (veh_id ∉ queued_ids (Simulation.segments sim'))
    /\ (forall m seg, Simulation.segments sim' !! m = Some seg ->
                      veh_id ∉ Segment.vehicles seg)
    /\ Simulation.vehicles sim' !! veh_id = Simulation.vehicles sim !! veh_id.
Proof.
  intros G vu gu steps sim sim' veh_id Hnogen Hrun Hout.
  destruct (run_untouched vu gu steps veh_id sim sim' Hnogen Hrun Hout)
    as [Hout' Hsame].
  split; [exact Hout'|]. split; [|exact Hsame].
  intros m seg Hseg Hin. apply Hout'.
  apply list_elem_of_bind. exists seg. split; [exact Hin|].
  apply list_elem_of_lookup. exists m. exact Hseg.
Qed.

Lemma unqueued_vehicle_is_never_touched_witness :
  exists sim',
    Simulation.run coasting_update no_generation 50 one_segment_left = Ok sim'
    /\ (7%nat ∉ queued_ids (Simulation.segments sim'))
    /\ Simulation.vehicles sim' !! 7%nat = Some (Vehicle.set_x 0 leaving_vehicle).
Proof.
  assert (Hrun : exists sim',
             Simulation.run coasting_update no_generation 50 one_segment_left = Ok sim')
    by (eexists; vm_compute; reflexivity).
  destruct Hrun as [sim' Hrun].
  assert (Hout : 7%nat ∉ queued_ids (Simulation.segments one_segment_left))
    by (apply (bool_decide_unpack _); vm_compute; exact I).
  destruct (unqueued_vehicle_is_never_touched unit coasting_update no_generation 50
              one_segment_left sim' 7%nat eq_refl Hrun Hout)
    as (Hout' & _ & Hsame).
  exists sim'. split; [exact Hrun|]. split; [exact Hout'|]. rewrite Hsame. reflexivity.
Defined.
